(** * qjs.c: the QuickJS stand-alone interpreter front-end

    A shallow embedding of [qjs.c]: the tracing allocator
    ([js_trace_malloc], [js_trace_free], [js_trace_realloc]), the size
    parser ([get_suffixed_size]), the option scanner and driver of [main],
    and the eval pipeline ([eval_buf], [eval_file]).

    Conventions.
    - [size_t] and [unsigned long long] are 64-bit: values are [Z] and the
      wrap-around of every C operation is written out with [wrap].
    - A C string is a Rocq [string]; the terminating NUL is the end of the
      string, so [*p == 0] reads [p = ""].
    - Pointers are addresses in [Z]; [NULL] is 0.
    - The platform allocator, the C library and the JavaScript engine are
      outside [qjs.c]. Their answers are supplied from outside (an answer
      per call for the allocator, an [Engine] record of answer functions
      for the engine), and every call the program makes to them is
      recorded, so that what the program does around them can be stated. *)

From Stdlib Require Import ZArith String Ascii List Lia Bool.
From stdpp Require Import base option gmap strings list.

Local Open Scope string_scope.
Local Open Scope Z_scope.

(** ** Machine integers *)

Definition SIZE_MAX : Z := 2 ^ 64 - 1.

(** Reduction of a mathematical integer to a [size_t]. *)
Definition wrap (x : Z) : Z := x mod 2 ^ 64.

(** Reading of a 64-bit pattern as [long long] / [ssize_t]. *)
Definition to_signed (x : Z) : Z :=
  if wrap x <? 2 ^ 63 then wrap x else wrap x - 2 ^ 64.

Definition NULL : Z := 0.

(** The newline character, as a string. *)
Definition LF : string := String (ascii_of_N 10) "".

(** ** Decimal rendering, as [printf] does it *)

Definition digit_char (d : Z) : ascii :=
  ascii_of_N (Z.to_N (48 + d)).

Fixpoint dec_aux (fuel : nat) (n : Z) (acc : string) : string :=
  match fuel with
  | O => acc
  | S fuel' =>
      let acc' := String (digit_char (n mod 10)) acc in
      if n <? 10 then acc' else dec_aux fuel' (n / 10) acc'
  end.

(** [dec n] is what [%u]-style conversions print for [0 <= n]. *)
Definition dec (n : Z) : string :=
  dec_aux (S (Z.to_nat (Z.log2 n))) n "".

Fixpoint zeros (k : nat) : string :=
  match k with
  | O => ""
  | S k' => String "0" (zeros k')
  end.

(** [%zd] applied to a [size_t]: the bits are read as signed. *)
Definition fmt_zd (sz : Z) : string :=
  let v := to_signed sz in
  if v <? 0 then String "-" (dec (- v)) else dec v.

(** [%+06lld]: sign always printed, zero padding to a width of 6. *)
Definition fmt_plus06lld (x : Z) : string :=
  let v := to_signed x in
  let digits := dec (Z.abs v) in
  let sign := if v <? 0 then "-" else "+" in
  sign +:+ zeros (5 - String.length digits) +:+ digits.

(** ** The tracing allocator *)

Module Alloc.

(** [struct trace_malloc_data]. *)
Record trace_malloc_data := { base : Z }.

(** Modelled from the spec: the engine's [JSMallocState] is declared in the
    engine's header, which is not part of [qjs.c]; the spec's allocator state
    has [live_count], [live_bytes], [byte_limit] and the trace data, which
    [qjs.c] reads as [malloc_count], [malloc_size], [malloc_limit] and
    [opaque]. The three counters are [size_t]. *)
Record JSMallocState := {
  malloc_count : Z;
  malloc_size : Z;
  malloc_limit : Z;
  opaque : trace_malloc_data
}.

(** Calls made to the platform allocator. *)
Inductive sys_call :=
| SysMalloc (size : Z)
| SysFree (ptr : Z)
| SysRealloc (ptr size : Z).

(** The state the allocator functions act on: the accounting record [s],
    the platform heap (live block address to usable size), what was printed
    on standard output, and the platform calls made so far. *)
Record world := {
  ms : JSMallocState;
  heap : gmap Z Z;
  out : string;
  calls : list sys_call
}.

(** The answer of the platform allocator to one [malloc] or [realloc]:
    [None] is a NULL return, [Some (p, u)] a block at [p] whose usable size
    is [u]. *)
Definition answer := option (Z * Z).

Section Platform.

(** [true] for the [__APPLE__] branch of the [#if]. *)
Variable apple : bool.

Definition MALLOC_OVERHEAD : Z := if apple then 0 else 8.

Definition set_ms (w : world) (s : JSMallocState) : world :=
  {| ms := s; heap := heap w; out := out w; calls := calls w |}.

Definition printf (w : world) (text : string) : world :=
  {| ms := ms w; heap := heap w; out := out w +:+ text; calls := calls w |}.

(** *** The platform allocator *)

Definition sys_malloc (w : world) (size : Z) (a : answer) : Z * world :=
  match a with
  | None =>
      (NULL, {| ms := ms w; heap := heap w; out := out w;
                calls := calls w ++ [SysMalloc size] |})
  | Some (p, u) =>
      (p, {| ms := ms w; heap := <[p := u]> (heap w); out := out w;
             calls := calls w ++ [SysMalloc size] |})
  end.

Definition sys_free (w : world) (ptr : Z) : world :=
  {| ms := ms w; heap := delete ptr (heap w); out := out w;
     calls := calls w ++ [SysFree ptr] |}.

Definition sys_realloc (w : world) (ptr size : Z) (a : answer) : Z * world :=
  match a with
  | None =>
      (NULL, {| ms := ms w; heap := heap w; out := out w;
                calls := calls w ++ [SysRealloc ptr size] |})
  | Some (p, u) =>
      (p, {| ms := ms w; heap := <[p := u]> (delete ptr (heap w));
             out := out w; calls := calls w ++ [SysRealloc ptr size] |})
  end.

(** [js_trace_malloc_ptr_offset]: [ptr - dp->base] as [unsigned long long]. *)
Definition js_trace_malloc_ptr_offset (ptr : Z) (dp : trace_malloc_data) : Z :=
  wrap (ptr - base dp).

(** [js_trace_malloc_usable_size]: the platform's introspection of a live
    block ([malloc_usable_size] and the like). *)
Definition js_trace_malloc_usable_size (w : world) (ptr : Z) : Z :=
  default 0 (heap w !! ptr).

(** The variable arguments of [js_trace_malloc_printf]. *)
Inductive va_arg :=
| VPtr (p : Z)
| VSize (sz : Z).

(** What [%p] prints for a non-NULL pointer. *)
Definition fmt_ptr (w : world) (ptr : Z) : string :=
  "H" +:+ fmt_plus06lld (js_trace_malloc_ptr_offset ptr (opaque (ms w)))
  +:+ "." +:+ fmt_zd (js_trace_malloc_usable_size w ptr).

(** [js_trace_malloc_printf]: only [%p] and [%zd] are conversions; every
    other character, a [%] that starts neither included, is copied. The
    arguments [ap] are taken in order; the callers pass one of the right
    kind for each conversion. *)
Fixpoint js_trace_malloc_printf (w : world) (fmt : string) (ap : list va_arg)
  : world :=
  match fmt with
  | "" => w
  | String c fmt1 =>
      let putc := js_trace_malloc_printf (printf w (String c "")) fmt1 ap in
      if (c =? "%")%char then
        match fmt1 with
        | String c1 fmt2 =>
            if (c1 =? "p")%char then
              match ap with
              | VPtr ptr :: ap' =>
                  let w' :=
                    if ptr =? NULL then printf w "NULL"
                    else printf w (fmt_ptr w ptr) in
                  js_trace_malloc_printf w' fmt2 ap'
              | _ => w
              end
            else
              match fmt2 with
              | String c2 fmt3 =>
                  if (c1 =? "z")%char && (c2 =? "d")%char then
                    match ap with
                    | VSize sz :: ap' =>
                        js_trace_malloc_printf (printf w (fmt_zd sz)) fmt3 ap'
                    | _ => w
                    end
                  else putc
              | "" => putc
              end
        | "" => putc
        end
      else putc
  end.

(** [js_trace_malloc]. [None] is the failed [assert (size != 0)]. *)
Definition js_trace_malloc (w : world) (size : Z) (a : answer)
  : option (Z * world) :=
  if size =? 0 then None
  else
    let s := ms w in
    if wrap (malloc_size s + size) >? malloc_limit s then Some (NULL, w)
    else
      let '(ptr, w1) := sys_malloc w size a in
      let w2 := js_trace_malloc_printf w1 ("A %zd -> %p" +:+ LF)
                  [VSize size; VPtr ptr] in
      if ptr =? NULL then Some (ptr, w2)
      else
        let s2 := ms w2 in
        Some (ptr,
              set_ms w2
                {| malloc_count := wrap (malloc_count s2 + 1);
                   malloc_size :=
                     wrap (malloc_size s2 +
                           wrap (js_trace_malloc_usable_size w2 ptr
                                 + MALLOC_OVERHEAD));
                   malloc_limit := malloc_limit s2;
                   opaque := opaque s2 |}).

(** [js_trace_free]. *)
Definition js_trace_free (w : world) (ptr : Z) : world :=
  if ptr =? NULL then w
  else
    let w1 := js_trace_malloc_printf w ("F %p" +:+ LF) [VPtr ptr] in
    let s1 := ms w1 in
    let w2 :=
      set_ms w1
        {| malloc_count := wrap (malloc_count s1 - 1);
           malloc_size :=
             wrap (malloc_size s1 -
                   wrap (js_trace_malloc_usable_size w1 ptr + MALLOC_OVERHEAD));
           malloc_limit := malloc_limit s1;
           opaque := opaque s1 |} in
    sys_free w2 ptr.

(** [js_trace_realloc]. *)
Definition js_trace_realloc (w : world) (ptr size : Z) (a : answer)
  : option (Z * world) :=
  if ptr =? NULL then
    if size =? 0 then Some (NULL, w)
    else js_trace_malloc w size a
  else
    let old_size := js_trace_malloc_usable_size w ptr in
    if size =? 0 then
      let w1 := js_trace_malloc_printf w ("R %zd %p" +:+ LF)
                  [VSize size; VPtr ptr] in
      let s1 := ms w1 in
      let w2 :=
        set_ms w1
          {| malloc_count := wrap (malloc_count s1 - 1);
             malloc_size :=
               wrap (malloc_size s1 - wrap (old_size + MALLOC_OVERHEAD));
             malloc_limit := malloc_limit s1;
             opaque := opaque s1 |} in
      Some (NULL, sys_free w2 ptr)
    else
      let s := ms w in
      if wrap (wrap (malloc_size s + size) - old_size) >? malloc_limit s
      then Some (NULL, w)
      else
        let w1 := js_trace_malloc_printf w "R %zd %p" [VSize size; VPtr ptr] in
        let '(ptr', w2) := sys_realloc w1 ptr size a in
        let w3 := js_trace_malloc_printf w2 (" -> %p" +:+ LF) [VPtr ptr'] in
        if ptr' =? NULL then Some (ptr', w3)
        else
          let s3 := ms w3 in
          Some (ptr',
                set_ms w3
                  {| malloc_count := malloc_count s3;
                     malloc_size :=
                       wrap (malloc_size s3 +
                             wrap (js_trace_malloc_usable_size w3 ptr'
                                   - old_size));
                     malloc_limit := malloc_limit s3;
                     opaque := opaque s3 |}).

(** [js_trace_malloc_init]: [free (s->base = malloc (8))]. The trace data
    is the [opaque] field of the accounting record. *)
Definition js_trace_malloc_init (w : world) (a : answer) : world :=
  let '(p, w1) := sys_malloc w 8 a in
  let s1 := ms w1 in
  let w2 :=
    set_ms w1
      {| malloc_count := malloc_count s1; malloc_size := malloc_size s1;
         malloc_limit := malloc_limit s1; opaque := {| base := p |} |} in
  sys_free w2 p.

(** *** Sequences of operations *)

Inductive op :=
| Malloc (size : Z) (a : answer)
| Free (ptr : Z)
| Realloc (ptr size : Z) (a : answer).

(** One call through the allocator's function table; [js_trace_free]
    returns nothing, which reads as [NULL] here. *)
Definition step (w : world) (o : op) : option (Z * world) :=
  match o with
  | Malloc size a => js_trace_malloc w size a
  | Free ptr => Some (NULL, js_trace_free w ptr)
  | Realloc ptr size a => js_trace_realloc w ptr size a
  end.

(** What the platform allocator guarantees about an answer: a block it
    hands out is not NULL, is not a live block (other than the block being
    reallocated), and its usable size is at least the requested size. *)
Definition answer_ok (w : world) (old size : Z) (a : answer) : Prop :=
  match a with
  | None => True
  | Some (p, u) =>
      p <> NULL /\ (p = old \/ heap w !! p = None) /\ size <= u <= SIZE_MAX
  end.

(** A block the platform hands out is not NULL. *)
Definition answer_nonnull (a : answer) : Prop :=
  match a with
  | Some (p, _) => p <> NULL
  | None => True
  end.

(** What the allocator's caller guarantees: sizes are [size_t] values and
    a block passed to free or realloc is NULL or live. *)
Definition op_ok (w : world) (o : op) : Prop :=
  match o with
  | Malloc size a => 0 <= size <= SIZE_MAX /\ answer_ok w NULL size a
  | Free ptr => ptr = NULL \/ is_Some (heap w !! ptr)
  | Realloc ptr size a =>
      0 <= size <= SIZE_MAX /\ (ptr = NULL \/ is_Some (heap w !! ptr)) /\
      answer_ok w ptr size a
  end.

(** The state a runtime starts from: nothing allocated, the cap [limit]. *)
Definition init_world (limit : Z) (b : Z) : world :=
  {| ms := {| malloc_count := 0; malloc_size := 0; malloc_limit := limit;
              opaque := {| base := b |} |};
     heap := ∅; out := ""; calls := [] |}.

(** [requests o size]: the operation asks for a block of [size] bytes, by
    [js_trace_malloc] or by [js_trace_realloc] with a size that is not
    zero. *)
Definition requests (o : op) (size : Z) : Prop :=
  match o with
  | Malloc sz _ => sz = size
  | Realloc _ sz _ => sz = size /\ sz <> 0
  | Free _ => False
  end.

(** [over_cap w o]: the cap test of the operation fails in [w]. *)
Definition over_cap (w : world) (o : op) : Prop :=
  match o with
  | Malloc size _ => malloc_limit (ms w) < wrap (malloc_size (ms w) + size)
  | Realloc ptr size _ =>
      if ptr =? NULL
      then malloc_limit (ms w) < wrap (malloc_size (ms w) + size)
      else malloc_limit (ms w)
           < wrap (wrap (malloc_size (ms w) + size)
                   - js_trace_malloc_usable_size w ptr)
  | Free _ => False
  end.

Inductive reachable (limit b : Z) : world -> Prop :=
| reach_init : reachable limit b (init_world limit b)
| reach_step w o r w' :
    reachable limit b w -> op_ok w o -> step w o = Some (r, w') ->
    reachable limit b w'.

End Platform.

End Alloc.

(** ** Program outcomes and the record of external calls *)

(** Modelled from the spec: the engine's [JSValue] is declared in the
    engine's header, which is not part of [qjs.c]; all [qjs.c] asks of a
    value is whether it is the exception marker ([JS_IsException]). *)
Inductive JSValue :=
| JS_EXCEPTION
| JS_VALUE (v : Z).

Definition JS_IsException (val : JSValue) : bool :=
  match val with
  | JS_EXCEPTION => true
  | JS_VALUE _ => false
  end.

(** Everything [qjs.c] does to the outside, in the order it does it: the
    text it prints and each call into the C library or the engine, with the
    arguments passed and, where the program uses it, the value returned. *)
Inductive event :=
| E_stdout (text : string)
| E_stderr (text : string)
| E_perror (s : string)
| E_clock
| E_print_instantiation_times
| E_js_trace_malloc_init
| E_JS_NewRuntime2 (rt : Z)
| E_JS_NewRuntime (rt : Z)
| E_JS_SetMemoryLimit (rt limit : Z)
| E_JS_SetMaxStackSize (rt size : Z)
| E_JS_SetStripInfo (rt flags : Z)
| E_js_std_set_worker_new_context_func
| E_js_std_init_handlers (rt : Z)
| E_JS_NewContext (rt ctx : Z)
| E_js_init_module_std (ctx : Z) (name : string)
| E_js_init_module_os (ctx : Z) (name : string)
| E_JS_SetModuleLoaderFunc2 (rt : Z)
| E_JS_SetHostPromiseRejectionTracker (rt : Z) (tracker : bool)
| E_js_std_add_helpers (ctx : Z) (argc : Z) (argv : list string)
| E_JS_Eval (ctx : Z) (buf filename : string) (eval_flags : Z) (ret : JSValue)
| E_js_module_set_import_meta (ctx : Z) (val : JSValue)
    (use_realpath is_main : bool)
| E_JS_EvalFunction (ctx : Z) (val ret : JSValue)
| E_js_std_await (ctx : Z) (val ret : JSValue)
| E_js_std_dump_error (ctx : Z)
| E_JS_FreeValue (ctx : Z) (val : JSValue)
| E_js_load_file (ctx : Z) (filename : string) (ret : option string)
| E_JS_DetectModule (buf : string) (ret : bool)
| E_js_free (ctx : Z) (buf : string)
| E_js_std_eval_binary_repl (ctx : Z)
| E_js_std_loop (ctx : Z)
| E_JS_ComputeMemoryUsage (rt : Z)
| E_JS_DumpMemoryUsage (rt : Z)
| E_js_std_free_handlers (rt : Z)
| E_JS_FreeContext (ctx : Z)
| E_JS_FreeRuntime (rt : Z).

(** How a computation ends: it returns, the process exits through
    [exit (code)], the C standard leaves the behaviour undefined, or the
    loop bound of the embedding ran out. *)
Inductive result (A : Type) : Type :=
| Ret (a : A)
| Exit (code : Z)
| Undefined
| OutOfFuel.

Arguments Ret {A} a.
Arguments Exit {A} code.
Arguments Undefined {A}.
Arguments OutOfFuel {A}.

(** A computation reads the events so far and extends them. *)
Definition M (A : Type) : Type := list event -> result A * list event.

Definition ret {A} (a : A) : M A := fun t => (Ret a, t).

Definition bind {A B} (m : M A) (k : A -> M B) : M B :=
  fun t =>
    match m t with
    | (Ret a, t') => k a t'
    | (Exit c, t') => (Exit c, t')
    | (Undefined, t') => (Undefined, t')
    | (OutOfFuel, t') => (OutOfFuel, t')
    end.

Definition emit (e : event) : M unit := fun t => (Ret tt, (t ++ [e])%list).

Definition exit {A} (code : Z) : M A := fun t => (Exit code, t).

Definition undefined {A} : M A := fun t => (Undefined, t).

Definition out_of_fuel {A} : M A := fun t => (OutOfFuel, t).

Notation "'let*' x ':=' m 'in' k" := (bind m (fun x => k))
  (at level 10, x pattern, m at level 100, k at level 200).
Notation "m >> k" := (bind m (fun _ => k))
  (at level 90, right associativity).

(** ** The size parser *)

Module Size.

(** *** The C library's [strtod], in the C locale *)

Definition code (c : ascii) : Z := Z.of_N (N_of_ascii c).

Definition isspace (c : ascii) : bool :=
  (code c =? 32) || ((9 <=? code c) && (code c <=? 13)).

Definition isdigit (c : ascii) : bool :=
  (48 <=? code c) && (code c <=? 57).

Definition digit_val (c : ascii) : Z := code c - 48.

(** Value of a hexadecimal digit, if it is one. *)
Definition xdigit_val (c : ascii) : option Z :=
  let n := code c in
  if (48 <=? n) && (n <=? 57) then Some (n - 48)
  else if (97 <=? n) && (n <=? 102) then Some (n - 87)
  else if (65 <=? n) && (n <=? 70) then Some (n - 55)
  else None.

Definition tolower (c : ascii) : ascii :=
  if (65 <=? code c) && (code c <=? 90)
  then ascii_of_N (Z.to_N (code c + 32)) else c.

Fixpoint skip_space (s : string) : string :=
  match s with
  | String c s' => if isspace c then skip_space s' else s
  | "" => ""
  end.

(** The longest run of decimal digits at the head of [s]: the number read
    (continuing from [acc]), how many digits there were (continuing from
    [cnt]), and what follows. *)
Fixpoint scan_digits (acc : Z) (cnt : Z) (s : string) : Z * Z * string :=
  match s with
  | String c s' =>
      if isdigit c then scan_digits (acc * 10 + digit_val c) (cnt + 1) s'
      else (acc, cnt, s)
  | "" => (acc, cnt, s)
  end.

Fixpoint scan_xdigits (acc : Z) (cnt : Z) (s : string) : Z * Z * string :=
  match s with
  | String c s' =>
      match xdigit_val c with
      | Some d => scan_xdigits (acc * 16 + d) (cnt + 1) s'
      | None => (acc, cnt, s)
      end
  | "" => (acc, cnt, s)
  end.

(** An optional sign: whether it is a minus, and what follows. *)
Definition scan_sign (s : string) : bool * string :=
  match s with
  | String c s' =>
      if (c =? "+")%char then (false, s')
      else if (c =? "-")%char then (true, s')
      else (false, s)
  | "" => (false, s)
  end.

(** An exponent part after its marker letter: an optional sign and at least
    one digit. [None] when there is no digit, in which case the marker is
    not part of the number either. *)
Definition scan_exponent_tail (s : string) : option (Z * string) :=
  let '(neg, s1) := scan_sign s in
  let '(e, cnt, s2) := scan_digits 0 0 s1 in
  if cnt =? 0 then None
  else Some (if neg : bool then - e else e, s2).

(** The optional exponent part introduced by [lower] or [upper]. *)
Definition scan_exponent (lower upper : ascii) (s : string) : Z * string :=
  match s with
  | String c s' =>
      if (c =? lower)%char || (c =? upper)%char then
        match scan_exponent_tail s' with
        | Some (e, rest) => (e, rest)
        | None => (0, s)
        end
      else (0, s)
  | "" => (0, s)
  end.

(** A number before rounding: the rational [num / den], both non-negative
    with [den] positive, or one of the special values. *)
Inductive parsed :=
| PRat (num den : Z)
| PInf
| PNan.

(** [mant * radix ^ ex] as a fraction. *)
Definition scale (mant radix ex : Z) : parsed :=
  if 0 <=? ex then PRat (mant * radix ^ ex) 1
  else PRat mant (radix ^ (- ex)).

(** Decimal form: digits with an optional point, at least one digit in
    all, then an optional exponent. *)
Definition scan_decimal (s : string) : option (parsed * string) :=
  let '(ip, ni, s1) := scan_digits 0 0 s in
  let '(mant, nf, s2) :=
    match s1 with
    | String c s1' =>
        if (c =? ".")%char then scan_digits ip 0 s1' else (ip, 0, s1)
    | "" => (ip, 0, s1)
    end in
  if ni + nf =? 0 then None
  else
    let '(e, s3) := scan_exponent "e" "E" s2 in
    Some (scale mant 10 (e - nf), s3).

(** Hexadecimal form after the [0x] prefix. *)
Definition scan_hex (s : string) : option (parsed * string) :=
  let '(ip, ni, s1) := scan_xdigits 0 0 s in
  let '(mant, nf, s2) :=
    match s1 with
    | String c s1' =>
        if (c =? ".")%char then scan_xdigits ip 0 s1' else (ip, 0, s1)
    | "" => (ip, 0, s1)
    end in
  if ni + nf =? 0 then None
  else
    let '(e, s3) := scan_exponent "p" "P" s2 in
    Some (scale mant 2 (e - 4 * nf), s3).

(** [prefix_ci p s]: [s] begins with [p], letter case ignored ([p] is in
    lower case); the result is what follows. *)
Fixpoint prefix_ci (p s : string) : option string :=
  match p, s with
  | "", _ => Some s
  | String a p', String c s' =>
      if (tolower c =? a)%char then prefix_ci p' s' else None
  | String _ _, "" => None
  end.

Definition is_nchar (c : ascii) : bool :=
  isdigit c || (code c =? 95) ||
  ((97 <=? code (tolower c)) && (code (tolower c) <=? 122)).

(** The optional [(n-char-sequence)] after [nan]. *)
Fixpoint skip_nchars (s : string) : option string :=
  match s with
  | String c s' =>
      if (c =? ")")%char then Some s'
      else if is_nchar c then skip_nchars s' else None
  | "" => None
  end.

Definition scan_special (s : string) : option (parsed * string) :=
  match prefix_ci "infinity" s with
  | Some rest => Some (PInf, rest)
  | None =>
      match prefix_ci "inf" s with
      | Some rest => Some (PInf, rest)
      | None =>
          match prefix_ci "nan" s with
          | Some rest =>
              match rest with
              | String c rest' =>
                  if (c =? "(")%char then
                    match skip_nchars rest' with
                    | Some rest'' => Some (PNan, rest'')
                    | None => Some (PNan, rest)
                    end
                  else Some (PNan, rest)
              | "" => Some (PNan, rest)
              end
          | None => None
          end
      end
  end.

(** The subject sequence after white space and sign. *)
Definition scan_number (s : string) : option (parsed * string) :=
  match scan_special s with
  | Some r => Some r
  | None =>
      let hex :=
        match s with
        | String c (String x s') =>
            if (c =? "0")%char && ((x =? "x")%char || (x =? "X")%char)
            then scan_hex s' else None
        | _ => None
        end in
      match hex with
      | Some r => Some r
      | None => scan_decimal s
      end
  end.

(** A [double]: [DNum neg m e] is [(-1)^neg * m * 2^e] with [m < 2^53]. *)
Inductive double :=
| DNum (neg : bool) (m e : Z)
| DInf (neg : bool)
| DNan.

(** Rounding of the positive rational [num / den] to the nearest binary64
    value, ties to even; too large a value gives infinity. *)
Definition round_double (neg : bool) (num den : Z) : double :=
  if num =? 0 then DNum neg 0 0
  else
    let k := Z.log2 num - Z.log2 den in
    let below :=
      if 0 <=? k then num <? den * 2 ^ k else num * 2 ^ (- k) <? den in
    let e0 := if below then k - 1 else k in
    let e := Z.max (e0 - 52) (-1074) in
    let n' := if 0 <=? e then num else num * 2 ^ (- e) in
    let d' := if 0 <=? e then den * 2 ^ e else den in
    let q := n' / d' in
    let r := n' mod d' in
    let q' :=
      if (d' <? 2 * r) || ((d' =? 2 * r) && Z.odd q) then q + 1 else q in
    let '(m, e') := if q' =? 2 ^ 53 then (2 ^ 52, e + 1) else (q', e) in
    if 971 <? e' then DInf neg else DNum neg m e'.

Definition to_double (neg : bool) (p : parsed) : double :=
  match p with
  | PRat num den => round_double neg num den
  | PInf => DInf neg
  | PNan => DNan
  end.

(** [strtod (str, &p)]: the value and the rest [p]. With no number at the
    head of [str] the value is zero and [p] is [str] itself. *)
Definition strtod (str : string) : double * string :=
  let '(neg, s1) := scan_sign (skip_space str) in
  match scan_number s1 with
  | Some (p, rest) => (to_double neg p, rest)
  | None => (DNum false 0 0, str)
  end.

(** The conversion [(size_t) d]: the fraction is discarded; when the
    integral part is not a [size_t] the C standard leaves the behaviour
    undefined, which is [None]. *)
Definition double_to_size_t (d : double) : option Z :=
  match d with
  | DNum neg m e =>
      let t := if 0 <=? e then m * 2 ^ e else m / 2 ^ (- e) in
      if neg then (if t =? 0 then Some 0 else None)
      else if t <=? SIZE_MAX then Some t else None
  | DInf _ => None
  | DNan => None
  end.

(** [get_suffixed_size]. *)
Definition get_suffixed_size (str : string) : M Z :=
  let '(d, p) := strtod str in
  match double_to_size_t d with
  | None => undefined
  | Some v =>
      match p with
      | String c _ =>
          if (c =? "G")%char then ret (wrap (Z.shiftl v 30))
          else if (c =? "M")%char then ret (wrap (Z.shiftl v 20))
          else if (c =? "k")%char || (c =? "K")%char
          then ret (wrap (Z.shiftl v 10))
          else
            emit (E_stderr ("qjs: invalid suffix: " +:+ p +:+ LF)) >>
            exit 1
      | "" => ret v
      end
  end.

End Size.

(** ** The engine, as far as [qjs.c] depends on it *)

(** What the engine and the C library answer where the program branches on
    the answer. Each answer may depend on everything that happened before
    (the events so far) and on the arguments of the call. Calls into the
    engine are taken to return. *)
Record Engine := {
  eng_JS_NewRuntime : list event -> Z;
  eng_JS_NewRuntime2 : list event -> Z;
  eng_JS_NewContext : list event -> Z -> Z;
  eng_JS_Eval : list event -> Z -> string -> string -> Z -> JSValue;
  eng_JS_EvalFunction : list event -> Z -> JSValue -> JSValue;
  eng_js_std_await : list event -> Z -> JSValue -> JSValue;
  eng_js_load_file : list event -> Z -> string -> option string;
  eng_JS_DetectModule : list event -> string -> bool
}.

(** A call whose answer the program uses: the answer is taken from the
    engine and the call recorded with it. *)
Definition ask {A} (answer : list event -> A) (e : A -> event) : M A :=
  fun t => let a := answer t in (Ret a, (t ++ [e a])%list).

(** Modelled from the spec: the constants of the engine's header, which is
    not part of [qjs.c]; the spec names the modes (module, script), the
    compile-only step and the two strip flags, and the values are the
    header's. *)
Definition JS_EVAL_TYPE_GLOBAL : Z := 0.
Definition JS_EVAL_TYPE_MODULE : Z := 1.
Definition JS_EVAL_TYPE_MASK : Z := 3.
Definition JS_EVAL_FLAG_COMPILE_ONLY : Z := 32.
Definition JS_STRIP_SOURCE : Z := 1.
Definition JS_STRIP_DEBUG : Z := 2.

(** Modelled from the spec: [has_suffix] is a helper of the engine's
    utility library, which is not part of [qjs.c]; the spec says "the
    filename ends in [.mjs]". *)
Definition has_suffix (str suffix : string) : bool :=
  let len := String.length str in
  let slen := String.length suffix in
  (slen <=? len)%nat &&
  String.eqb (String.substring (len - slen) slen str) suffix.

(** ** The eval pipeline *)

Module Eval.

Section WithEngine.

Variable eng : Engine.

(** [eval_buf]; [buf_len] is the length of [buf]. *)
Definition eval_buf (ctx : Z) (buf filename : string) (eval_flags : Z) : M Z :=
  let* val :=
    if Z.land eval_flags JS_EVAL_TYPE_MASK =? JS_EVAL_TYPE_MODULE then
      let flags := Z.lor eval_flags JS_EVAL_FLAG_COMPILE_ONLY in
      let* val :=
        ask (fun t => eng_JS_Eval eng t ctx buf filename flags)
            (E_JS_Eval ctx buf filename flags) in
      let* val :=
        if negb (JS_IsException val) then
          emit (E_js_module_set_import_meta ctx val true true) >>
          ask (fun t => eng_JS_EvalFunction eng t ctx val)
              (E_JS_EvalFunction ctx val)
        else ret val in
      ask (fun t => eng_js_std_await eng t ctx val) (E_js_std_await ctx val)
    else
      ask (fun t => eng_JS_Eval eng t ctx buf filename eval_flags)
          (E_JS_Eval ctx buf filename eval_flags) in
  let* r :=
    if JS_IsException val then emit (E_js_std_dump_error ctx) >> ret (-1)
    else ret 0 in
  emit (E_JS_FreeValue ctx val) >>
  ret r.

(** [eval_file]. *)
Definition eval_file (ctx : Z) (filename : string) (module : Z) : M Z :=
  let* buf :=
    ask (fun t => eng_js_load_file eng t ctx filename)
        (E_js_load_file ctx filename) in
  match buf with
  | None => emit (E_perror filename) >> exit 1
  | Some buf =>
      let* module :=
        if module <? 0 then
          if has_suffix filename ".mjs" then ret 1
          else
            let* d := ask (fun t => eng_JS_DetectModule eng t buf)
                          (E_JS_DetectModule buf) in
            ret (if d : bool then 1 else 0)
        else ret module in
      let eval_flags :=
        if module =? 0 then JS_EVAL_TYPE_GLOBAL else JS_EVAL_TYPE_MODULE in
      let* r := eval_buf ctx buf filename eval_flags in
      emit (E_js_free ctx buf) >>
      ret r
  end.

(** [JS_NewCustomContext]. *)
Definition JS_NewCustomContext (rt : Z) : M Z :=
  let* ctx := ask (fun t => eng_JS_NewContext eng t rt) (E_JS_NewContext rt) in
  if ctx =? NULL then ret NULL
  else
    emit (E_js_init_module_std ctx "std") >>
    emit (E_js_init_module_os ctx "os") >>
    ret ctx.

End WithEngine.

End Eval.

(** ** The option scanner and the driver: [main] *)

Module Driver.

(** The local variables of [main] that the option scanner sets.
    [include_list] with [include_count] is a list ([include_count] is its
    length); [expr] is [None] for the NULL pointer. The counters that [-i],
    [-d], [-T] and [-q] increment are bounded by the length of the command
    line and are not wrapped. *)
Record locals := {
  optind : nat;
  expr : option string;
  interactive : Z;
  dump_memory : Z;
  trace_memory : Z;
  empty_run : Z;
  module : Z;
  load_std : Z;
  dump_unhandled_promise_rejection : Z;
  memory_limit : Z;
  include_list : list string;
  strip_flags : Z;
  stack_size : Z
}.

(** The initialisers of [main]'s declarations, with [optind = 1]. *)
Definition init_locals : locals :=
  {| optind := 1; expr := None; interactive := 0; dump_memory := 0;
     trace_memory := 0; empty_run := 0; module := -1; load_std := 0;
     dump_unhandled_promise_rejection := 1; memory_limit := 0;
     include_list := []; strip_flags := 0; stack_size := 0 |}.

Definition set_optind (st : locals) (v : nat) : locals :=
  {| optind := v; expr := expr st; interactive := interactive st;
     dump_memory := dump_memory st; trace_memory := trace_memory st;
     empty_run := empty_run st; module := module st; load_std := load_std st;
     dump_unhandled_promise_rejection := dump_unhandled_promise_rejection st;
     memory_limit := memory_limit st; include_list := include_list st;
     strip_flags := strip_flags st; stack_size := stack_size st |}.

Definition set_expr (st : locals) (v : option string) : locals :=
  {| optind := optind st; expr := v; interactive := interactive st;
     dump_memory := dump_memory st; trace_memory := trace_memory st;
     empty_run := empty_run st; module := module st; load_std := load_std st;
     dump_unhandled_promise_rejection := dump_unhandled_promise_rejection st;
     memory_limit := memory_limit st; include_list := include_list st;
     strip_flags := strip_flags st; stack_size := stack_size st |}.

Definition set_interactive (st : locals) (v : Z) : locals :=
  {| optind := optind st; expr := expr st; interactive := v;
     dump_memory := dump_memory st; trace_memory := trace_memory st;
     empty_run := empty_run st; module := module st; load_std := load_std st;
     dump_unhandled_promise_rejection := dump_unhandled_promise_rejection st;
     memory_limit := memory_limit st; include_list := include_list st;
     strip_flags := strip_flags st; stack_size := stack_size st |}.

Definition set_dump_memory (st : locals) (v : Z) : locals :=
  {| optind := optind st; expr := expr st; interactive := interactive st;
     dump_memory := v; trace_memory := trace_memory st;
     empty_run := empty_run st; module := module st; load_std := load_std st;
     dump_unhandled_promise_rejection := dump_unhandled_promise_rejection st;
     memory_limit := memory_limit st; include_list := include_list st;
     strip_flags := strip_flags st; stack_size := stack_size st |}.

Definition set_trace_memory (st : locals) (v : Z) : locals :=
  {| optind := optind st; expr := expr st; interactive := interactive st;
     dump_memory := dump_memory st; trace_memory := v;
     empty_run := empty_run st; module := module st; load_std := load_std st;
     dump_unhandled_promise_rejection := dump_unhandled_promise_rejection st;
     memory_limit := memory_limit st; include_list := include_list st;
     strip_flags := strip_flags st; stack_size := stack_size st |}.

Definition set_empty_run (st : locals) (v : Z) : locals :=
  {| optind := optind st; expr := expr st; interactive := interactive st;
     dump_memory := dump_memory st; trace_memory := trace_memory st;
     empty_run := v; module := module st; load_std := load_std st;
     dump_unhandled_promise_rejection := dump_unhandled_promise_rejection st;
     memory_limit := memory_limit st; include_list := include_list st;
     strip_flags := strip_flags st; stack_size := stack_size st |}.

Definition set_module (st : locals) (v : Z) : locals :=
  {| optind := optind st; expr := expr st; interactive := interactive st;
     dump_memory := dump_memory st; trace_memory := trace_memory st;
     empty_run := empty_run st; module := v; load_std := load_std st;
     dump_unhandled_promise_rejection := dump_unhandled_promise_rejection st;
     memory_limit := memory_limit st; include_list := include_list st;
     strip_flags := strip_flags st; stack_size := stack_size st |}.

Definition set_load_std (st : locals) (v : Z) : locals :=
  {| optind := optind st; expr := expr st; interactive := interactive st;
     dump_memory := dump_memory st; trace_memory := trace_memory st;
     empty_run := empty_run st; module := module st; load_std := v;
     dump_unhandled_promise_rejection := dump_unhandled_promise_rejection st;
     memory_limit := memory_limit st; include_list := include_list st;
     strip_flags := strip_flags st; stack_size := stack_size st |}.

Definition set_dump_unhandled_promise_rejection (st : locals) (v : Z)
  : locals :=
  {| optind := optind st; expr := expr st; interactive := interactive st;
     dump_memory := dump_memory st; trace_memory := trace_memory st;
     empty_run := empty_run st; module := module st; load_std := load_std st;
     dump_unhandled_promise_rejection := v;
     memory_limit := memory_limit st; include_list := include_list st;
     strip_flags := strip_flags st; stack_size := stack_size st |}.

Definition set_memory_limit (st : locals) (v : Z) : locals :=
  {| optind := optind st; expr := expr st; interactive := interactive st;
     dump_memory := dump_memory st; trace_memory := trace_memory st;
     empty_run := empty_run st; module := module st; load_std := load_std st;
     dump_unhandled_promise_rejection := dump_unhandled_promise_rejection st;
     memory_limit := v; include_list := include_list st;
     strip_flags := strip_flags st; stack_size := stack_size st |}.

Definition set_include_list (st : locals) (v : list string) : locals :=
  {| optind := optind st; expr := expr st; interactive := interactive st;
     dump_memory := dump_memory st; trace_memory := trace_memory st;
     empty_run := empty_run st; module := module st; load_std := load_std st;
     dump_unhandled_promise_rejection := dump_unhandled_promise_rejection st;
     memory_limit := memory_limit st; include_list := v;
     strip_flags := strip_flags st; stack_size := stack_size st |}.

Definition set_strip_flags (st : locals) (v : Z) : locals :=
  {| optind := optind st; expr := expr st; interactive := interactive st;
     dump_memory := dump_memory st; trace_memory := trace_memory st;
     empty_run := empty_run st; module := module st; load_std := load_std st;
     dump_unhandled_promise_rejection := dump_unhandled_promise_rejection st;
     memory_limit := memory_limit st; include_list := include_list st;
     strip_flags := v; stack_size := stack_size st |}.

Definition set_stack_size (st : locals) (v : Z) : locals :=
  {| optind := optind st; expr := expr st; interactive := interactive st;
     dump_memory := dump_memory st; trace_memory := trace_memory st;
     empty_run := empty_run st; module := module st; load_std := load_std st;
     dump_unhandled_promise_rejection := dump_unhandled_promise_rejection st;
     memory_limit := memory_limit st; include_list := include_list st;
     strip_flags := strip_flags st; stack_size := v |}.

(** [countof (include_list)]. *)
Definition include_capacity : nat := 32.

(** How one pass through the body of the [for] loop over a token ends. *)
Inductive ctl :=
| Continue
| Break.

Section WithEngine.

Variable eng : Engine.

(** The build's version string. *)
Variable CONFIG_VERSION : string.

Definition usage : string :=
  "QuickJS version " +:+ CONFIG_VERSION +:+ LF +:+
  "usage: qjs [options] [file [args]]" +:+ LF +:+
  "-h  --help         list options" +:+ LF +:+
  "-e  --eval EXPR    evaluate EXPR" +:+ LF +:+
  "-i  --interactive  go to interactive mode" +:+ LF +:+
  "-m  --module       load as ES6 module (default=autodetect)" +:+ LF +:+
  "    --script       load as ES6 script (default=autodetect)" +:+ LF +:+
  "-I  --include file include an additional file" +:+ LF +:+
  "    --std          make 'std' and 'os' available to the loaded script"
    +:+ LF +:+
  "-T  --trace        trace memory allocation" +:+ LF +:+
  "-d  --dump         dump the memory usage stats" +:+ LF +:+
  "    --memory-limit n  limit the memory usage to 'n' bytes (SI suffixes allowed)"
    +:+ LF +:+
  "    --stack-size n    limit the stack size to 'n' bytes (SI suffixes allowed)"
    +:+ LF +:+
  "    --no-unhandled-rejection  ignore unhandled promise rejections"
    +:+ LF +:+
  "-s                    strip all the debug info" +:+ LF +:+
  "    --strip-source    strip the source code" +:+ LF +:+
  "-q  --quit         just instantiate the interpreter and quit" +:+ LF.

(** [help]: it prints the usage and never returns. *)
Definition help {A} : M A :=
  emit (E_stdout usage) >> exit 1.

(** [argv[i]], for [i < argc]. *)
Definition arg_at (argv : list string) (i : nat) : string :=
  nth i argv "".

Definition NUL : ascii := ascii_of_N 0.

(** The body of the [for] loop over the options of one token: [opt] is the
    option letter ([NUL] for a long option), [arg] what follows the letter
    in the token, [longopt] the long name ([""] for a short option). *)
Definition option_body (argv : list string) (opt : ascii)
    (longopt arg : string) (st : locals) : M (ctl * locals) :=
  let argc := length argv in
  if (opt =? "h")%char || (opt =? "?")%char || (longopt =? "help")%string
  then help
  else if (opt =? "e")%char || (longopt =? "eval")%string then
    if negb (arg =? "")%string then ret (Break, set_expr st (Some arg))
    else if (optind st <? argc)%nat then
      ret (Break,
           set_expr (set_optind st (S (optind st)))
                    (Some (arg_at argv (optind st))))
    else
      emit (E_stderr ("qjs: missing expression for -e" +:+ LF)) >>
      exit 2
  else if (opt =? "I")%char || (longopt =? "include")%string then
    if (argc <=? optind st)%nat then
      emit (E_stderr "expecting filename") >> exit 1
    else if (include_capacity <=? length (include_list st))%nat then
      emit (E_stderr "too many included files") >> exit 1
    else
      ret (Continue,
           set_include_list (set_optind st (S (optind st)))
             (include_list st ++ [arg_at argv (optind st)])%list)
  else if (opt =? "i")%char || (longopt =? "interactive")%string then
    ret (Continue, set_interactive st (interactive st + 1))
  else if (opt =? "m")%char || (longopt =? "module")%string then
    ret (Continue, set_module st 1)
  else if (longopt =? "script")%string then
    ret (Continue, set_module st 0)
  else if (opt =? "d")%char || (longopt =? "dump")%string then
    ret (Continue, set_dump_memory st (dump_memory st + 1))
  else if (opt =? "T")%char || (longopt =? "trace")%string then
    ret (Continue, set_trace_memory st (trace_memory st + 1))
  else if (longopt =? "std")%string then
    ret (Continue, set_load_std st 1)
  else if (longopt =? "no-unhandled-rejection")%string then
    ret (Continue, set_dump_unhandled_promise_rejection st 0)
  else if (opt =? "q")%char || (longopt =? "quit")%string then
    ret (Continue, set_empty_run st (empty_run st + 1))
  else if (longopt =? "memory-limit")%string then
    if (argc <=? optind st)%nat then
      emit (E_stderr "expecting memory limit") >> exit 1
    else
      let* v := Size.get_suffixed_size (arg_at argv (optind st)) in
      ret (Continue, set_memory_limit (set_optind st (S (optind st))) v)
  else if (longopt =? "stack-size")%string then
    if (argc <=? optind st)%nat then
      emit (E_stderr "expecting stack size") >> exit 1
    else
      let* v := Size.get_suffixed_size (arg_at argv (optind st)) in
      ret (Continue, set_stack_size (set_optind st (S (optind st))) v)
  else if (opt =? "s")%char then
    ret (Continue, set_strip_flags st JS_STRIP_DEBUG)
  else if (longopt =? "strip-source")%string then
    ret (Continue, set_strip_flags st JS_STRIP_SOURCE)
  else
    (if negb (opt =? NUL)%char then
       emit (E_stderr ("qjs: unknown option '-" +:+ String opt "'" +:+ LF))
     else
       emit (E_stderr ("qjs: unknown option '--" +:+ longopt +:+ "'" +:+ LF)))
    >> help.

(** The loop [for (; *arg || *longopt; longopt = "")]. A pass with a letter
    takes it off [arg]; the pass for a long option has [arg] empty already,
    and after it both are empty. *)
Fixpoint option_loop (argv : list string) (arg longopt : string)
    (st : locals) : M locals :=
  match arg with
  | String opt arg' =>
      let* r := option_body argv opt longopt arg' st in
      match r with
      | (Break, st') => ret st'
      | (Continue, st') => option_loop argv arg' "" st'
      end
  | "" =>
      if (longopt =? "")%string then ret st
      else
        let* r := option_body argv NUL longopt "" st in
        ret (snd r)
  end.

(** The loop [while (optind < argc && *argv[optind] == '-')]. Every pass
    that does not leave the loop moves [optind] forward, so [fuel] passes
    are enough when [fuel] exceeds [argc]. *)
Fixpoint scan_options (fuel : nat) (argv : list string) (st : locals)
  : M locals :=
  match fuel with
  | O => out_of_fuel
  | S fuel' =>
      if (optind st <? length argv)%nat then
        match arg_at argv (optind st) with
        | String c arg =>
            if negb (c =? "-")%char then ret st
            else
              match arg with
              | "" => ret st
              | String c1 longopt =>
                  let st1 := set_optind st (S (optind st)) in
                  if (c1 =? "-")%char then
                    if (longopt =? "")%string then ret st1
                    else
                      let* st2 := option_loop argv "" longopt st1 in
                      scan_options fuel' argv st2
                  else
                    let* st2 := option_loop argv arg "" st1 in
                    scan_options fuel' argv st2
              end
        | "" => ret st
        end
      else ret st
  end.

(** The include loop of [main]: [true] is the jump to [fail]. *)
Fixpoint eval_includes (ctx : Z) (files : list string) (module : Z) : M bool :=
  match files with
  | [] => ret false
  | f :: files' =>
      let* r := Eval.eval_file eng ctx f module in
      if negb (r =? 0) then ret true
      else eval_includes ctx files' module
  end.

(** The block [if (!empty_run) { ... }] of [main]: [true] is the jump to
    [fail]. *)
Definition run_user_code (argv : list string) (st : locals) (rt ctx : Z)
  : M bool :=
  let argc := length argv in
  emit (E_js_std_add_helpers ctx (Z.of_nat argc - Z.of_nat (optind st))
          (drop (optind st) argv)) >>
  (if negb (load_std st =? 0) then
     let str :=
       "import * as std from 'std';" +:+ LF +:+
       "import * as os from 'os';" +:+ LF +:+
       "globalThis.std = std;" +:+ LF +:+
       "globalThis.os = os;" +:+ LF in
     let* _ := Eval.eval_buf eng ctx str "<input>" JS_EVAL_TYPE_MODULE in
     ret tt
   else ret tt) >>
  let* failed := eval_includes ctx (include_list st) (module st) in
  if failed : bool then ret true
  else
    let* r :=
      match expr st with
      | Some e =>
          let* r := Eval.eval_buf eng ctx e "<cmdline>" 0 in
          ret (negb (r =? 0), interactive st)
      | None =>
          if (argc <=? optind st)%nat then ret (false, 1)
          else
            let filename := arg_at argv (optind st) in
            let* r := Eval.eval_file eng ctx filename (module st) in
            ret (negb (r =? 0), interactive st)
      end in
    let '(failed, interactive) := r in
    if failed : bool then ret true
    else
      (if negb (interactive =? 0) then
         emit (E_JS_SetHostPromiseRejectionTracker rt false) >>
         emit (E_js_std_eval_binary_repl ctx)
       else ret tt) >>
      emit (E_js_std_loop ctx) >>
      ret false.

(** The instantiation benchmark: [n] passes of the loop. The times are
    floating-point and are not computed here. *)
Fixpoint benchmark (n : nat) : M unit :=
  match n with
  | O => ret tt
  | S n' =>
      emit E_clock >>
      let* rt := ask (eng_JS_NewRuntime eng) E_JS_NewRuntime in
      emit E_clock >>
      let* ctx := ask (fun t => eng_JS_NewContext eng t rt)
                      (E_JS_NewContext rt) in
      emit E_clock >>
      emit (E_JS_FreeContext ctx) >>
      emit E_clock >>
      emit (E_JS_FreeRuntime rt) >>
      emit E_clock >>
      benchmark n'
  end.

Definition when (b : bool) (m : M unit) : M unit :=
  if b then m else ret tt.

(** [main] from the end of the option loop on, with the local variables
    as the loop left them. The value returned is the exit status. *)
Definition main_after_options (argv : list string) (st : locals) : M Z :=
  let* rt :=
    if negb (trace_memory st =? 0) then
      emit E_js_trace_malloc_init >>
      ask (eng_JS_NewRuntime2 eng) E_JS_NewRuntime2
    else ask (eng_JS_NewRuntime eng) E_JS_NewRuntime in
  if rt =? NULL then
    emit (E_stderr ("qjs: cannot allocate JS runtime" +:+ LF)) >> exit 2
  else
    when (negb (memory_limit st =? 0))
      (emit (E_JS_SetMemoryLimit rt (memory_limit st))) >>
    when (negb (stack_size st =? 0))
      (emit (E_JS_SetMaxStackSize rt (stack_size st))) >>
    emit (E_JS_SetStripInfo rt (strip_flags st)) >>
    emit E_js_std_set_worker_new_context_func >>
    emit (E_js_std_init_handlers rt) >>
    let* ctx := Eval.JS_NewCustomContext eng rt in
    if ctx =? NULL then
      emit (E_stderr ("qjs: cannot allocate JS context" +:+ LF)) >> exit 2
    else
      emit (E_JS_SetModuleLoaderFunc2 rt) >>
      when (negb (dump_unhandled_promise_rejection st =? 0))
        (emit (E_JS_SetHostPromiseRejectionTracker rt true)) >>
      let* failed :=
        if empty_run st =? 0 then run_user_code argv st rt ctx
        else ret false in
      if failed : bool then
        emit (E_js_std_free_handlers rt) >>
        emit (E_JS_FreeContext ctx) >>
        emit (E_JS_FreeRuntime rt) >>
        ret 1
      else
        when (negb (dump_memory st =? 0))
          (emit (E_JS_ComputeMemoryUsage rt) >>
           emit (E_JS_DumpMemoryUsage rt)) >>
        emit (E_js_std_free_handlers rt) >>
        emit (E_JS_FreeContext ctx) >>
        emit (E_JS_FreeRuntime rt) >>
        when (negb (empty_run st =? 0) && negb (dump_memory st =? 0))
          (benchmark 100 >> emit E_print_instantiation_times) >>
        ret 0.

(** [main]: the option loop, then the rest. *)
Definition main (argv : list string) : M Z :=
  let argc := length argv in
  let* st := scan_options (S argc) argv init_locals in
  main_after_options argv st.

End WithEngine.

End Driver.

(** * Vocabulary of the properties *)

Import Alloc Size Eval Driver.

(** [ends_number s]: the text [s] after a run of decimal digits does not
    continue the number for [strtod]: it is empty, or its first character
    is not a digit, a point, an exponent marker or the [x] of a hexadecimal
    prefix. *)
Definition ends_number (s : string) : bool :=
  match s with
  | "" => true
  | String c _ =>
      negb (Size.isdigit c || (c =? ".")%char || (c =? "e")%char ||
            (c =? "E")%char || (c =? "x")%char || (c =? "X")%char)
  end.

(** [all_digits s]: every character of [s] is a decimal digit. *)
Fixpoint all_digits (s : string) : Prop :=
  match s with
  | "" => True
  | String c s' => Size.isdigit c = true /\ all_digits s'
  end.

(** [ensures m Q]: from any events so far, [m] only adds events, and its
    outcome and the events [d] it added satisfy [Q]. *)
Definition ensures {A} (m : M A) (Q : result A -> list event -> Prop) : Prop :=
  forall t, exists d, snd (m t) = (t ++ d)%list /\ Q (fst (m t)) d.

(** [emits P m]: every event [m] adds satisfies [P], and [m] does not stop
    for lack of fuel. *)
Definition emits {A} (P : event -> Prop) (m : M A) : Prop :=
  ensures m (fun r d => Forall P d /\ r <> OutOfFuel).

(** Text written to standard output or standard error. *)
Definition is_output (e : event) : Prop :=
  match e with
  | E_stdout _ | E_stderr _ => True
  | _ => False
  end.

(** Following the spec (the option table and parsing rules 4 and 5): the
    number of following tokens that the options packed in [letters] take as
    their arguments. [-e] takes the rest of the token when there is one and
    the next token otherwise, and ends the token; [-I] takes the next token;
    the letters [i m d T q s] take nothing. [None] when a letter is none of
    these. *)
Fixpoint spec_short_args (letters : string) : option nat :=
  match letters with
  | "" => Some 0%nat
  | String c rest =>
      if (c =? "e")%char then Some (if (rest =? "")%string then 1 else 0)%nat
      else if (c =? "I")%char then option_map S (spec_short_args rest)
      else if existsb (Ascii.eqb c) ["i"; "m"; "d"; "T"; "q"; "s"]%char
      then spec_short_args rest
      else None
  end.

(** The same for a long option, by its name. *)
Definition spec_long_args (name : string) : option nat :=
  if existsb (String.eqb name)
       ["eval"; "include"; "memory-limit"; "stack-size"]
  then Some 1%nat
  else if existsb (String.eqb name)
            ["interactive"; "module"; "script"; "dump"; "trace"; "std";
             "no-unhandled-rejection"; "quit"; "strip-source"]
  then Some 0%nat
  else None.

(** A token that the scanner passes over as recognised options, with the
    number of following tokens its options take: it begins with [-], is
    neither [-] nor [--], and names recognised options only. *)
Definition spec_token_args (tok : string) : option nat :=
  match tok with
  | String c1 rest =>
      if (c1 =? "-")%char then
        match rest with
        | String c2 name =>
            if (c2 =? "-")%char then
              if (name =? "")%string then None else spec_long_args name
            else spec_short_args rest
        | "" => None
        end
      else None
  | "" => None
  end.

(** [scanned argv i]: starting after the program name, the tokens before
    position [i] are recognised option tokens, each followed by the
    arguments of its options. *)
Inductive scanned (argv : list string) : nat -> Prop :=
| scanned_start : scanned argv 1
| scanned_option (i : nat) (tok : string) (k : nat) :
    scanned argv i ->
    argv !! i = Some tok ->
    spec_token_args tok = Some k ->
    (i + 1 + k <= length argv)%nat ->
    scanned argv (i + 1 + k).

Definition begins_with_dash (tok : string) : bool :=
  match tok with
  | String c _ => (c =? "-")%char
  | "" => false
  end.

(** Where the scan ends: at the end of the command line, at a bare [-] or
    at a token that does not begin with [-], which stay; or just after a
    [--], which is passed over. *)
Definition scan_stopped (argv : list string) (i : nat) : Prop :=
  (scanned argv i /\
   ((length argv <= i)%nat \/
    exists tok, argv !! i = Some tok /\
                (tok = "-" \/ begins_with_dash tok = false))) \/
  (exists j, i = S j /\ scanned argv j /\ argv !! j = Some "--").

(** [runs P m]: [m] always returns, and every event it adds satisfies
    [P]. *)
Definition runs {A} (P : event -> Prop) (m : M A) : Prop :=
  ensures m (fun r d => Forall P d /\ exists a, r = Ret a).

(** The two destructors the teardown is about. *)
Definition is_destructor (e : event) : Prop :=
  match e with
  | E_JS_FreeContext _ | E_JS_FreeRuntime _ => True
  | _ => False
  end.

(** A piece of user code the driver starts: a buffer or file evaluated
    under a file name, or the interactive shell. *)
Inductive source :=
| Src_eval (filename : string)
| Src_repl.

Definition source_of (e : event) : option source :=
  match e with
  | E_JS_Eval _ _ filename _ _ => Some (Src_eval filename)
  | E_js_std_eval_binary_repl _ => Some Src_repl
  | _ => None
  end.

(** The user code started, in the order it was started. *)
Definition sources (d : list event) : list source := omap source_of d.

(** What reaches the script is [argv[optind..]]. *)
Definition helpers_ok (argv : list string) (st : locals) (e : event) : Prop :=
  match e with
  | E_js_std_add_helpers _ n args =>
      args = drop (optind st) argv /\
      n = Z.of_nat (length argv) - Z.of_nat (optind st)
  | _ => True
  end.

(** An event that is none of the above: no destructor, no start of user
    code, no handing over of the script arguments. *)
Definition quiet (e : event) : Prop :=
  match e with
  | E_JS_FreeContext _ | E_JS_FreeRuntime _ | E_JS_Eval _ _ _ _ _
  | E_js_std_eval_binary_repl _ | E_js_std_add_helpers _ _ _ => False
  | _ => True
  end.

(** An event of the user-code block of [main]. *)
Definition user_event (argv : list string) (st : locals) (e : event) : Prop :=
  helpers_ok argv st e /\ ~ is_destructor e.

(** Following the spec (4.E, step 8): the inputs that are not interactive,
    in order: the synthetic module when [--std] was given, the include
    files as listed, then the expression or else the script file, if
    any. *)
Definition std_input (st : locals) : list source :=
  if negb (load_std st =? 0) then [Src_eval "<input>"] else [].

Definition main_input (argv : list string) (st : locals) : list source :=
  match expr st with
  | Some _ => [Src_eval "<cmdline>"]
  | None =>
      if (length argv <=? optind st)%nat then []
      else [Src_eval (arg_at argv (optind st))]
  end.

Definition non_interactive_inputs (argv : list string) (st : locals)
  : list source :=
  (std_input st ++ map Src_eval (include_list st) ++ main_input argv st)%list.

(** The interactive shell runs when [-i] was given, and when there is
    neither an expression nor a script file. *)
Definition repl_runs (argv : list string) (st : locals) : bool :=
  negb (interactive st =? 0) ||
  match expr st with
  | Some _ => false
  | None => (length argv <=? optind st)%nat
  end.

Definition planned (argv : list string) (st : locals) : list source :=
  (non_interactive_inputs argv st
   ++ (if repl_runs argv st then [Src_repl] else []))%list.

(** The events of [n] passes of the instantiation benchmark: each pass
    creates a runtime and a context in it, and destroys the context, then
    the runtime. *)
Inductive benchmark_passes : nat -> list event -> Prop :=
| benchmark_passes_O : benchmark_passes 0 []
| benchmark_passes_S n rt ctx d :
    benchmark_passes n d ->
    benchmark_passes (S n)
      ([E_clock; E_JS_NewRuntime rt; E_clock; E_JS_NewContext rt ctx;
        E_clock; E_JS_FreeContext ctx; E_clock; E_JS_FreeRuntime rt;
        E_clock] ++ d).

(** What the user-code block of [main] does, by its outcome: [false] is the
    normal end, [true] the jump to [fail], an exit the unreadable file. *)
Definition user_code_post (argv : list string) (st : locals)
    (r : result bool) (d : list event) : Prop :=
  Forall (user_event argv st) d /\
  match r with
  | Ret false => sources d = planned argv st
  | Ret true =>
      exists done f rest,
        non_interactive_inputs argv st = (done ++ f :: rest)%list /\
        sources d = (done ++ [f])%list /\
        (length (std_input st) <= length done)%nat
  | Exit c =>
      c = 1 /\
      exists done f rest,
        non_interactive_inputs argv st = (done ++ Src_eval f :: rest)%list /\
        sources d = done /\
        (length (std_input st) <= length done)%nat
  | _ => False
  end.

(** The teardown of [main], after the user-code block ended normally
    ([failed = false]) or by the jump to [fail]: the handlers, the context
    and the runtime are released, in this order, and the exit status is
    returned. After a normal end the memory usage may be dumped before, and
    with [-q] and [-d] together the instantiation benchmark runs after. *)
Definition teardown_post (st : locals) (rt ctx : Z) (failed : bool)
    (r : result Z) (d : list event) : Prop :=
  r = Ret (if failed then 1 else 0) /\
  exists pre post,
    d = (pre ++ [E_js_std_free_handlers rt; E_JS_FreeContext ctx;
                 E_JS_FreeRuntime rt] ++ post)%list /\
    Forall quiet pre /\
    (post = [] \/
     (failed = false /\ empty_run st <> 0 /\ dump_memory st <> 0 /\
      exists b, benchmark_passes 100 b /\
                post = (b ++ [E_print_instantiation_times])%list)).

(** What [main] does after the option loop, once the context [ctx] exists
    in the runtime [rt]: the events are those of the set-up that remains,
    of the user-code block and of the teardown. *)
Definition context_post (argv : list string) (st : locals) (rt ctx : Z)
    (r : result Z) (d : list event) : Prop :=
  exists setup ucode rest (ru : result bool),
    d = (setup ++ ucode ++ rest)%list /\
    Forall quiet setup /\
    (if empty_run st =? 0 then user_code_post argv st ru ucode
     else ru = Ret false /\ ucode = []) /\
    match ru with
    | Ret failed => teardown_post st rt ctx failed r rest
    | Exit c => r = Exit c /\ rest = []
    | _ => False
    end.

(** What [main] does after the option loop: it exits with status 2 when
    the runtime or the context cannot be created, and otherwise goes on as
    [context_post] says with the context it created. *)
Definition main_post (argv : list string) (st : locals)
    (r : result Z) (d : list event) : Prop :=
  (r = Exit 2 /\ Forall quiet d) \/
  (exists rt ctx d0 d1,
     d = (d0 ++ d1)%list /\ Forall quiet d0 /\
     In (E_JS_NewContext rt ctx) d0 /\
     context_post argv st rt ctx r d1).

(** An engine in which every call succeeds, to run the driver on concrete
    command lines: files hold the script [1], nothing raises. *)
Definition ok_engine : Engine :=
  {| eng_JS_NewRuntime := fun _ => 1;
     eng_JS_NewRuntime2 := fun _ => 1;
     eng_JS_NewContext := fun _ _ => 2;
     eng_JS_Eval := fun _ _ _ _ _ => JS_VALUE 0;
     eng_JS_EvalFunction := fun _ _ _ => JS_VALUE 0;
     eng_js_std_await := fun _ _ val => val;
     eng_js_load_file := fun _ _ _ => Some "1";
     eng_JS_DetectModule := fun _ _ => false |}.

(** The same engine on a file system where no file can be read. *)
Definition no_file_engine : Engine :=
  {| eng_JS_NewRuntime := fun _ => 1;
     eng_JS_NewRuntime2 := fun _ => 1;
     eng_JS_NewContext := fun _ _ => 2;
     eng_JS_Eval := fun _ _ _ _ _ => JS_VALUE 0;
     eng_JS_EvalFunction := fun _ _ _ => JS_VALUE 0;
     eng_js_std_await := fun _ _ val => val;
     eng_js_load_file := fun _ _ _ => None;
     eng_JS_DetectModule := fun _ _ => false |}.

(** An engine in which every evaluation raises; [js_std_await] hands a
    value that is not a promise back, as the engine's does. *)
Definition raising_engine : Engine :=
  {| eng_JS_NewRuntime := fun _ => 1;
     eng_JS_NewRuntime2 := fun _ => 1;
     eng_JS_NewContext := fun _ _ => 2;
     eng_JS_Eval := fun _ _ _ _ _ => JS_EXCEPTION;
     eng_JS_EvalFunction := fun _ _ _ => JS_EXCEPTION;
     eng_js_std_await := fun _ _ val => val;
     eng_js_load_file := fun _ _ _ => Some "1";
     eng_JS_DetectModule := fun _ _ => false |}.




(** ** Vocabulary of the further properties *)

(** The cost the allocator accounts for the live blocks: for each, its
    usable size plus the overhead. *)
Definition accounted (apple : bool) (h : gmap Z Z) : Z :=
  map_fold (fun _ u acc => acc + (u + MALLOC_OVERHEAD apple)) 0 h.

(** The accounting record agrees with the platform heap. *)
Definition conserved (apple : bool) (w : world) : Prop :=
  malloc_count (ms w) = wrap (Z.of_nat (size (heap w))) /\
  malloc_size (ms w) = wrap (accounted apple (heap w)) /\
  heap w !! NULL = None.

(** What the trace prints for a block at [p] with [u] usable bytes: the
    offset from the base pointer, signed and zero-padded, and the size. *)
Definition trace_block (base p u : Z) : string :=
  "H" +:+ fmt_plus06lld (wrap (p - base)) +:+ "." +:+ fmt_zd u.

(** What the trace prints for the platform's answer. *)
Definition trace_answer (base : Z) (a : answer) : string :=
  match a with
  | Some (p, u) => trace_block base p u
  | None => "NULL"
  end.

(** The text that [js_trace_malloc_printf] adds to the standard output
    for the format [fmt] and the arguments [ap], in the state [w]. *)
Fixpoint trace_text (w : world) (fmt : string) (ap : list va_arg) : string :=
  match fmt with
  | "" => ""
  | String c fmt1 =>
      let putc := String c (trace_text w fmt1 ap) in
      if (c =? "%")%char then
        match fmt1 with
        | String c1 fmt2 =>
            if (c1 =? "p")%char then
              match ap with
              | VPtr ptr :: ap' =>
                  (if ptr =? NULL then "NULL" else fmt_ptr w ptr)
                  +:+ trace_text w fmt2 ap'
              | _ => ""
              end
            else
              match fmt2 with
              | String c2 fmt3 =>
                  if (c1 =? "z")%char && (c2 =? "d")%char then
                    match ap with
                    | VSize sz :: ap' => fmt_zd sz +:+ trace_text w fmt3 ap'
                    | _ => ""
                    end
                  else putc
              | "" => putc
              end
        | "" => putc
        end
      else putc
  end.

(** A sequence of calls through the allocator's function table; [None]
    when an assertion stops one of them. *)
Fixpoint run (apple : bool) (w : world) (ops : list op) : option world :=
  match ops with
  | [] => Some w
  | o :: ops' =>
      match step apple w o with
      | Some (_, w') => run apple w' ops'
      | None => None
      end
  end.

(** The same execution with every address [d] further up: the blocks, the
    base pointer, the platform's answers and the pointers passed in. NULL
    stays NULL. *)
Definition move (d p : Z) : Z := if p =? NULL then NULL else p + d.

Definition move_answer (d : Z) (a : answer) : answer :=
  match a with
  | Some (p, u) => Some (p + d, u)
  | None => None
  end.

Definition move_op (d : Z) (o : op) : op :=
  match o with
  | Malloc size a => Malloc size (move_answer d a)
  | Free ptr => Free (move d ptr)
  | Realloc ptr size a => Realloc (move d ptr) size (move_answer d a)
  end.

Definition move_call (d : Z) (c : sys_call) : sys_call :=
  match c with
  | SysMalloc size => SysMalloc size
  | SysFree ptr => SysFree (move d ptr)
  | SysRealloc ptr size => SysRealloc (move d ptr) size
  end.

Definition move_world (d : Z) (w : world) : world :=
  {| ms := {| malloc_count := malloc_count (ms w);
              malloc_size := malloc_size (ms w);
              malloc_limit := malloc_limit (ms w);
              opaque := {| base := base (opaque (ms w)) + d |} |};
     heap := kmap (fun p => p + d) (heap w);
     out := out w;
     calls := move_call d <$> calls w |}.

(** No block is moved onto NULL, and the platform hands out no block at
    NULL. *)
Definition movable_ptr (d p : Z) : Prop := p <> NULL -> p + d <> NULL.

Definition movable_answer (d : Z) (a : answer) : Prop :=
  match a with
  | Some (p, _) => p <> NULL /\ p + d <> NULL
  | None => True
  end.

Definition movable (d : Z) (o : op) : Prop :=
  match o with
  | Malloc _ a => movable_answer d a
  | Free ptr => movable_ptr d ptr
  | Realloc ptr _ a => movable_ptr d ptr /\ movable_answer d a
  end.

(** The same for the arguments of a trace line and for the outcome of a
    call. *)
Definition move_arg (d : Z) (x : va_arg) : va_arg :=
  match x with
  | VPtr p => VPtr (move d p)
  | VSize sz => VSize sz
  end.

Definition movable_arg (d : Z) (x : va_arg) : Prop :=
  match x with
  | VPtr p => movable_ptr d p
  | VSize _ => True
  end.

Definition move_result (d : Z) (r : option (Z * world)) : option (Z * world) :=
  match r with
  | Some (p, w) => Some (move d p, move_world d w)
  | None => None
  end.

(** [all_space s]: every character of [s] is white space. *)
Fixpoint all_space (s : string) : Prop :=
  match s with
  | "" => True
  | String c s' => isspace c = true /\ all_space s'
  end.

(** [starts_number c]: a text that begins with [c] may begin with a number
    for [strtod]: white space, a sign, a digit, the point, or the first
    letter of [inf] or [nan]. *)
Definition starts_number (c : ascii) : bool :=
  isspace c || isdigit c || (c =? "+")%char || (c =? "-")%char ||
  (c =? ".")%char || (tolower c =? "i")%char || (tolower c =? "n")%char.

(** [scan_inv argv st0 st]: what the option loop keeps from [st0] to [st]:
    [optind] only moves forward and stays within the command line, the
    include list stays within its array, and the counters only grow. *)
Definition scan_inv (argv : list string) (st0 st : locals) : Prop :=
  (optind st0 <= optind st <= length argv)%nat /\
  (length (include_list st) <= include_capacity)%nat /\
  interactive st0 <= interactive st /\
  dump_memory st0 <= dump_memory st /\
  trace_memory st0 <= trace_memory st /\
  empty_run st0 <= empty_run st.

(** [same_rest argv1 i argv2 k]: the command line [argv1] from position
    [i] on is the command line [argv2] from position [k] on. *)
Definition same_rest (argv1 : list string) (i : nat)
    (argv2 : list string) (k : nat) : Prop :=
  drop i argv1 = drop k argv2 /\
  (i <= length argv1)%nat /\ (k <= length argv2)%nat.

(** Two outcomes of the option loop that differ in [optind] only, with the
    same tokens left. *)
Definition same_scan (argv1 argv2 : list string) {A}
    (proj : A -> locals) (same : A -> A -> Prop)
    (x y : result A * list event) : Prop :=
  snd x = snd y /\
  match fst x, fst y with
  | Ret a, Ret b =>
      same a b /\
      proj b = set_optind (proj a) (optind (proj b)) /\
      same_rest argv1 (optind (proj a)) argv2 (optind (proj b))
  | Exit c, Exit c' => c = c'
  | Undefined, Undefined => True
  | OutOfFuel, OutOfFuel => True
  | _, _ => False
  end.

(** The option letters that take no argument. *)
Definition is_flag (c : ascii) : bool :=
  existsb (Ascii.eqb c) ["i"; "m"; "d"; "T"; "q"; "s"]%char.

Fixpoint all_flags (s : string) : Prop :=
  match s with
  | "" => True
  | String c s' => is_flag c = true /\ all_flags s'
  end.

(** What the option loop does to the local variables for a flag letter,
    and for a run of them. *)
Definition flag_state (c : ascii) (st : locals) : locals :=
  if (c =? "i")%char then set_interactive st (interactive st + 1)
  else if (c =? "m")%char then set_module st 1
  else if (c =? "d")%char then set_dump_memory st (dump_memory st + 1)
  else if (c =? "T")%char then set_trace_memory st (trace_memory st + 1)
  else if (c =? "q")%char then set_empty_run st (empty_run st + 1)
  else set_strip_flags st JS_STRIP_DEBUG.

Fixpoint flags_state (l : string) (st : locals) : locals :=
  match l with
  | "" => st
  | String c l' => flags_state l' (flag_state c st)
  end.

(** An event that belongs to running user code: handing over the script
    arguments, reading or evaluating a source, the interactive shell, the
    event loop. *)
Definition no_user_code (e : event) : Prop :=
  match e with
  | E_js_std_add_helpers _ _ _ | E_JS_Eval _ _ _ _ _ | E_js_load_file _ _ _
  | E_JS_EvalFunction _ _ _ | E_js_std_await _ _ _
  | E_js_std_eval_binary_repl _ | E_js_std_loop _ => False
  | _ => True
  end.

(** What comes last before [exit (1)]: a diagnostic on standard error, the
    line of [perror], or the usage text on standard output. *)
Definition explains_1 (ver : string) (e : event) : Prop :=
  match e with
  | E_stderr _ | E_perror _ => True
  | E_stdout text => text = usage ver
  | _ => False
  end.

(** What comes last before [exit (2)]: one of three diagnostics. *)
Definition explains_2 (e : event) : Prop :=
  e = E_stderr ("qjs: missing expression for -e" +:+ LF) \/
  e = E_stderr ("qjs: cannot allocate JS runtime" +:+ LF) \/
  e = E_stderr ("qjs: cannot allocate JS context" +:+ LF).

(** An exit is explained by the event before it. *)
Definition explained (ver : string) {A} (r : result A) (d : list event)
  : Prop :=
  match r with
  | Exit c =>
      exists d0 e, d = (d0 ++ [e])%list /\
        ((c = 1 /\ explains_1 ver e) \/ (c = 2 /\ explains_2 e))
  | _ => True
  end.

(** An event that is neither the start of the interactive shell nor the
    event loop. *)
Definition calm (e : event) : Prop :=
  match e with
  | E_js_std_eval_binary_repl _ | E_js_std_loop _ => False
  | _ => True
  end.

(** How the user-code block ends when no input failed: the event loop, and
    before it the interactive shell when it runs, started right after the
    promise rejection tracker has been taken away. *)
Definition loop_tail (rt ctx : Z) (d : list event) : Prop :=
  d = [E_js_std_loop ctx] \/
  d = [E_JS_SetHostPromiseRejectionTracker rt false;
       E_js_std_eval_binary_repl ctx; E_js_std_loop ctx].

(** The events of [main] around the event loop: calm events, then nothing
    or the end of the user-code block, then calm events; the event loop has
    run only when the status is 0, and it has run when the status is 0 and
    user code was to be run ([run] holds). *)
Definition loop_post (run : Prop) (r : result Z) (d : list event) : Prop :=
  exists before tail after,
    d = (before ++ tail ++ after)%list /\
    Forall calm before /\ Forall calm after /\
    (tail = [] \/ (r = Ret 0 /\ exists rt ctx, loop_tail rt ctx tail)) /\
    (r = Ret 0 -> run -> tail <> []).

(** The user-code block: calm events, and at the end, when no input
    failed, the shell and the event loop. *)
Definition user_loop_post (rt ctx : Z) (r : result bool) (d : list event)
  : Prop :=
  exists body tail,
    d = (body ++ tail)%list /\ Forall calm body /\
    match r with
    | Ret false => loop_tail rt ctx tail
    | _ => tail = []
    end.

(** An event of [eval_file] while it holds the buffer [buf]: no file is
    read and no buffer released, and what is evaluated or examined is
    [buf], evaluated in [ctx] under the name [filename]. *)
Definition uses_buffer (ctx : Z) (buf filename : string) (e : event) : Prop :=
  match e with
  | E_js_free _ _ | E_js_load_file _ _ _ => False
  | E_JS_Eval c b f _ _ => c = ctx /\ b = buf /\ f = filename
  | E_JS_DetectModule b _ => b = buf
  | _ => True
  end.

(** The tokens that include the files [fs], each with its own [-I]. *)
Fixpoint include_tokens (fs : list string) : list string :=
  match fs with
  | [] => []
  | f :: fs' => "-I" :: f :: include_tokens fs'
  end.

(** [stops_scan rest]: the option loop stops at the head of [rest]: there
    is no token, or the first one is empty, does not begin with [-], or is
    [-] alone. *)
Definition stops_scan (rest : list string) : Prop :=
  match rest with
  | [] => True
  | tok :: _ => tok = "" \/ tok = "-" \/ begins_with_dash tok = false
  end.





(** * Properties *)

(** ** The tracing allocator *)

Section AllocFacts.

Variable apple : bool.

Lemma MALLOC_OVERHEAD_range : 0 <= MALLOC_OVERHEAD apple <= 8.
Proof. unfold MALLOC_OVERHEAD. destruct apple; lia. Qed.

(** Printing a trace line changes the standard output only. *)
Lemma js_trace_malloc_printf_frame_len (n : nat) :
  forall fmt w ap, (String.length fmt <= n)%nat ->
    ms (js_trace_malloc_printf w fmt ap) = ms w /\
    heap (js_trace_malloc_printf w fmt ap) = heap w /\
    calls (js_trace_malloc_printf w fmt ap) = calls w.
Proof.
  induction n as [|n IH]; intros fmt w ap Hlen.
  - destruct fmt; simpl in *; [auto | lia].
  - destruct fmt as [|c fmt1]; [simpl; auto|].
    simpl in Hlen.
    assert (Hputc :
      ms (js_trace_malloc_printf (printf w (String c "")) fmt1 ap) = ms w /\
      heap (js_trace_malloc_printf (printf w (String c "")) fmt1 ap) = heap w /\
      calls (js_trace_malloc_printf (printf w (String c "")) fmt1 ap)
        = calls w).
    { apply (IH fmt1 (printf w (String c "")) ap). lia. }
    cbn [js_trace_malloc_printf].
    destruct (c =? "%")%char; [|exact Hputc].
    destruct fmt1 as [|c1 fmt2]; [exact Hputc|].
    simpl in Hlen.
    destruct (c1 =? "p")%char.
    + destruct ap as [|[ptr|sz] ap']; auto.
      destruct (ptr =? NULL);
        match goal with
        | |- context [js_trace_malloc_printf ?w0 fmt2 ap'] =>
            destruct (IH fmt2 w0 ap') as (H1 & H2 & H3); [lia|];
            rewrite H1, H2, H3; auto
        end.
    + destruct fmt2 as [|c2 fmt3]; [exact Hputc|].
      simpl in Hlen.
      destruct ((c1 =? "z")%char && (c2 =? "d")%char); [|exact Hputc].
      destruct ap as [|[ptr|sz] ap']; auto.
      destruct (IH fmt3 (printf w (fmt_zd sz)) ap') as (H1 & H2 & H3);
        [lia|]. rewrite H1, H2, H3; auto.
Qed.

Lemma js_trace_malloc_printf_ms w fmt ap :
  ms (js_trace_malloc_printf w fmt ap) = ms w.
Proof. eapply js_trace_malloc_printf_frame_len; reflexivity. Qed.

Lemma js_trace_malloc_printf_heap w fmt ap :
  heap (js_trace_malloc_printf w fmt ap) = heap w.
Proof. eapply js_trace_malloc_printf_frame_len; reflexivity. Qed.

Lemma js_trace_malloc_printf_calls w fmt ap :
  calls (js_trace_malloc_printf w fmt ap) = calls w.
Proof. eapply js_trace_malloc_printf_frame_len; reflexivity. Qed.

Lemma js_trace_malloc_printf_usable w fmt ap p :
  js_trace_malloc_usable_size (js_trace_malloc_printf w fmt ap) p
  = js_trace_malloc_usable_size w p.
Proof.
  unfold js_trace_malloc_usable_size.
  now rewrite js_trace_malloc_printf_heap.
Qed.

End AllocFacts.

Lemma wrap_range x : 0 <= wrap x < 2 ^ 64.
Proof. unfold wrap. apply Z.mod_pos_bound. lia. Qed.

Lemma wrap_le x : 0 <= x -> wrap x <= x.
Proof. intros H. unfold wrap. apply Z.mod_le; lia. Qed.

Lemma wrap_add_r a b : wrap (a + wrap b) = wrap (a + b).
Proof. unfold wrap. apply Zplus_mod_idemp_r. Qed.

Lemma wrap_add_l a b : wrap (wrap a + b) = wrap (a + b).
Proof. unfold wrap. apply Zplus_mod_idemp_l. Qed.

Lemma wrap_sub_r a b : wrap (a - wrap b) = wrap (a - b).
Proof. unfold wrap. apply Zminus_mod_idemp_r. Qed.

Lemma wrap_sub_l a b : wrap (wrap a - b) = wrap (a - b).
Proof. unfold wrap. apply Zminus_mod_idemp_l. Qed.

(** If the cap test lets [x] through, then [x] plus a non-negative slack,
    reduced to a [size_t], is at most the cap plus the slack. *)
Lemma wrap_slack x c cap :
  wrap x <= cap -> 0 <= c -> wrap (x + c) <= cap + c.
Proof.
  intros Hx Hc. rewrite <- wrap_add_l.
  pose proof (wrap_range x).
  etransitivity; [apply wrap_le; lia | lia].
Qed.

Section AllocSteps.

Variable apple : bool.

Opaque js_trace_malloc_printf.

Lemma answer_ok_nonnull w old size a :
  answer_ok w old size a -> answer_nonnull a.
Proof. destruct a as [[p u]|]; cbn; tauto. Qed.

(** What a call of [js_trace_malloc] that is not stopped by the assertion
    does, case by case. *)
Lemma js_trace_malloc_cases w size a r w' :
  answer_nonnull a ->
  js_trace_malloc apple w size a = Some (r, w') ->
  size <> 0 /\
  ((malloc_limit (ms w) < wrap (malloc_size (ms w) + size) /\
    r = NULL /\ w' = w) \/
   (wrap (malloc_size (ms w) + size) <= malloc_limit (ms w) /\
    calls w' = (calls w ++ [SysMalloc size])%list /\
    ((r = NULL /\ a = None /\ ms w' = ms w /\ heap w' = heap w) \/
     (exists u, a = Some (r, u) /\ r <> NULL /\
        heap w' = <[r := u]> (heap w) /\
        malloc_limit (ms w') = malloc_limit (ms w) /\
        malloc_count (ms w') = wrap (malloc_count (ms w) + 1) /\
        malloc_size (ms w')
          = wrap (malloc_size (ms w) + (u + MALLOC_OVERHEAD apple)))))).
Proof.
  unfold js_trace_malloc. intros Ha H.
  destruct (Z.eqb_spec size 0) as [|Hsz]; [discriminate|].
  split; [exact Hsz|].
  destruct (Z.gtb_spec (wrap (malloc_size (ms w) + size)) (malloc_limit (ms w)))
    as [Hcap|Hcap].
  { left. inversion H; subst. auto. }
  right. split; [lia|].
  destruct a as [[p u]|]; cbn [sys_malloc] in H.
  - cbn in Ha. destruct (Z.eqb_spec p NULL) as [Hp|Hp]; [contradiction|].
    inversion H; subst r w'; clear H. cbn.
    rewrite !js_trace_malloc_printf_ms, js_trace_malloc_printf_heap,
      js_trace_malloc_printf_calls, js_trace_malloc_printf_usable. cbn.
    split; [reflexivity|]. right. exists u.
    unfold js_trace_malloc_usable_size. cbn.
    rewrite lookup_insert_eq. cbn.
    rewrite wrap_add_r. auto 10.
  - inversion H; subst r w'; clear H.
    rewrite js_trace_malloc_printf_ms, js_trace_malloc_printf_heap,
      js_trace_malloc_printf_calls. cbn. auto 10.
Qed.

(** The same for [js_trace_realloc] on a block that is not NULL, with a
    size that is not zero. *)
Lemma js_trace_realloc_cases w ptr size a r w' :
  answer_nonnull a -> ptr <> NULL -> size <> 0 ->
  js_trace_realloc apple w ptr size a = Some (r, w') ->
  let old_size := js_trace_malloc_usable_size w ptr in
  (malloc_limit (ms w) < wrap (malloc_size (ms w) + size - old_size) /\
   r = NULL /\ w' = w) \/
  (wrap (malloc_size (ms w) + size - old_size) <= malloc_limit (ms w) /\
   calls w' = (calls w ++ [SysRealloc ptr size])%list /\
   ((r = NULL /\ a = None /\ ms w' = ms w /\ heap w' = heap w) \/
    (exists u, a = Some (r, u) /\ r <> NULL /\
       heap w' = <[r := u]> (delete ptr (heap w)) /\
       malloc_limit (ms w') = malloc_limit (ms w) /\
       malloc_count (ms w') = malloc_count (ms w) /\
       malloc_size (ms w') = wrap (malloc_size (ms w) + (u - old_size))))).
Proof.
  unfold js_trace_realloc. intros Ha Hptr Hsz H.
  destruct (Z.eqb_spec ptr NULL) as [|_]; [contradiction|].
  destruct (Z.eqb_spec size 0) as [|_]; [contradiction|].
  cbn zeta. rewrite wrap_sub_l in H.
  destruct (Z.gtb_spec
              (wrap (malloc_size (ms w) + size
                     - js_trace_malloc_usable_size w ptr))
              (malloc_limit (ms w))) as [Hcap|Hcap].
  { left. inversion H; subst. auto. }
  right. split; [lia|].
  destruct a as [[p u]|]; cbn [sys_realloc] in H.
  - cbn in Ha. destruct (Z.eqb_spec p NULL) as [Hp|Hp]; [contradiction|].
    inversion H; subst r w'; clear H. cbn.
    rewrite !js_trace_malloc_printf_ms, !js_trace_malloc_printf_heap,
      !js_trace_malloc_printf_calls, !js_trace_malloc_printf_usable. cbn.
    split; [reflexivity|]. right. exists u.
    unfold js_trace_malloc_usable_size at 1. cbn.
    rewrite lookup_insert_eq. cbn.
    rewrite wrap_add_r. auto 10.
  - inversion H; subst r w'; clear H.
    rewrite !js_trace_malloc_printf_ms, !js_trace_malloc_printf_heap,
      !js_trace_malloc_printf_calls. cbn.
    rewrite ?js_trace_malloc_printf_ms, ?js_trace_malloc_printf_heap,
      ?js_trace_malloc_printf_calls. auto 10.
Qed.

Transparent js_trace_malloc_printf.

End AllocSteps.

Section AllocClaims.

Variable apple : bool.

Opaque js_trace_malloc_printf.

Lemma step_malloc_limit w o r w' :
  op_ok w o -> step apple w o = Some (r, w') ->
  malloc_limit (ms w') = malloc_limit (ms w).
Proof.
  intros Hok Hstep. destruct o as [size a|ptr|ptr size a]; cbn in *.
  - destruct Hok as [_ Ha]. apply answer_ok_nonnull in Ha.
    destruct (js_trace_malloc_cases apple _ _ _ _ _ Ha Hstep)
      as (_ & [(_ & _ & ->)|(_ & _ & [(_ & _ & -> & _)|(u & _ & _ & _ & H & _)])]);
      auto.
  - inversion Hstep; subst. unfold js_trace_free.
    destruct (ptr =? NULL); [reflexivity|]. cbn.
    now rewrite js_trace_malloc_printf_ms.
  - destruct Hok as (_ & _ & Ha). apply answer_ok_nonnull in Ha.
    destruct (Z.eq_dec ptr NULL) as [->|Hptr].
    + unfold js_trace_realloc in Hstep. cbn in Hstep.
      destruct (Z.eqb_spec size 0); [now inversion Hstep|].
      destruct (js_trace_malloc_cases apple _ _ _ _ _ Ha Hstep)
        as (_ & [(_ & _ & ->)|(_ & _ & [(_ & _ & -> & _)|(u & _ & _ & _ & H & _)])]);
        auto.
    + destruct (Z.eq_dec size 0) as [->|Hsz].
      * unfold js_trace_realloc in Hstep.
        destruct (Z.eqb_spec ptr NULL); [contradiction|]. cbn in Hstep.
        inversion Hstep; subst. cbn.
        now rewrite js_trace_malloc_printf_ms.
      * destruct (js_trace_realloc_cases apple _ _ _ _ _ _ Ha Hptr Hsz Hstep)
          as [(_ & _ & ->)|(_ & _ & [(_ & _ & -> & _)|(u & _ & _ & _ & H & _)])];
          auto.
Qed.

Lemma reachable_malloc_limit limit b w :
  reachable apple limit b w -> malloc_limit (ms w) = limit.
Proof.
  induction 1 as [|w o r w' _ IH Hok Hstep]; [reflexivity|].
  rewrite (step_malloc_limit _ _ _ _ Hok Hstep). exact IH.
Qed.

(** C1, as amended. In every state reached from the initial one by
    well-formed operations, a request for [size] bytes whose cap test fails
    is refused with nothing changed: no platform call, no trace line; a
    refused request (NULL is returned) leaves the accounting record (live
    bytes, live count) and the heap, with it the block being reallocated,
    unchanged. A request that succeeds passed the cap test on the requested
    size; the accounted cost is the usable size [u] of the block plus the
    overhead, so afterwards the live bytes are at most
    [limit + (u - size) + MALLOC_OVERHEAD], not at most [limit]. *)
Theorem C1_cap_enforcement (limit b : Z) (w : world) (o : op) (size r : Z)
    (w' : world) :
  reachable apple limit b w ->
  op_ok w o ->
  requests o size ->
  step apple w o = Some (r, w') ->
  malloc_limit (ms w') = limit /\
  (over_cap w o -> r = NULL /\ w' = w) /\
  (r = NULL -> ms w' = ms w /\ heap w' = heap w) /\
  (r <> NULL ->
   exists u, heap w' !! r = Some u /\ size <= u /\
     malloc_size (ms w') <= limit + (u - size) + MALLOC_OVERHEAD apple).
Proof.
  intros Hreach Hok Hreq Hstep.
  pose proof (reachable_malloc_limit _ _ _ Hreach) as Hlim.
  pose proof (step_malloc_limit _ _ _ _ Hok Hstep) as Hlim'.
  pose proof MALLOC_OVERHEAD_range apple as HOH.
  split; [congruence|].
  assert (Hmalloc : forall a,
    answer_ok w NULL size a ->
    js_trace_malloc apple w size a = Some (r, w') ->
    (malloc_limit (ms w) < wrap (malloc_size (ms w) + size) ->
     r = NULL /\ w' = w) /\
    (r = NULL -> ms w' = ms w /\ heap w' = heap w) /\
    (r <> NULL ->
     exists u, heap w' !! r = Some u /\ size <= u /\
       malloc_size (ms w') <= limit + (u - size) + MALLOC_OVERHEAD apple)).
  { intros a Ha Hm.
    destruct (js_trace_malloc_cases apple _ _ _ _ _
                (answer_ok_nonnull _ _ _ _ Ha) Hm)
      as (_ & [(_ & -> & ->)|(Hcap & _ & [(-> & _ & Hms & Hheap)|
                (u & -> & Hr & Hheap & _ & _ & Hsize)])]).
    - split; [auto|]. split; [auto | intros []; reflexivity].
    - split; [lia|]. split; [auto | intros []; reflexivity].
    - split; [lia|]. split; [intros; contradiction | intros _].
      exists u. rewrite Hheap, lookup_insert_eq.
      cbn in Ha. destruct Ha as (_ & _ & Hu).
      split; [reflexivity|]. split; [lia|].
      rewrite Hsize.
      replace (malloc_size (ms w) + (u + MALLOC_OVERHEAD apple))
        with (malloc_size (ms w) + size + (u - size + MALLOC_OVERHEAD apple))
        by lia.
      etransitivity; [apply (wrap_slack _ _ limit); lia | lia]. }
  destruct o as [sz a|ptr|ptr sz a]; cbn in Hreq, Hok, Hstep.
  - subst sz. destruct Hok as [_ Ha]. exact (Hmalloc a Ha Hstep).
  - contradiction.
  - destruct Hreq as [-> Hsz]. destruct Hok as (_ & _ & Ha).
    cbn [over_cap].
    destruct (Z.eqb_spec ptr NULL) as [->|Hptr].
    + unfold js_trace_realloc in Hstep. cbn in Hstep.
      destruct (Z.eqb_spec size 0); [contradiction|].
      exact (Hmalloc a Ha Hstep).
    + destruct (js_trace_realloc_cases apple _ _ _ _ _ _
                  (answer_ok_nonnull _ _ _ _ Ha) Hptr Hsz Hstep)
        as [(_ & -> & ->)|(Hcap & _ & [(-> & _ & Hms & Hheap)|
                (u & -> & Hr & Hheap & _ & _ & Hsize)])].
      * split; [auto|]. split; [auto | intros []; reflexivity].
      * rewrite wrap_sub_l. split; [lia|].
        split; [auto | intros []; reflexivity].
      * rewrite wrap_sub_l. split; [lia|].
        split; [intros; contradiction | intros _].
        exists u. rewrite Hheap, lookup_insert_eq.
        cbn in Ha. destruct Ha as (_ & _ & Hu).
        split; [reflexivity|]. split; [lia|].
        rewrite Hsize.
        replace (malloc_size (ms w) + (u - js_trace_malloc_usable_size w ptr))
          with (malloc_size (ms w) + size - js_trace_malloc_usable_size w ptr
                + (u - size)) by lia.
        etransitivity; [apply (wrap_slack _ _ limit); lia | lia].
Qed.

(** C8. Reallocating a block that is not NULL to size zero does what
    freeing it does: the same accounting record (live count decremented,
    usable size plus overhead subtracted from the live bytes), the same heap
    and the same platform call result from both, and NULL is returned; the
    trace line is an [R] line where [js_trace_free] prints an [F] line.
    A reallocation that the cap test stops returns NULL and changes nothing.
    Allocating zero bytes stops at the assertion. *)
Theorem C8_realloc_zero_cap_and_zero_alloc (w : world) (ptr size : Z)
    (a : answer) :
  ptr <> NULL ->
  (exists w1,
     js_trace_realloc apple w ptr 0 a = Some (NULL, w1) /\
     ms w1 = ms (js_trace_free apple w ptr) /\
     heap w1 = heap (js_trace_free apple w ptr) /\
     calls w1 = calls (js_trace_free apple w ptr) /\
     malloc_count (ms w1) = wrap (malloc_count (ms w) - 1) /\
     malloc_size (ms w1)
       = wrap (malloc_size (ms w)
               - (js_trace_malloc_usable_size w ptr + MALLOC_OVERHEAD apple)) /\
     heap w1 = delete ptr (heap w) /\
     calls w1 = (calls w ++ [SysFree ptr])%list) /\
  (size <> 0 ->
   malloc_limit (ms w)
     < wrap (wrap (malloc_size (ms w) + size)
             - js_trace_malloc_usable_size w ptr) ->
   js_trace_realloc apple w ptr size a = Some (NULL, w)) /\
  js_trace_malloc apple w 0 a = None.
Proof.
  intros Hptr. split; [|split].
  - unfold js_trace_realloc, js_trace_free.
    destruct (Z.eqb_spec ptr NULL) as [|_]; [contradiction|].
    cbn. eexists. split; [reflexivity|]. cbn.
    rewrite !js_trace_malloc_printf_ms, !js_trace_malloc_printf_heap,
      !js_trace_malloc_printf_calls, !js_trace_malloc_printf_usable.
    rewrite wrap_sub_r. auto 10.
  - intros Hsz Hcap. unfold js_trace_realloc.
    destruct (Z.eqb_spec ptr NULL) as [|_]; [contradiction|].
    destruct (Z.eqb_spec size 0) as [|_]; [contradiction|].
    cbn zeta.
    destruct (Z.gtb_spec
                (wrap (wrap (malloc_size (ms w) + size)
                       - js_trace_malloc_usable_size w ptr))
                (malloc_limit (ms w))); [reflexivity | lia].
  - reflexivity.
Qed.

(** C10. Freeing NULL returns at once: nothing is printed, no platform call
    is made, the accounting record is as before. Reallocating NULL to size
    zero returns NULL, again with nothing printed and no platform call. *)
Theorem C10_null_pointer_edge_cases (w : world) (a : answer) :
  js_trace_free apple w NULL = w /\
  out (js_trace_free apple w NULL) = out w /\
  calls (js_trace_free apple w NULL) = calls w /\
  ms (js_trace_free apple w NULL) = ms w /\
  js_trace_realloc apple w NULL 0 a = Some (NULL, w).
Proof. cbn. auto. Qed.

Transparent js_trace_malloc_printf.

End AllocClaims.

(** C1 as stated fails: with the cap at 100 bytes, a request for 100 bytes
    passes the cap test; the block has 104 usable bytes and costs 112, so
    the live bytes exceed the cap after a successful allocation. *)
Lemma C1_counterexample :
  exists w',
    reachable false 100 4096 (init_world 100 4096) /\
    op_ok (init_world 100 4096) (Malloc 100 (Some (8192, 104))) /\
    step false (init_world 100 4096) (Malloc 100 (Some (8192, 104)))
      = Some (8192, w') /\
    8192 <> NULL /\
    malloc_size (ms w') = 112 /\
    malloc_limit (ms w') = 100 /\
    ~ malloc_size (ms w') <= malloc_limit (ms w').
Proof.
  eexists. split; [constructor|].
  split; [cbn; unfold SIZE_MAX, NULL; repeat split; auto; lia|].
  split; [vm_compute; reflexivity|].
  cbn. unfold NULL. repeat split; lia.
Qed.

Lemma C1_cap_enforcement_witness :
  exists w',
    step false (init_world 100 4096) (Malloc 100 (Some (8192, 104)))
      = Some (8192, w') /\
    malloc_limit (ms w') = 100 /\
    exists u, heap w' !! 8192 = Some u /\ 100 <= u /\
      malloc_size (ms w') <= 100 + (u - 100) + MALLOC_OVERHEAD false.
Proof.
  eexists. split; [vm_compute; reflexivity|].
  assert (Hok : op_ok (init_world 100 4096) (Malloc 100 (Some (8192, 104)))).
  { cbn. unfold SIZE_MAX, NULL. repeat split; auto; lia. }
  destruct (C1_cap_enforcement false 100 4096 (init_world 100 4096)
              (Malloc 100 (Some (8192, 104))) 100 8192 _
              (reach_init false 100 4096) Hok eq_refl eq_refl)
    as (Hlim & _ & _ & Hbound).
  split; [exact Hlim|]. apply Hbound. unfold NULL. lia.
Defined.

Lemma C8_realloc_zero_cap_and_zero_alloc_witness :
  let w := {| ms := {| malloc_count := 1; malloc_size := 112;
                       malloc_limit := 200;
                       opaque := {| base := 4096 |} |};
              heap := {[ 8192 := 104 ]}; out := ""; calls := [] |} in
  (exists w1, js_trace_realloc false w 8192 0 None = Some (NULL, w1) /\
              malloc_count (ms w1) = 0 /\ malloc_size (ms w1) = 0) /\
  js_trace_realloc false w 8192 300 None = Some (NULL, w).
Proof.
  intros w.
  assert (Hptr : 8192 <> NULL) by (unfold NULL; lia).
  destruct (C8_realloc_zero_cap_and_zero_alloc false w 8192 300 None Hptr)
    as ((w1 & Hre & _ & _ & _ & Hcount & Hsize & _) & Hcap & _).
  split.
  - exists w1. split; [exact Hre|]. split.
    + rewrite Hcount. reflexivity.
    + rewrite Hsize. reflexivity.
  - apply Hcap; [lia | vm_compute; reflexivity].
Defined.

(** The trace lines of the allocator on one block of 104 usable bytes,
    4096 bytes above the base pointer: reallocating it to size zero prints
    an [R] line, freeing it an [F] line; the accounting is the same. *)
Example trace_lines :
  let w := {| ms := {| malloc_count := 1; malloc_size := 112;
                       malloc_limit := 200;
                       opaque := {| base := 4096 |} |};
              heap := {[ 8192 := 104 ]}; out := ""; calls := [] |} in
  (out ∘ snd) <$> js_trace_realloc false w 8192 0 None
    = Some ("R 0 H+04096.104" +:+ LF) /\
  out (js_trace_free false w 8192) = "F H+04096.104" +:+ LF /\
  (out ∘ snd) <$> js_trace_realloc false w 8192 50 (Some (8192, 56))
    = Some ("R 50 H+04096.104 -> H+04096.56" +:+ LF) /\
  (out ∘ snd) <$> js_trace_malloc false w 50 (Some (4000, 56))
    = Some ("A 50 -> H-00096.56" +:+ LF).
Proof. vm_compute. auto. Qed.

(** ** The size parser *)

Lemma code_range c : 0 <= code c < 256.
Proof.
  unfold code. pose proof (N_ascii_bounded c). lia.
Qed.

Lemma code_digit_char d : 0 <= d <= 9 -> code (digit_char d) = 48 + d.
Proof.
  intros H. unfold code, digit_char.
  rewrite N_ascii_embedding by lia. lia.
Qed.

Lemma isdigit_code c : isdigit c = true <-> 48 <= code c <= 57.
Proof. unfold isdigit. rewrite andb_true_iff, !Z.leb_le. tauto. Qed.

Lemma isdigit_digit_char d : 0 <= d <= 9 -> isdigit (digit_char d) = true.
Proof. intros H. apply isdigit_code. rewrite code_digit_char; lia. Qed.

Lemma digit_val_digit_char d : 0 <= d <= 9 -> digit_val (digit_char d) = d.
Proof. intros H. unfold digit_val. rewrite code_digit_char; lia. Qed.

(** A digit is none of the characters with another code. *)
Lemma digit_neq c l :
  isdigit c = true -> (code l < 48 \/ 57 < code l) -> (c =? l)%char = false.
Proof.
  intros Hc Hl. apply isdigit_code in Hc.
  destruct (Ascii.eqb_spec c l) as [->|]; [lia | reflexivity].
Qed.

Lemma dec_aux_S fuel n acc :
  dec_aux (S fuel) n acc
  = let acc' := String (digit_char (n mod 10)) acc in
    if n <? 10 then acc' else dec_aux fuel (n / 10) acc'.
Proof. reflexivity. Qed.

Lemma dec_aux_app fuel : forall n acc s,
  dec_aux fuel n acc +:+ s = dec_aux fuel n (acc +:+ s).
Proof.
  induction fuel as [|fuel IH]; intros n acc s; cbn; [reflexivity|].
  destruct (n <? 10); [reflexivity|]. now rewrite IH.
Qed.

Lemma dec_aux_shape fuel : forall n acc,
  all_digits acc ->
  exists c tl, dec_aux (S fuel) n acc = String c tl /\
               isdigit c = true /\ all_digits tl.
Proof.
  induction fuel as [|fuel IH]; intros n acc Hacc.
  - exists (digit_char (n mod 10)), acc. cbn.
    split; [now destruct (n <? 10)|]. split; [|exact Hacc].
    apply isdigit_digit_char. pose proof (Z.mod_pos_bound n 10). lia.
  - rewrite (dec_aux_S (S fuel)). cbn zeta. destruct (n <? 10).
    + exists (digit_char (n mod 10)), acc. split; [reflexivity|].
      split; [|exact Hacc].
      apply isdigit_digit_char. pose proof (Z.mod_pos_bound n 10). lia.
    + apply IH. cbn. split; [|exact Hacc].
      apply isdigit_digit_char. pose proof (Z.mod_pos_bound n 10). lia.
Qed.

(** Scanning the digits that [dec_aux] wrote gives the number back. *)
Lemma scan_digits_dec_aux fuel : forall n acc a c,
  0 <= n < 10 ^ Z.of_nat (S fuel) ->
  exists k, 1 <= k /\
    scan_digits a c (dec_aux (S fuel) n acc)
    = scan_digits (a * 10 ^ k + n) (c + k) acc.
Proof.
  assert (Hone : forall n acc a c, 0 <= n < 10 ->
    scan_digits a c (String (digit_char (n mod 10)) acc)
    = scan_digits (a * 10 ^ 1 + n) (c + 1) acc).
  { intros n acc a c Hn. cbn [scan_digits].
    rewrite Z.mod_small by lia.
    rewrite isdigit_digit_char, digit_val_digit_char by lia.
    now rewrite Z.pow_1_r. }
  induction fuel as [|fuel IH]; intros n acc a c Hn.
  - exists 1. split; [lia|]. cbn [dec_aux].
    change (10 ^ Z.of_nat 1) with 10 in Hn.
    destruct (n <? 10); apply Hone; lia.
  - rewrite (dec_aux_S (S fuel)). cbn zeta.
    destruct (Z.ltb_spec n 10) as [Hlt|Hge].
    + exists 1. split; [lia|]. apply Hone; lia.
    + assert (Hdiv : 0 <= n / 10 < 10 ^ Z.of_nat (S fuel)).
      { split; [apply Z.div_pos; lia|].
        apply Z.div_lt_upper_bound; [lia|].
        rewrite <- Z.pow_succ_r by lia.
        replace (Z.succ (Z.of_nat (S fuel))) with (Z.of_nat (S (S fuel)))
          by lia. lia. }
      destruct (IH (n / 10) (String (digit_char (n mod 10)) acc) a c Hdiv)
        as (k & Hk & Heq).
      exists (k + 1). split; [lia|]. rewrite Heq. cbn [scan_digits].
      pose proof (Z.mod_pos_bound n 10 ltac:(lia)) as Hmod.
      rewrite isdigit_digit_char, digit_val_digit_char by lia.
      replace (a * 10 ^ (k + 1) + n)
        with ((a * 10 ^ k + n / 10) * 10 + n mod 10).
      { f_equal. lia. }
      rewrite Z.pow_add_r, Z.pow_1_r by lia.
      pose proof (Z.div_mod n 10 ltac:(lia)). lia.
Qed.

Lemma dec_fuel_enough n :
  0 <= n -> n < 10 ^ Z.of_nat (S (Z.to_nat (Z.log2 n))).
Proof.
  intros Hn. destruct (Z.eq_dec n 0) as [->|Hnz]; [reflexivity|].
  pose proof (Z.log2_spec n ltac:(lia)) as [_ Hup].
  pose proof (Z.log2_nonneg n) as Hlog.
  replace (Z.of_nat (S (Z.to_nat (Z.log2 n)))) with (Z.succ (Z.log2 n))
    by lia.
  eapply Z.lt_le_trans; [exact Hup|].
  apply Z.pow_le_mono_l. lia.
Qed.

Lemma dec_shape n :
  exists c tl, dec n = String c tl /\ isdigit c = true /\ all_digits tl.
Proof. unfold dec. apply dec_aux_shape. exact I. Qed.

Lemma scan_digits_dec n s :
  0 <= n ->
  exists k, 1 <= k /\ scan_digits 0 0 (dec n +:+ s) = scan_digits n k s.
Proof.
  intros Hn. unfold dec. rewrite dec_aux_app.
  destruct (scan_digits_dec_aux _ n s 0 0 (conj Hn (dec_fuel_enough n Hn)))
    as (k & Hk & Heq).
  exists k. split; [exact Hk|].
  change ("" +:+ s) with s. rewrite Heq. f_equal.
Qed.

(** An integer below [2^53] is a [double]: rounding keeps it, and the
    conversion to [size_t] gives it back. *)
Lemma round_double_exact n :
  0 <= n < 2 ^ 53 ->
  double_to_size_t (round_double false n 1) = Some n.
Proof.
  intros Hn. unfold round_double.
  destruct (Z.eqb_spec n 0) as [->|Hnz]; [reflexivity|].
  change (Z.log2 1) with 0. rewrite Z.sub_0_r.
  pose proof (Z.log2_spec n ltac:(lia)) as [Hlo Hup].
  pose proof (Z.log2_nonneg n) as Hk.
  set (k := Z.log2 n) in *.
  assert (Hk52 : k <= 52).
  { destruct (Z.le_gt_cases k 52) as [|Hgt]; [assumption|exfalso].
    assert (2 ^ 53 <= 2 ^ k) by (apply Z.pow_le_mono_r; lia). lia. }
  destruct (Z.leb_spec 0 k) as [_|]; [|lia].
  rewrite Z.mul_1_l.
  destruct (Z.ltb_spec n (2 ^ k)) as [|_]; [lia|].
  rewrite Z.max_l by lia.
  assert (Hpos : 0 < 2 ^ (52 - k)) by (apply Z.pow_pos_nonneg; lia).
  assert (Hlt53 : n * 2 ^ (52 - k) < 2 ^ 53).
  { replace (2 ^ 53) with (2 ^ Z.succ k * 2 ^ (52 - k)).
    - apply Z.mul_lt_mono_pos_r; lia.
    - rewrite <- Z.pow_add_r by lia. f_equal. lia. }
  destruct (Z.leb_spec 0 (k - 52)) as [He|He].
  - assert (k = 52) by lia. subst k.
    replace (Z.log2 n - 52) with 0 in * by lia.
    change (1 * 2 ^ 0) with 1.
    rewrite Z.div_1_r, Z.mod_1_r.
    change (2 * 0) with 0. change (1 <? 0) with false.
    change (1 =? 0) with false. cbn [orb andb].
    destruct (Z.eqb_spec n (2 ^ 53)) as [|_]; [lia|].
    change (971 <? 0) with false. cbn [double_to_size_t].
    change (0 <=? 0) with true. cbn iota.
    rewrite Z.mul_1_r.
    destruct (Z.leb_spec n SIZE_MAX) as [|Hbig]; [reflexivity|].
    unfold SIZE_MAX in Hbig. lia.
  - replace (- (k - 52)) with (52 - k) by lia.
    rewrite Z.div_1_r, Z.mod_1_r.
    change (2 * 0) with 0. change (1 <? 0) with false.
    change (1 =? 0) with false. cbn [orb andb].
    destruct (Z.eqb_spec (n * 2 ^ (52 - k)) (2 ^ 53)) as [|_]; [lia|].
    destruct (Z.ltb_spec 971 (k - 52)) as [|_]; [lia|].
    cbn [double_to_size_t].
    destruct (Z.leb_spec 0 (k - 52)) as [|_]; [lia|].
    replace (- (k - 52)) with (52 - k) by lia.
    rewrite Z.div_mul by lia.
    destruct (Z.leb_spec n SIZE_MAX) as [|Hbig]; [reflexivity|].
    unfold SIZE_MAX in Hbig. lia.
Qed.

Lemma ends_number_scan n k s :
  ends_number s = true -> scan_digits n k s = (n, k, s).
Proof.
  destruct s as [|c s']; [reflexivity|]. cbn [ends_number scan_digits].
  rewrite negb_true_iff, !orb_false_iff. intros (((((-> & _) & _) & _) & _) & _).
  reflexivity.
Qed.

Lemma scan_decimal_dec n s :
  0 <= n -> ends_number s = true ->
  scan_decimal (dec n +:+ s) = Some (PRat n 1, s).
Proof.
  intros Hn Hs. unfold scan_decimal.
  destruct (scan_digits_dec n s Hn) as (k & Hk & ->).
  rewrite (ends_number_scan _ _ _ Hs).
  assert (Hrest : match s with
                  | String c s1' =>
                      if (c =? ".")%char then scan_digits n 0 s1' else (n, 0, s)
                  | "" => (n, 0, s)
                  end = (n, 0, s)).
  { destruct s as [|c s']; [reflexivity|]. cbn in Hs.
    rewrite negb_true_iff, !orb_false_iff in Hs.
    destruct Hs as (((((_ & ->) & _) & _) & _) & _). reflexivity. }
  rewrite Hrest.
  destruct (Z.eqb_spec (k + 0) 0) as [|_]; [lia|].
  assert (Hexp : scan_exponent "e" "E" s = (0, s)).
  { destruct s as [|c s']; [reflexivity|]. cbn in Hs.
    rewrite negb_true_iff, !orb_false_iff in Hs.
    destruct Hs as (((((_ & _) & He) & HE) & _) & _).
    unfold scan_exponent. rewrite He, HE. reflexivity. }
  rewrite Hexp. unfold scale. cbn. now rewrite Z.mul_1_r.
Qed.

Lemma tolower_digit c : isdigit c = true -> tolower c = c.
Proof.
  intros Hc. apply isdigit_code in Hc. unfold tolower.
  destruct (Z.leb_spec 65 (code c)); [lia|]. reflexivity.
Qed.

Lemma scan_special_digit c s :
  isdigit c = true -> scan_special (String c s) = None.
Proof.
  intros Hc. unfold scan_special. cbn [prefix_ci].
  rewrite (tolower_digit c Hc).
  rewrite (digit_neq c "i" Hc), (digit_neq c "n" Hc) by (vm_compute; auto).
  reflexivity.
Qed.

Lemma scan_number_dec n s :
  0 <= n -> ends_number s = true ->
  scan_number (dec n +:+ s) = Some (PRat n 1, s).
Proof.
  intros Hn Hs. unfold scan_number.
  rewrite (scan_decimal_dec n s Hn Hs).
  destruct (dec_shape n) as (c & tl & -> & Hc & Htl).
  cbn [String.append]. change (String c tl +:+ s) with (String c (tl +:+ s)).
  rewrite (scan_special_digit c _ Hc).
  destruct tl as [|c2 tl'].
  - change ("" +:+ s) with s. destruct s as [|x s']; [reflexivity|].
    cbn in Hs. rewrite negb_true_iff, !orb_false_iff in Hs.
    destruct Hs as (((((_ & _) & _) & _) & -> ) & ->).
    rewrite andb_false_r. reflexivity.
  - change (String c2 tl' +:+ s) with (String c2 (tl' +:+ s)).
    destruct Htl as [Hc2 _].
    rewrite (digit_neq c2 "x" Hc2), (digit_neq c2 "X" Hc2) by (vm_compute; auto).
    rewrite andb_false_r. reflexivity.
Qed.

Lemma strtod_dec n s :
  0 <= n < 2 ^ 53 -> ends_number s = true ->
  exists d, strtod (dec n +:+ s) = (d, s) /\ double_to_size_t d = Some n.
Proof.
  intros Hn Hs. exists (round_double false n 1).
  split; [|now apply round_double_exact].
  unfold strtod.
  assert (Hsign : scan_sign (skip_space (dec n +:+ s)) = (false, dec n +:+ s)).
  { destruct (dec_shape n) as (c & tl & -> & Hc & _).
    change (String c tl +:+ s) with (String c (tl +:+ s)).
    cbn [skip_space].
    assert (Hsp : isspace c = false).
    { apply isdigit_code in Hc. unfold isspace.
      destruct (Z.eqb_spec (code c) 32); [lia|].
      destruct (Z.leb_spec (code c) 13); [lia|].
      now rewrite andb_false_r. }
    rewrite Hsp. cbn [scan_sign].
    now rewrite (digit_neq c "+" Hc), (digit_neq c "-" Hc) by (vm_compute; auto). }
  rewrite Hsign, (scan_number_dec n s) by (lia || assumption).
  reflexivity.
Qed.


Lemma append_empty_r (s : string) : s +:+ "" = s.
Proof.
  induction s as [|c s IH]; [reflexivity|].
  change (String c (s +:+ "") = String c s). now rewrite IH.
Qed.





(** ** Reasoning about computations and their events *)

Section Ensures.

Context {A B : Type}.

Lemma ensures_ret (a : A) (Q : result A -> list event -> Prop) :
  Q (Ret a) [] -> ensures (ret a) Q.
Proof. intros H t. exists []. cbn. now rewrite app_nil_r. Qed.

Lemma ensures_exit (c : Z) (Q : result A -> list event -> Prop) :
  Q (Exit c) [] -> ensures (exit c) Q.
Proof. intros H t. exists []. cbn. now rewrite app_nil_r. Qed.

Lemma ensures_undefined (Q : result A -> list event -> Prop) :
  Q Undefined [] -> ensures undefined Q.
Proof. intros H t. exists []. cbn. now rewrite app_nil_r. Qed.

Lemma ensures_ask (f : list event -> A) (e : A -> event)
    (Q : result A -> list event -> Prop) :
  (forall a, Q (Ret a) [e a]) -> ensures (ask f e) Q.
Proof. intros H t. exists [e (f t)]. cbn. auto. Qed.

Lemma ensures_weaken (m : M A) (Q Q' : result A -> list event -> Prop) :
  ensures m Q -> (forall r d, Q r d -> Q' r d) -> ensures m Q'.
Proof.
  intros Hm HQ t. destruct (Hm t) as (d & Hd & Hq). exists d. auto.
Qed.

(** The rule for sequencing: what [m] ensured for its events [d] is known
    to the continuation, which has to extend [d]; an outcome of [m] that
    is not a return is the outcome of the whole. *)
Lemma ensures_bind (m : M A) (k : A -> M B)
    (Qm : result A -> list event -> Prop)
    (Q : result B -> list event -> Prop) :
  ensures m Qm ->
  (forall a d, Qm (Ret a) d -> ensures (k a) (fun r d' => Q r (d ++ d')%list)) ->
  (forall c d, Qm (Exit c) d -> Q (Exit c) d) ->
  (forall d, Qm Undefined d -> Q Undefined d) ->
  (forall d, Qm OutOfFuel d -> Q OutOfFuel d) ->
  ensures (bind m k) Q.
Proof.
  intros Hm Hk Hexit Hundef Hfuel t. unfold bind.
  destruct (Hm t) as (d & Hd & Hq).
  destruct (m t) as [[a|c| |] t1]; cbn in Hd, Hq; subst t1.
  - destruct (Hk a d Hq (t ++ d)%list) as (d' & Hd' & Hq').
    exists (d ++ d')%list. rewrite Hd', app_assoc. auto.
  - exists d. cbn. auto.
  - exists d. cbn. auto.
  - exists d. cbn. auto.
Qed.

End Ensures.

Lemma ensures_emit (e : event) (Q : result unit -> list event -> Prop) :
  Q (Ret tt) [e] -> ensures (emit e) Q.
Proof. intros H t. exists [e]. cbn. auto. Qed.

Section Emits.

Context {A B : Type} (P : event -> Prop).

Lemma emits_ret (a : A) : emits P (ret a).
Proof. apply ensures_ret. split; [constructor | discriminate]. Qed.

Lemma emits_exit (c : Z) : emits P (@exit A c).
Proof. apply ensures_exit. split; [constructor | discriminate]. Qed.

Lemma emits_undefined : emits P (@undefined A).
Proof. apply ensures_undefined. split; [constructor | discriminate]. Qed.

Lemma emits_ask (f : list event -> A) (e : A -> event) :
  (forall a, P (e a)) -> emits P (ask f e).
Proof.
  intros H. apply ensures_ask. intros a.
  split; [repeat constructor; apply H | discriminate].
Qed.

Lemma emits_bind (m : M A) (k : A -> M B) :
  emits P m -> (forall a, emits P (k a)) -> emits P (bind m k).
Proof.
  intros Hm Hk.
  apply ensures_bind with (Qm := fun r d => Forall P d /\ r <> OutOfFuel).
  - exact Hm.
  - intros a d [Hd _]. eapply ensures_weaken; [apply Hk|].
    intros r d' [Hd' Hr]. split; [|exact Hr]. apply Forall_app; auto.
  - intros c d [Hd _]. split; [exact Hd | discriminate].
  - intros d [Hd _]. split; [exact Hd | discriminate].
  - intros d [_ Hr]. contradiction.
Qed.

End Emits.

Lemma emits_emit (P : event -> Prop) (e : event) : P e -> emits P (emit e).
Proof.
  intros H. apply ensures_emit. split; [repeat constructor; exact H|discriminate].
Qed.

Lemma emits_weaken {A} (P P' : event -> Prop) (m : M A) :
  (forall e, P e -> P' e) -> emits P m -> emits P' m.
Proof.
  intros HP Hm. eapply ensures_weaken; [exact Hm|].
  intros r d [Hd Hr]. split; [|exact Hr]. eapply Forall_impl; eauto.
Qed.

Lemma emits_when (P : event -> Prop) (b : bool) (m : M unit) :
  emits P m -> emits P (when b m).
Proof. intros H. destruct b; [exact H | apply emits_ret]. Qed.

(** Discharges [emits P m] for a computation written with the operations
    of the monad, conditionals and matches on data; [P] of each event
    emitted is left to [cbn; auto]. *)
Ltac emits_step :=
  match goal with
  | |- emits _ (bind _ _) => apply emits_bind; [|intros]
  | |- emits _ (ret _) => apply emits_ret
  | |- emits _ (exit _) => apply emits_exit
  | |- emits _ undefined => apply emits_undefined
  | |- emits _ (emit _) => apply emits_emit; cbn; auto
  | |- emits _ (ask _ _) => apply emits_ask; intros; cbn; auto
  | |- emits _ (when _ _) => apply emits_when
  | |- emits _ (help _) => unfold help
  | |- emits _ (if ?b then _ else _) => destruct b
  | |- emits _ (match ?x with _ => _ end) => destruct x
  | |- emits _ (let '(_, _) := ?x in _) => destruct x
  end.

Ltac emits_auto := repeat emits_step.

Lemma get_suffixed_size_emits str : emits is_output (get_suffixed_size str).
Proof. unfold get_suffixed_size. emits_auto. Qed.

Section DriverFacts.

Variable eng : Engine.
Variable ver : string.

Lemma option_body_emits argv opt longopt arg st :
  emits is_output (option_body ver argv opt longopt arg st).
Proof.
  unfold option_body.
  repeat first [apply get_suffixed_size_emits | emits_step].
Qed.

End DriverFacts.

(** ** The option loop *)

Lemma ensures_of_emits {A} (P : event -> Prop) (m : M A) (R : A -> Prop) :
  emits P m ->
  (forall t a t', m t = (Ret a, t') -> R a) ->
  ensures m (fun r d => Forall P d /\ r <> OutOfFuel /\
                        forall a, r = Ret a -> R a).
Proof.
  intros He Hr t. destruct (He t) as (d & Hd & HP & Hf).
  exists d. split; [exact Hd|]. split; [exact HP|]. split; [exact Hf|].
  intros a Ha. apply (Hr t a (snd (m t))).
  destruct (m t) as [r t']; cbn in *; now subst.
Qed.

Section ScanFacts.

Variable ver : string.
Variable argv : list string.

Lemma arg_at_lookup i :
  (i < length argv)%nat -> argv !! i = Some (arg_at argv i).
Proof.
  intros Hi. unfold arg_at.
  destruct (lookup_lt_is_Some_2 argv i Hi) as [x Hx].
  rewrite Hx. f_equal. symmetry. now apply nth_lookup_Some.
Qed.

(** A pass over the letters of a token that returns has met recognised
    letters only and has moved [optind] by the number of arguments taken. *)
Lemma option_loop_short_ret : forall arg st t st' t',
  (optind st <= length argv)%nat ->
  option_loop ver argv arg "" st t = (Ret st', t') ->
  exists k, spec_short_args arg = Some k /\
            optind st' = (optind st + k)%nat /\
            (optind st' <= length argv)%nat.
Proof.
  induction arg as [|c rest IH]; intros st t st' t' Hle.
  - cbn. intros [= <- _]. exists 0%nat. split; [reflexivity|]. lia.
  - cbn [option_loop]. unfold bind, option_body.
    change (("" =? "help")%string) with false.
    change (("" =? "eval")%string) with false.
    change (("" =? "include")%string) with false.
    change (("" =? "interactive")%string) with false.
    change (("" =? "module")%string) with false.
    change (("" =? "script")%string) with false.
    change (("" =? "dump")%string) with false.
    change (("" =? "trace")%string) with false.
    change (("" =? "std")%string) with false.
    change (("" =? "no-unhandled-rejection")%string) with false.
    change (("" =? "quit")%string) with false.
    change (("" =? "memory-limit")%string) with false.
    change (("" =? "stack-size")%string) with false.
    change (("" =? "strip-source")%string) with false.
    rewrite !orb_false_r.
    destruct (Ascii.eqb_spec c "h") as [->|_]; [cbn; discriminate|].
    destruct (Ascii.eqb_spec c "?") as [->|_]; [cbn; discriminate|].
    cbn [orb].
    destruct (Ascii.eqb_spec c "e") as [->|_].
    { cbn [spec_short_args Ascii.eqb Bool.eqb].
      destruct (String.eqb_spec rest "") as [->|Hrest]; cbn [negb].
      - destruct (Nat.ltb_spec (optind st) (length argv)); cbn.
        + intros [= <- _]. exists 1%nat. cbn. split; [reflexivity|]. lia.
        + discriminate.
      - cbn. intros [= <- _]. exists 0%nat. cbn. split; [reflexivity|]. lia. }
    destruct (Ascii.eqb_spec c "I") as [->|_].
    { cbn [spec_short_args Ascii.eqb Bool.eqb].
      destruct (Nat.leb_spec (length argv) (optind st)); [cbn; discriminate|].
      destruct (include_capacity <=? length (include_list st))%nat;
        [cbn; discriminate|].
      cbn. intros Hrun.
      apply IH in Hrun; [|cbn; lia].
      destruct Hrun as (k & -> & Hk & Hle'). cbn in Hk, Hle'.
      exists (S k). cbn. split; [reflexivity|]. lia. }
    assert (Hflag : forall st1,
      optind st1 = optind st ->
      option_loop ver argv rest "" st1 t = (Ret st', t') ->
      exists k, spec_short_args rest = Some k /\
                optind st' = (optind st + k)%nat /\
                (optind st' <= length argv)%nat).
    { intros st1 Hst1 Hrun. apply IH in Hrun; [|lia].
      destruct Hrun as (k & Hk & Hopt & Hle'). exists k.
      split; [exact Hk|]. lia. }
    destruct (Ascii.eqb_spec c "i") as [->|_];
      [cbn; apply Hflag; reflexivity|].
    destruct (Ascii.eqb_spec c "m") as [->|_];
      [cbn; apply Hflag; reflexivity|].
    destruct (Ascii.eqb_spec c "d") as [->|_];
      [cbn; apply Hflag; reflexivity|].
    destruct (Ascii.eqb_spec c "T") as [->|_];
      [cbn; apply Hflag; reflexivity|].
    destruct (Ascii.eqb_spec c "q") as [->|_];
      [cbn; apply Hflag; reflexivity|].
    destruct (Ascii.eqb_spec c "s") as [->|_];
      [cbn; apply Hflag; reflexivity|].
    destruct (negb (c =? NUL)%char); cbn; discriminate.
Qed.

(** The pass for a long option that returns was for a recognised name. *)
Lemma option_loop_long_ret name st t st' t' :
  name <> "" ->
  (optind st <= length argv)%nat ->
  option_loop ver argv "" name st t = (Ret st', t') ->
  exists k, spec_long_args name = Some k /\
            optind st' = (optind st + k)%nat /\
            (optind st' <= length argv)%nat.
Proof.
  intros Hname Hle. cbn [option_loop].
  destruct (String.eqb_spec name "") as [|_]; [contradiction|].
  unfold bind, option_body.
  change ((NUL =? "h")%char) with false.
  change ((NUL =? "?")%char) with false.
  change ((NUL =? "e")%char) with false.
  change ((NUL =? "I")%char) with false.
  change ((NUL =? "i")%char) with false.
  change ((NUL =? "m")%char) with false.
  change ((NUL =? "d")%char) with false.
  change ((NUL =? "T")%char) with false.
  change ((NUL =? "q")%char) with false.
  change ((NUL =? "s")%char) with false.
  change ((NUL =? NUL)%char) with true.
  cbn [orb negb].
  assert (Hflag : forall st1,
    optind st1 = optind st ->
    (Ret (snd (Continue, st1)), t) = (Ret st', t') ->
    exists k, Some 0%nat = Some k /\
              optind st' = (optind st + k)%nat /\
              (optind st' <= length argv)%nat).
  { intros st1 Hst1 [= <- _]. exists 0%nat. cbn. split; [reflexivity|]. lia. }
  destruct (String.eqb_spec name "help") as [->|_]; [cbn; discriminate|].
  destruct (String.eqb_spec name "eval") as [->|_].
  { change (("" =? "")%string) with true. cbn [negb].
    destruct (Nat.ltb_spec (optind st) (length argv)); cbn.
    - intros [= <- _]. exists 1%nat. cbn. split; [reflexivity|]. lia.
    - discriminate. }
  destruct (String.eqb_spec name "include") as [->|_].
  { destruct (Nat.leb_spec (length argv) (optind st)); [cbn; discriminate|].
    destruct (include_capacity <=? length (include_list st))%nat;
      [cbn; discriminate|].
    cbn. intros [= <- _]. exists 1%nat. cbn. split; [reflexivity|]. lia. }
  destruct (String.eqb_spec name "interactive") as [->|_];
    [cbn; apply Hflag; reflexivity|].
  destruct (String.eqb_spec name "module") as [->|_];
    [cbn; apply Hflag; reflexivity|].
  destruct (String.eqb_spec name "script") as [->|_];
    [cbn; apply Hflag; reflexivity|].
  destruct (String.eqb_spec name "dump") as [->|_];
    [cbn; apply Hflag; reflexivity|].
  destruct (String.eqb_spec name "trace") as [->|_];
    [cbn; apply Hflag; reflexivity|].
  destruct (String.eqb_spec name "std") as [->|_];
    [cbn; apply Hflag; reflexivity|].
  destruct (String.eqb_spec name "no-unhandled-rejection") as [->|_];
    [cbn; apply Hflag; reflexivity|].
  destruct (String.eqb_spec name "quit") as [->|_];
    [cbn; apply Hflag; reflexivity|].
  destruct (String.eqb_spec name "memory-limit") as [->|_].
  { destruct (Nat.leb_spec (length argv) (optind st)); [cbn; discriminate|].
    unfold bind.
    destruct (get_suffixed_size (arg_at argv (optind st)) t)
      as [[v|c| |] t1]; cbn; try discriminate.
    intros [= <- _]. exists 1%nat. cbn. split; [reflexivity|]. lia. }
  destruct (String.eqb_spec name "stack-size") as [->|_].
  { destruct (Nat.leb_spec (length argv) (optind st)); [cbn; discriminate|].
    unfold bind.
    destruct (get_suffixed_size (arg_at argv (optind st)) t)
      as [[v|c| |] t1]; cbn; try discriminate.
    intros [= <- _]. exists 1%nat. cbn. split; [reflexivity|]. lia. }
  destruct (String.eqb_spec name "strip-source") as [->|_];
    [cbn; apply Hflag; reflexivity|].
  cbn. discriminate.
Qed.

Lemma option_loop_emits : forall arg longopt st,
  emits is_output (option_loop ver argv arg longopt st).
Proof.
  induction arg as [|c rest IH]; intros longopt st; cbn [option_loop].
  - destruct (longopt =? "")%string; [apply emits_ret|].
    apply emits_bind; [apply option_body_emits|].
    intros r. apply emits_ret.
  - apply emits_bind; [apply option_body_emits|].
    intros [[] st']; [apply IH | apply emits_ret].
Qed.

(** The option loop, from a position reached by scanning: it prints at
    most, has fuel enough, and where it returns the scan has stopped as
    the spec says. *)
Lemma scan_options_ensures : forall fuel st,
  (length argv - optind st < fuel)%nat ->
  scanned argv (optind st) ->
  ensures (scan_options ver fuel argv st)
    (fun r d => Forall is_output d /\ r <> OutOfFuel /\
                forall st', r = Ret st' -> scan_stopped argv (optind st')).
Proof.
  induction fuel as [|fuel IH]; intros st Hfuel Hsc; [lia|].
  cbn [scan_options].
  assert (Hstay : forall tok,
    (length argv <= optind st)%nat \/
    (argv !! optind st = Some tok /\
     (tok = "-" \/ begins_with_dash tok = false)) ->
    ensures (ret st)
      (fun r d => Forall is_output d /\ r <> OutOfFuel /\
         forall st', r = Ret st' -> scan_stopped argv (optind st'))).
  { intros tok Hstop. apply ensures_ret.
    split; [constructor|]. split; [discriminate|].
    intros st' [= <-]. left. split; [exact Hsc|].
    destruct Hstop as [|Htok]; [now left | right; now exists tok]. }
  destruct (Nat.ltb_spec (optind st) (length argv)) as [Hlt|Hge];
    [|apply (Hstay ""); now left].
  pose proof (arg_at_lookup _ Hlt) as Htok.
  destruct (arg_at argv (optind st)) as [|c arg] eqn:Earg;
    [apply (Hstay ""); right; auto|].
  destruct (Ascii.eqb_spec c "-") as [->|Hc]; cbn [negb];
    [|apply (Hstay (String c arg)); right; split; [exact Htok|right];
      cbn; now apply Ascii.eqb_neq].
  destruct arg as [|c1 longopt]; [apply (Hstay "-"); right; auto|].
  set (st1 := set_optind st (S (optind st))).
  assert (Hst1 : optind st1 = S (optind st)) by reflexivity.
  assert (Hcont : forall arg' longopt',
    (forall t st2 t2,
       option_loop ver argv arg' longopt' st1 t = (Ret st2, t2) ->
       exists k, spec_token_args (String "-" (String c1 longopt)) = Some k /\
                 optind st2 = (optind st1 + k)%nat /\
                 (optind st2 <= length argv)%nat) ->
    ensures
      (let* st2 := option_loop ver argv arg' longopt' st1 in
       scan_options ver fuel argv st2)
      (fun r d => Forall is_output d /\ r <> OutOfFuel /\
         forall st', r = Ret st' -> scan_stopped argv (optind st'))).
  { intros arg' longopt' Hret.
    eapply ensures_bind.
    - apply (ensures_of_emits is_output _ _ (option_loop_emits _ _ _) Hret).
    - intros st2 d (Hd & _ & Hst2).
      destruct (Hst2 st2 eq_refl) as (k & Hk & Hopt & Hle).
      eapply ensures_weaken.
      + apply IH; [lia|]. rewrite Hopt, Hst1.
        replace (S (optind st) + k)%nat with (optind st + 1 + k)%nat by lia.
        eapply scanned_option; eauto. lia.
      + cbn. intros r d' (Hd' & Hr & Hstop).
        split; [apply Forall_app; auto|]. auto.
    - intros c d (Hd & _ & _). split; [exact Hd|]. split; discriminate.
    - intros d (Hd & _ & _). split; [exact Hd|]. split; discriminate.
    - intros d (_ & Hr & _). contradiction. }
  destruct (Ascii.eqb_spec c1 "-") as [->|Hc1].
  - destruct (String.eqb_spec longopt "") as [->|Hlong].
    + apply ensures_ret. split; [constructor|]. split; [discriminate|].
      intros st' [= <-]. right. exists (optind st). auto.
    + apply (Hcont "" longopt). intros t st2 t2 Hrun.
      apply option_loop_long_ret in Hrun; [|exact Hlong|rewrite Hst1; lia].
      cbn. destruct (String.eqb_spec longopt "") as [|_]; [contradiction|].
      exact Hrun.
  - apply (Hcont (String c1 longopt) "").
    intros t st2 t2 Hrun.
    apply option_loop_short_ret in Hrun; [|rewrite Hst1; lia].
    cbn [spec_token_args]. cbn [Ascii.eqb Bool.eqb].
    destruct (Ascii.eqb_spec c1 "-") as [|_]; [contradiction|].
    exact Hrun.
Qed.

End ScanFacts.

(** ** The eval pipeline *)

Section Runs.

Context {A B : Type} (P : event -> Prop).

Lemma runs_ret (a : A) : runs P (ret a).
Proof. apply ensures_ret. split; [constructor | eauto]. Qed.

Lemma runs_ask (f : list event -> A) (e : A -> event) :
  (forall a, P (e a)) -> runs P (ask f e).
Proof.
  intros H. apply ensures_ask. intros a.
  split; [repeat constructor; apply H | eauto].
Qed.

Lemma runs_bind (m : M A) (k : A -> M B) :
  runs P m -> (forall a, runs P (k a)) -> runs P (bind m k).
Proof.
  intros Hm Hk.
  apply ensures_bind with (Qm := fun r d => Forall P d /\ exists a, r = Ret a).
  - exact Hm.
  - intros a d [Hd _]. eapply ensures_weaken; [apply Hk|].
    intros r d' [Hd' Hr]. split; [|exact Hr]. apply Forall_app; auto.
  - intros c d [_ [a [=]]].
  - intros d [_ [a [=]]].
  - intros d [_ [a [=]]].
Qed.

(** Sequencing after a computation that always returns, for a property
    that is not disturbed by events satisfying [P] in front. *)
Lemma ensures_bind_runs (m : M A) (k : A -> M B)
    (Q : result B -> list event -> Prop) :
  runs P m ->
  (forall r d d', Forall P d -> Q r d' -> Q r (d ++ d')%list) ->
  (forall a, ensures (k a) Q) ->
  ensures (bind m k) Q.
Proof.
  intros Hm Hpre Hk.
  apply ensures_bind with (Qm := fun r d => Forall P d /\ exists a, r = Ret a).
  - exact Hm.
  - intros a d [Hd _]. eapply ensures_weaken; [apply Hk|].
    intros r d' Hq. now apply Hpre.
  - intros c d [_ [a [=]]].
  - intros d [_ [a [=]]].
  - intros d [_ [a [=]]].
Qed.

(** Sequencing after a computation that always returns. *)
Lemma ensures_bind_ret (m : M A) (k : A -> M B)
    (Qm : result A -> list event -> Prop)
    (Q : result B -> list event -> Prop) :
  ensures m Qm ->
  (forall r d, Qm r d -> exists a, r = Ret a) ->
  (forall a d, Qm (Ret a) d ->
     ensures (k a) (fun r d' => Q r (d ++ d')%list)) ->
  ensures (bind m k) Q.
Proof.
  intros Hm Hret Hk. apply ensures_bind with (Qm := Qm); auto.
  - intros c d Hq. destruct (Hret _ _ Hq) as [a [=]].
  - intros d Hq. destruct (Hret _ _ Hq) as [a [=]].
  - intros d Hq. destruct (Hret _ _ Hq) as [a [=]].
Qed.

End Runs.

Lemma runs_emit (P : event -> Prop) (e : event) : P e -> runs P (emit e).
Proof.
  intros H. apply ensures_emit. split; [repeat constructor; exact H|eauto].
Qed.

Lemma runs_when (P : event -> Prop) (b : bool) (m : M unit) :
  runs P m -> runs P (when b m).
Proof. intros H. destruct b; [exact H | apply runs_ret]. Qed.

Lemma runs_weaken {A} (P P' : event -> Prop) (m : M A) :
  (forall e, P e -> P' e) -> runs P m -> runs P' m.
Proof.
  intros HP Hm. eapply ensures_weaken; [exact Hm|].
  intros r d [Hd Hr]. split; [|exact Hr]. eapply Forall_impl; eauto.
Qed.

Ltac runs_step :=
  match goal with
  | |- runs _ (bind _ _) => apply runs_bind; [|intros]
  | |- runs _ (ret _) => apply runs_ret
  | |- runs _ (emit _) => apply runs_emit; cbn; auto
  | |- runs _ (ask _ _) => apply runs_ask; intros; cbn; auto
  | |- runs _ (when _ _) => apply runs_when
  | |- runs _ (if ?b then _ else _) => destruct b
  | |- runs _ (match ?x with _ => _ end) => destruct x
  end.

Ltac runs_auto := repeat runs_step.

Lemma sources_app d d' : sources (d ++ d') = (sources d ++ sources d')%list.
Proof. apply omap_app. Qed.

Lemma sources_quiet d : Forall quiet d -> sources d = [].
Proof.
  induction 1 as [|e d He _ IH]; [reflexivity|].
  unfold sources in *. cbn. rewrite IH.
  destruct e; cbn in *; tauto.
Qed.

Lemma quiet_user_event argv st e : quiet e -> user_event argv st e.
Proof. destruct e; cbn; unfold user_event; cbn; tauto. Qed.


Section EvalFacts.

Variable eng : Engine.
Variables (argv : list string) (st : locals).

(** [eval_buf] starts the buffer once, under its file name, and returns 0
    or -1. *)
Lemma eval_buf_ensures ctx buf filename eval_flags :
  ensures (eval_buf eng ctx buf filename eval_flags)
    (fun r d => Forall (user_event argv st) d /\
                sources d = [Src_eval filename] /\
                exists v, r = Ret v /\ (v = 0 \/ v = -1)).
Proof.
  intros t. unfold eval_buf, bind, ask, emit, ret. cbn zeta.
  assert (Hev : forall e, quiet e -> user_event argv st e)
    by apply quiet_user_event.
  assert (Heval : forall c b f fl v, user_event argv st (E_JS_Eval c b f fl v))
    by (intros; split; cbn; tauto).
  destruct (Z.land eval_flags JS_EVAL_TYPE_MASK =? JS_EVAL_TYPE_MODULE).
  - destruct (JS_IsException (eng_JS_Eval eng t ctx buf filename _)); cbn [negb];
      match goal with
      | |- context [JS_IsException (eng_js_std_await ?e ?t0 ?c ?v)] =>
          destruct (JS_IsException (eng_js_std_await e t0 c v))
      end;
      (eexists; split; [cbn; rewrite <- ?app_assoc; reflexivity|]);
      (split; [repeat constructor; try apply Heval; apply Hev; exact I|]);
      (split; [reflexivity | eauto]).
  - destruct (JS_IsException (eng_JS_Eval eng t ctx buf filename eval_flags));
      (eexists; split; [cbn; rewrite <- ?app_assoc; reflexivity|]);
      (split; [repeat constructor; try apply Heval; apply Hev; exact I|]);
      (split; [reflexivity | eauto]).
Qed.

(** [eval_file] either cannot read the file, and exits with status 1
    before anything is started, or starts the file once. *)
Lemma eval_file_ensures ctx filename module :
  ensures (eval_file eng ctx filename module)
    (fun r d => Forall (user_event argv st) d /\
                match r with
                | Ret v => sources d = [Src_eval filename] /\
                           (v = 0 \/ v = -1)
                | Exit c => c = 1 /\ sources d = []
                | _ => False
                end).
Proof.
  assert (Hev : forall e, quiet e -> user_event argv st e)
    by apply quiet_user_event.
  unfold eval_file.
  eapply ensures_bind.
  - apply ensures_ask with
      (Q := fun r d => exists b, r = Ret b /\
                                 d = [E_js_load_file ctx filename b]).
    intros a. eauto.
  - intros buf d (b & [= <-] & ->).
    destruct buf as [buf|].
    + assert (Hmode : forall (m : M Z),
        runs quiet m ->
        ensures
          (let* module0 := m in
           let* r :=
             eval_buf eng ctx buf filename
               (if module0 =? 0 then JS_EVAL_TYPE_GLOBAL
                else JS_EVAL_TYPE_MODULE) in
           emit (E_js_free ctx buf) >> ret r)
          (fun r d' =>
             Forall (user_event argv st) d' /\
             exists v, r = Ret v /\ sources d' = [Src_eval filename] /\
                       (v = 0 \/ v = -1))).
      { intros m Hm.
        eapply ensures_bind_ret; [exact Hm | intros r d [_ Hr]; exact Hr |].
        intros module0 d0 [Hd0 _].
        eapply ensures_bind_ret;
          [apply eval_buf_ensures | intros r d (_ & _ & v & -> & _); eauto |].
        intros v d1 (Hd1 & Hs1 & v' & [= <-] & Hv).
        apply ensures_bind_ret with
          (Qm := fun r d => r = Ret tt /\ d = [E_js_free ctx buf]);
          [now apply ensures_emit | intros r d [-> _]; eauto |].
        intros [] d2 [_ ->]. apply ensures_ret.
        rewrite app_nil_r. split.
        - apply Forall_app. split;
            [eapply Forall_impl; [exact Hd0 | exact Hev]|].
          apply Forall_app. split; [exact Hd1|].
          repeat constructor. apply Hev. exact I.
        - exists v. rewrite !sources_app, (sources_quiet _ Hd0), Hs1.
          split; [reflexivity|]. split; [reflexivity|]. exact Hv. }
      eapply ensures_weaken.
      * apply Hmode. runs_auto.
      * cbn. intros r d' (Hd' & v & -> & Hs & Hv).
        split; [constructor; [apply Hev; exact I | exact Hd']|].
        split; [exact Hs | exact Hv].
    + intros t. exists [E_perror filename]. split; [reflexivity|]. cbn.
      split; [repeat constructor; apply Hev; exact I|]. auto.
  - intros c d (b & [=] & _).
  - intros d (b & [=] & _).
  - intros d (b & [=] & _).
Qed.

End EvalFacts.

(** ** The user-code block of [main] *)

Section UserCode.

Variable eng : Engine.
Variables (argv : list string) (st : locals).

Lemma eval_includes_ensures ctx module : forall files,
  ensures (eval_includes eng ctx files module)
    (fun r d =>
       Forall (user_event argv st) d /\
       match r with
       | Ret false => sources d = map Src_eval files
       | Ret true =>
           exists done f rest,
             files = (done ++ f :: rest)%list /\
             sources d = map Src_eval (done ++ [f])
       | Exit c =>
           c = 1 /\
           exists done f rest,
             files = (done ++ f :: rest)%list /\
             sources d = map Src_eval done
       | _ => False
       end).
Proof.
  induction files as [|f files IH]; cbn [eval_includes].
  - apply ensures_ret. split; [constructor | reflexivity].
  - eapply ensures_bind; [apply (eval_file_ensures eng argv st)| | | |].
    + intros v d (Hd & Hs & Hv).
      destruct Hv as [->| ->]; cbn [Z.eqb negb].
      * eapply ensures_weaken; [apply IH|]. cbn.
        intros r d' (Hd' & Hr).
        split; [apply Forall_app; auto|].
        rewrite sources_app, Hs.
        destruct r as [[]|c| |]; try contradiction.
        -- destruct Hr as (done & g & rest & -> & Hs').
           exists (f :: done), g, rest. split; [reflexivity|].
           rewrite Hs'. reflexivity.
        -- rewrite Hr. reflexivity.
        -- destruct Hr as (-> & done & g & rest & -> & Hs').
           split; [reflexivity|].
           exists (f :: done), g, rest. split; [reflexivity|].
           rewrite Hs'. reflexivity.
      * apply ensures_ret. rewrite app_nil_r. split; [exact Hd|].
        exists [], f, files. split; [reflexivity|]. rewrite Hs. reflexivity.
    + intros c d (Hd & -> & Hs). split; [exact Hd|]. split; [reflexivity|].
      exists [], f, files. split; [reflexivity|]. rewrite Hs. reflexivity.
    + intros d (_ & []).
    + intros d (_ & []).
Qed.

(** The last part of the user-code block: the interactive shell when
    [interactive] is set, then the event loop. *)
Lemma shell_and_loop_ensures rt ctx (i : Z) :
  ensures
    ((if negb (i =? 0) then
        emit (E_JS_SetHostPromiseRejectionTracker rt false) >>
        emit (E_js_std_eval_binary_repl ctx)
      else ret tt) >>
     emit (E_js_std_loop ctx) >> ret false)
    (fun r d =>
       r = Ret false /\ Forall (user_event argv st) d /\
       sources d = if negb (i =? 0) then [Src_repl] else []).
Proof.
  intros t. unfold bind, emit, ret.
  destruct (negb (i =? 0));
    (eexists; split; [cbn; rewrite <- ?app_assoc; reflexivity|]);
    (split; [reflexivity|]);
    (split; [repeat constructor; cbn; tauto | reflexivity]).
Qed.

(** The main input: the expression, or else the script file if there is
    one; with no input the interactive shell is forced. *)
Lemma main_input_ensures ctx :
  ensures
    (match expr st with
     | Some e =>
         let* r := eval_buf eng ctx e "<cmdline>" 0 in
         ret (negb (r =? 0), interactive st)
     | None =>
         if (length argv <=? optind st)%nat then ret (false, 1)
         else
           let filename := arg_at argv (optind st) in
           let* r := eval_file eng ctx filename (module st) in
           ret (negb (r =? 0), interactive st)
     end)
    (fun r d =>
       Forall (user_event argv st) d /\
       match r with
       | Ret (failed, i) =>
           sources d = main_input argv st /\
           (failed = true -> exists f, main_input argv st = [f]) /\
           (failed = false -> negb (i =? 0) = repl_runs argv st)
       | Exit c =>
           c = 1 /\ sources d = [] /\
           exists f, main_input argv st = [Src_eval f]
       | _ => False
       end).
Proof.
  unfold main_input, repl_runs.
  destruct (expr st) as [e|].
  - eapply ensures_bind_ret;
      [apply (eval_buf_ensures eng argv st)
      |intros r d (_ & _ & v & -> & _); eauto|].
    intros v d (Hd & Hs & v' & [= <-] & Hv).
    apply ensures_ret. rewrite app_nil_r. split; [exact Hd|].
    split; [exact Hs|]. split; [eauto|].
    intros _. now rewrite orb_false_r.
  - destruct (length argv <=? optind st)%nat.
    + apply ensures_ret. split; [constructor|].
      split; [reflexivity|]. split; [discriminate|].
      intros _. now rewrite orb_true_r.
    + cbn zeta.
      eapply ensures_bind; [apply (eval_file_ensures eng argv st)| | | |].
      * intros v d (Hd & Hs & Hv). apply ensures_ret. rewrite app_nil_r.
        split; [exact Hd|]. split; [exact Hs|]. split; [eauto|].
        intros _. now rewrite orb_false_r.
      * intros c d (Hd & -> & Hs). split; [exact Hd|]. eauto.
      * intros d (_ & []).
      * intros d (_ & []).
Qed.

Lemma std_input_ensures ctx :
  ensures
    (if negb (load_std st =? 0) then
       let str :=
         "import * as std from 'std';" +:+ LF +:+
         "import * as os from 'os';" +:+ LF +:+
         "globalThis.std = std;" +:+ LF +:+
         "globalThis.os = os;" +:+ LF in
       let* _ := eval_buf eng ctx str "<input>" JS_EVAL_TYPE_MODULE in
       ret tt
     else ret tt)
    (fun r d => r = Ret tt /\ Forall (user_event argv st) d /\
                sources d = std_input st).
Proof.
  unfold std_input. destruct (negb (load_std st =? 0)).
  - cbn zeta.
    eapply ensures_bind_ret;
      [apply (eval_buf_ensures eng argv st)
      |intros r d (_ & _ & v & -> & _); eauto|].
    intros v d (Hd & Hs & _). apply ensures_ret. rewrite app_nil_r. auto.
  - apply ensures_ret. auto.
Qed.

(** The user-code block of [main]. *)
Lemma run_user_code_ensures rt ctx :
  ensures (run_user_code eng argv st rt ctx) (user_code_post argv st).
Proof.
  unfold run_user_code.
  set (helpers := E_js_std_add_helpers ctx
                    (Z.of_nat (length argv) - Z.of_nat (optind st))
                    (drop (optind st) argv)).
  assert (Hhelpers : Forall (user_event argv st) [helpers]).
  { repeat constructor; cbn; tauto. }
  apply ensures_bind_ret with
    (Qm := fun r d => r = Ret tt /\ d = [helpers]);
    [now apply ensures_emit | intros r d [-> _]; eauto |].
  intros [] d0 [_ ->].
  eapply ensures_bind_ret;
    [apply std_input_ensures | intros r d [-> _]; eauto |].
  intros [] d1 (_ & Hd1 & Hs1).
  eapply ensures_bind; [apply eval_includes_ensures| | | |].
  - intros failed d2 (Hd2 & Hr2). destruct failed.
    + apply ensures_ret. rewrite app_nil_r.
      split; [repeat (apply Forall_app; split); auto|].
      destruct Hr2 as (done & f & rest & Hfiles & Hs2).
      exists (std_input st ++ map Src_eval done)%list, (Src_eval f),
        (map Src_eval rest ++ main_input argv st)%list.
      unfold non_interactive_inputs. rewrite Hfiles, !sources_app, Hs1, Hs2.
      rewrite !map_app, length_app. cbn.
      split; [now rewrite <- !app_assoc|]. split; [now rewrite <- !app_assoc|].
      lia.
    + eapply ensures_bind; [apply main_input_ensures| | | |].
      * intros [failed i] d3 (Hd3 & Hs3 & Hfail & Hrepl). destruct failed.
        -- apply ensures_ret. rewrite app_nil_r.
           split; [repeat (apply Forall_app; split); auto|].
           destruct (Hfail eq_refl) as [f Hf].
           exists (std_input st ++ map Src_eval (include_list st))%list, f, [].
           unfold non_interactive_inputs.
           rewrite !sources_app. rewrite Hs1. rewrite Hr2. rewrite Hs3.
           rewrite Hf. rewrite length_app. cbn.
           split; [now rewrite <- !app_assoc|].
           split; [now rewrite <- !app_assoc|]. lia.
        -- eapply ensures_weaken; [apply shell_and_loop_ensures|].
           intros r d4 (-> & Hd4 & Hs4). cbn beta.
           split; [repeat (apply Forall_app; split); auto|].
           unfold planned, non_interactive_inputs.
           rewrite !sources_app, Hs1, Hr2, Hs3, Hs4, (Hrepl eq_refl).
           cbn. now rewrite <- !app_assoc.
      * intros c d3 (Hd3 & -> & Hs3 & f & Hf).
        split; [repeat (apply Forall_app; split); auto|].
        split; [reflexivity|].
        exists (std_input st ++ map Src_eval (include_list st))%list, f, [].
        unfold non_interactive_inputs.
        rewrite !sources_app, Hs1, Hr2, Hs3, Hf, length_app. cbn.
        rewrite !app_nil_r.
        split; [now rewrite <- !app_assoc|]. split; [reflexivity|]. lia.
      * intros d3 (_ & []).
      * intros d3 (_ & []).
  - intros c d2 (Hd2 & -> & done & f & rest & Hfiles & Hs2).
    split; [repeat (apply Forall_app; split); auto|].
    split; [reflexivity|].
    exists (std_input st ++ map Src_eval done)%list, f,
      (map Src_eval rest ++ main_input argv st)%list.
    unfold non_interactive_inputs. rewrite Hfiles, !sources_app, Hs1, Hs2.
    rewrite !map_app, length_app. cbn.
    split; [now rewrite <- !app_assoc|]. split; [reflexivity|]. lia.
  - intros d2 (_ & []).
  - intros d2 (_ & []).
Qed.

End UserCode.

(** ** [main] after the option loop *)

Section MainFacts.

Variable eng : Engine.
Variable ver : string.
Variables (argv : list string) (st : locals).

Lemma benchmark_ensures : forall n,
  ensures (benchmark eng n) (fun r d => r = Ret tt /\ benchmark_passes n d).
Proof.
  induction n as [|n IH]; cbn [benchmark].
  - apply ensures_ret. split; [reflexivity | constructor].
  - intros t. unfold bind, emit, ask. cbn zeta.
    match goal with
    | |- context [benchmark eng n ?t9] =>
        destruct (IH t9) as (d & Hd & Hr & Hp);
        destruct (benchmark eng n t9) as [r t10]
    end.
    cbn in Hd, Hr. subst r t10.
    eexists. split; [cbn; rewrite <- !app_assoc; reflexivity|].
    split; [reflexivity|]. cbn. now constructor.
Qed.

Lemma teardown_ensures rt ctx failed :
  ensures
    (if failed : bool then
       emit (E_js_std_free_handlers rt) >>
       emit (E_JS_FreeContext ctx) >>
       emit (E_JS_FreeRuntime rt) >>
       ret 1
     else
       when (negb (dump_memory st =? 0))
         (emit (E_JS_ComputeMemoryUsage rt) >>
          emit (E_JS_DumpMemoryUsage rt)) >>
       emit (E_js_std_free_handlers rt) >>
       emit (E_JS_FreeContext ctx) >>
       emit (E_JS_FreeRuntime rt) >>
       when (negb (empty_run st =? 0) && negb (dump_memory st =? 0))
         (benchmark eng 100 >> emit E_print_instantiation_times) >>
       ret 0)
    (teardown_post st rt ctx failed).
Proof.
  destruct failed.
  - intros t. eexists. split; [cbn; rewrite <- !app_assoc; reflexivity|].
    split; [reflexivity|]. exists [], []. cbn. auto.
  - eapply ensures_bind_ret with
      (Qm := fun r d => Forall quiet d /\ exists a, r = Ret a);
      [change (runs quiet
                 (when (negb (dump_memory st =? 0))
                    (emit (E_JS_ComputeMemoryUsage rt) >>
                     emit (E_JS_DumpMemoryUsage rt)))); runs_auto
      |intros r d [_ Hr]; exact Hr|].
    intros [] pre [Hpre _] t.
    destruct (negb (empty_run st =? 0) && negb (dump_memory st =? 0))
      eqn:Hbench.
    + unfold when, bind at 1 2 3, emit. cbn iota zeta beta.
      unfold bind at 1. unfold bind at 1.
      match goal with
      | |- context [benchmark eng 100 ?t3] =>
          destruct (benchmark_ensures 100 t3) as (b & Hb & Hr & Hp);
          destruct (benchmark eng 100 t3) as [r t4]
      end.
      cbn in Hb, Hr. subst r t4. cbn.
      eexists. split; [rewrite <- !app_assoc; reflexivity|].
      split; [reflexivity|]. exists pre. eexists.
      split; [cbn; reflexivity|]. split; [exact Hpre|]. right.
      apply andb_true_iff in Hbench as [H1 H2].
      apply negb_true_iff, Z.eqb_neq in H1, H2.
      split; [reflexivity|]. split; [exact H1|]. split; [exact H2|].
      exists b. auto.
    + eexists. split; [cbn; rewrite <- !app_assoc; reflexivity|].
      split; [reflexivity|]. exists pre, []. cbn. auto.
Qed.

Lemma context_post_prefix rt ctx r d d' :
  Forall quiet d -> context_post argv st rt ctx r d' ->
  context_post argv st rt ctx r (d ++ d').
Proof.
  intros Hd (setup & ucode & rest & ru & -> & Hsetup & Hu & Hr).
  exists (d ++ setup)%list, ucode, rest, ru.
  split; [now rewrite <- app_assoc|].
  split; [apply Forall_app; auto|]. auto.
Qed.

Lemma main_post_prefix r d d' :
  Forall quiet d -> main_post argv st r d' -> main_post argv st r (d ++ d').
Proof.
  intros Hd [[-> Hq]|(rt & ctx & d0 & d1 & -> & Hd0 & Hin & Hc)].
  - left. split; [reflexivity | apply Forall_app; auto].
  - right. exists rt, ctx, (d ++ d0)%list, d1.
    split; [now rewrite <- app_assoc|].
    split; [apply Forall_app; auto|].
    split; [apply in_or_app; auto | exact Hc].
Qed.

Lemma JS_NewCustomContext_ensures rt :
  ensures (JS_NewCustomContext eng rt)
    (fun r d => Forall quiet d /\
                exists ctx, r = Ret ctx /\ In (E_JS_NewContext rt ctx) d).
Proof.
  intros t. unfold JS_NewCustomContext, bind, ask, emit, ret. cbn zeta.
  destruct (Z.eqb_spec (eng_JS_NewContext eng t rt) NULL) as [Heq|_];
    (eexists; split; [cbn; rewrite <- ?app_assoc; reflexivity|]);
    (split; [repeat constructor|]);
    (eexists; split; [reflexivity | cbn; rewrite ?Heq; auto]).
Qed.

(** [main] after the option loop. *)
Lemma main_after_options_ensures :
  ensures (main_after_options eng argv st) (main_post argv st).
Proof.
  unfold main_after_options.
  eapply ensures_bind_runs with (P := quiet);
    [runs_auto | apply main_post_prefix | intros rt].
  destruct (rt =? NULL).
  { intros t. eexists. split; [reflexivity|]. left.
    split; [reflexivity | repeat constructor]. }
  do 5 (eapply ensures_bind_runs with (P := quiet);
          [runs_auto | apply main_post_prefix | intros _]).
  eapply ensures_bind_ret;
    [apply JS_NewCustomContext_ensures
    |intros r d (_ & ctx & -> & _); eauto|].
  intros ctx d0 (Hd0 & ctx' & [= <-] & Hin).
  destruct (ctx =? NULL).
  { intros t. eexists. split; [reflexivity|]. left.
    split; [reflexivity|]. apply Forall_app. split; [exact Hd0|].
    repeat constructor. }
  eapply ensures_weaken with (Q := context_post argv st rt ctx);
    [|intros r d1 Hc; right; exists rt, ctx, d0, d1; auto].
  do 2 (eapply ensures_bind_runs with (P := quiet);
          [runs_auto | apply context_post_prefix | intros _]).
  eapply ensures_bind with
    (Qm := fun ru ucode =>
             if empty_run st =? 0 then user_code_post argv st ru ucode
             else ru = Ret false /\ ucode = []).
  - destruct (empty_run st =? 0).
    + apply run_user_code_ensures.
    + apply ensures_ret. auto.
  - intros failed ucode Hu.
    eapply ensures_weaken; [apply teardown_ensures|].
    intros r rest Ht. exists [], ucode, rest, (Ret failed). auto.
  - intros c ucode Hu. exists [], ucode, [], (Exit c).
    rewrite app_nil_r. auto.
  - intros ucode Hu. destruct (empty_run st =? 0).
    + destruct Hu as [_ []].
    + destruct Hu as [[=] _].
  - intros ucode Hu. destruct (empty_run st =? 0).
    + destruct Hu as [_ []].
    + destruct Hu as [[=] _].
Qed.

End MainFacts.

(** ** [main] *)

Section MainCases.

Variable eng : Engine.
Variable ver : string.
Variable argv : list string.

(** [main], by cases: the option loop does not return, and then [main]
    printed at most; or it returns, and then what the spec of the scan and
    [main_post] say holds. *)
Lemma main_cases r t :
  main eng ver argv [] = (r, t) ->
  (Forall is_output t /\ ((exists c, r = Exit c) \/ r = Undefined)) \/
  (exists st t1 d,
     scan_options ver (S (length argv)) argv init_locals [] = (Ret st, t1) /\
     Forall is_output t1 /\ scan_stopped argv (optind st) /\
     t = (t1 ++ d)%list /\ main_post argv st r d).
Proof.
  unfold main, bind.
  destruct (scan_options_ensures ver argv (S (length argv)) init_locals
              ltac:(cbn; lia) ltac:(constructor) [])
    as (d1 & Hd1 & Hout & Hfuel & Hstop).
  destruct (scan_options ver (S (length argv)) argv init_locals [])
    as [[st|c| |] t1]; cbn in Hd1, Hfuel, Hstop; subst t1.
  - intros Hrun. right.
    destruct (main_after_options_ensures eng argv st d1) as (d & Hd & Hpost).
    rewrite Hrun in Hd, Hpost. cbn in Hd, Hpost.
    exists st, d1, d. auto.
  - intros [= <- <-]. left. eauto.
  - intros [= <- <-]. left. eauto.
  - contradiction.
Qed.

End MainCases.

Lemma Forall_In {A} (P : A -> Prop) (l : list A) (x : A) :
  Forall P l -> In x l -> P x.
Proof.
  intros H Hin. rewrite Forall_forall in H. apply H.
  now apply list_elem_of_In.
Qed.


Lemma quiet_helpers_ok argv st e : quiet e -> helpers_ok argv st e.
Proof. destruct e; cbn; tauto. Qed.

Lemma benchmark_passes_quiet (P : event -> Prop) :
  P E_clock ->
  (forall rt, P (E_JS_NewRuntime rt)) ->
  (forall rt ctx, P (E_JS_NewContext rt ctx)) ->
  (forall ctx, P (E_JS_FreeContext ctx)) ->
  (forall rt, P (E_JS_FreeRuntime rt)) ->
  forall n b, benchmark_passes n b -> Forall P b.
Proof.
  intros H1 H2 H3 H4 H5 n b Hb.
  induction Hb as [|n rt ctx d _ IH]; [constructor|].
  repeat (constructor; [auto|]). exact IH.
Qed.


(** C4. The tokens handed to the script are [argv[optind..]], with
    [optind] as the option loop left it: after the program name it passed
    over recognised option tokens and the arguments their options take
    ([scanned]), and it stopped at the end of the command line, at a bare
    [-] or at a token that does not begin with [-], which stay, or just
    after a [--], which it passed over ([scan_stopped]). *)
Theorem C4_argv_passthrough (eng : Engine) (ver : string)
    (argv : list string) (r : result Z) (t : list event)
    (ctx n : Z) (args : list string) :
  main eng ver argv [] = (r, t) ->
  In (E_js_std_add_helpers ctx n args) t ->
  exists st t1,
    scan_options ver (S (length argv)) argv init_locals [] = (Ret st, t1) /\
    args = drop (optind st) argv /\
    n = Z.of_nat (length argv) - Z.of_nat (optind st) /\
    scan_stopped argv (optind st).
Proof.
  intros Hrun Hin.
  assert (Hno : forall d, Forall quiet d ->
                          ~ In (E_js_std_add_helpers ctx n args) d).
  { intros d Hd Hd'. exact (Forall_In _ _ _ Hd Hd'). }
  assert (Hno' : forall d, Forall is_output d ->
                           ~ In (E_js_std_add_helpers ctx n args) d).
  { intros d Hd Hd'. exact (Forall_In _ _ _ Hd Hd'). }
  destruct (main_cases eng ver argv r t Hrun)
    as [[Hout _]|(st & t1 & d & Hscan & Hout & Hstop & -> & Hpost)].
  { exfalso. exact (Hno' _ Hout Hin). }
  exists st, t1. split; [exact Hscan|].
  enough (Hok : helpers_ok argv st (E_js_std_add_helpers ctx n args))
    by (destruct Hok; auto).
  apply in_app_or in Hin as [Hin|Hin]; [exfalso; exact (Hno' _ Hout Hin)|].
  destruct Hpost as [[_ Hd]|
    (rt & ctx' & d0 & d1 & -> & Hd0 & _ &
     setup & ucode & rest & ru & -> & Hsetup & Hu & Hr)];
    [exfalso; exact (Hno _ Hd Hin)|].
  apply in_app_or in Hin as [Hin|Hin]; [exfalso; exact (Hno _ Hd0 Hin)|].
  apply in_app_or in Hin as [Hin|Hin]; [exfalso; exact (Hno _ Hsetup Hin)|].
  apply in_app_or in Hin as [Hin|Hin].
  - destruct (empty_run st =? 0).
    + destruct Hu as [Hu _]. exact (proj1 (Forall_In _ _ _ Hu Hin)).
    + destruct Hu as [_ ->]. destruct Hin.
  - exfalso. destruct ru as [failed|c| |]; try contradiction.
    + destruct Hr as (_ & pre & post & -> & Hpre & Hpost).
      apply in_app_or in Hin as [Hin|Hin]; [exact (Hno _ Hpre Hin)|].
      apply in_app_or in Hin as [Hin|Hin].
      * cbn in Hin. intuition discriminate.
      * destruct Hpost as [->|(_ & _ & _ & b & Hb & ->)]; [destruct Hin|].
        apply in_app_or in Hin as [Hin|Hin];
          [|cbn in Hin; intuition discriminate].
        pose proof (benchmark_passes_quiet
                      (fun e => e <> E_js_std_add_helpers ctx n args)
                      ltac:(discriminate) ltac:(discriminate)
                      ltac:(discriminate) ltac:(discriminate)
                      ltac:(discriminate) 100 b Hb) as Hall.
        exact (Forall_In _ _ _ Hall Hin eq_refl).
    + destruct Hr as [_ ->]. destruct Hin.
Qed.

(** ** Buffer eval *)

(** C6. [eval_buf] in module mode compiles first, with the compile-only
    flag. When the compilation did not raise, it stamps [import.meta] (real
    path as URL, [main] set), executes the compiled module and awaits the
    value the execution returned. When the compilation raised, it neither
    stamps nor executes: the exception value goes to [js_std_await], which
    has no promise to wait for and, in the engine, hands it back. In every
    mode, when the final value is the exception marker the current
    exception is dumped and -1 is returned, 0 otherwise, and the final
    value is released last, on every path. *)
Theorem C6_eval_buf (eng : Engine) (ctx : Z) (buf filename : string)
    (eval_flags : Z) (t : list event) :
  exists (val : JSValue) (body : list event),
    eval_buf eng ctx buf filename eval_flags t
    = (Ret (if JS_IsException val then -1 else 0),
       (t ++ body
          ++ (if JS_IsException val then [E_js_std_dump_error ctx] else [])
          ++ [E_JS_FreeValue ctx val])%list) /\
    if Z.land eval_flags JS_EVAL_TYPE_MASK =? JS_EVAL_TYPE_MODULE then
      let flags := Z.lor eval_flags JS_EVAL_FLAG_COMPILE_ONLY in
      let compiled := eng_JS_Eval eng t ctx buf filename flags in
      if JS_IsException compiled then
        body = [E_JS_Eval ctx buf filename flags compiled;
                E_js_std_await ctx compiled val] /\
        ((forall t', eng_js_std_await eng t' ctx compiled = compiled) ->
         JS_IsException val = true)
      else
        exists promise,
          body = [E_JS_Eval ctx buf filename flags compiled;
                  E_js_module_set_import_meta ctx compiled true true;
                  E_JS_EvalFunction ctx compiled promise;
                  E_js_std_await ctx promise val]
    else
      body = [E_JS_Eval ctx buf filename eval_flags val].
Proof.
  unfold eval_buf.
  destruct (Z.land eval_flags JS_EVAL_TYPE_MASK =? JS_EVAL_TYPE_MODULE).
  - unfold bind, ask, emit, ret. cbn zeta.
    set (flags := Z.lor eval_flags JS_EVAL_FLAG_COMPILE_ONLY).
    set (compiled := eng_JS_Eval eng t ctx buf filename flags).
    destruct (JS_IsException compiled) eqn:Hc; cbn [negb].
    + set (t1 := (t ++ [E_JS_Eval ctx buf filename flags compiled])%list).
      set (val := eng_js_std_await eng t1 ctx compiled).
      exists val. eexists.
      split; [|split; [reflexivity|]].
      * destruct (JS_IsException val); cbn; subst t1;
          rewrite <- ?app_assoc; reflexivity.
      * intros Hpass. subst val. now rewrite Hpass.
    + set (t1 := (t ++ [E_JS_Eval ctx buf filename flags compiled])%list).
      set (t2 := (t1 ++ [E_js_module_set_import_meta ctx compiled true true])
                   %list).
      set (promise := eng_JS_EvalFunction eng t2 ctx compiled).
      set (t3 := (t2 ++ [E_JS_EvalFunction ctx compiled promise])%list).
      set (val := eng_js_std_await eng t3 ctx promise).
      exists val. eexists. split; [|exists promise; reflexivity].
      destruct (JS_IsException val); cbn; subst t3 t2 t1;
        rewrite <- ?app_assoc; reflexivity.
  - unfold bind, ask, emit, ret. cbn zeta.
    set (val := eng_JS_Eval eng t ctx buf filename eval_flags).
    exists val. eexists. split; [|reflexivity].
    destruct (JS_IsException val); cbn; rewrite <- ?app_assoc; reflexivity.
Qed.

Lemma C6_eval_buf_witness :
  eval_buf raising_engine 2 "export" "m.mjs" JS_EVAL_TYPE_MODULE []
  = (Ret (-1),
     [E_JS_Eval 2 "export" "m.mjs" 33 JS_EXCEPTION;
      E_js_std_await 2 JS_EXCEPTION JS_EXCEPTION;
      E_js_std_dump_error 2;
      E_JS_FreeValue 2 JS_EXCEPTION]).
Proof.
  destruct (C6_eval_buf raising_engine 2 "export" "m.mjs"
              JS_EVAL_TYPE_MODULE [])
    as (val & body & Hrun & Hbody).
  cbn in Hbody. destruct Hbody as [-> Hval].
  specialize (Hval (fun _ => eq_refl)).
  rewrite Hrun, Hval. destruct val; [reflexivity | discriminate].
Defined.

(** ** The order of evaluation *)






Lemma C4_argv_passthrough_witness :
  In (E_js_std_add_helpers 2 2 ["-x"; "y"])
     (snd (main ok_engine "2021-03-27"
             ["qjs"; "-I"; "lib.js"; "--std"; "--"; "-x"; "y"] [])) /\
  ["-x"; "y"] = drop 5 ["qjs"; "-I"; "lib.js"; "--std"; "--"; "-x"; "y"].
Proof.
  set (argv := ["qjs"; "-I"; "lib.js"; "--std"; "--"; "-x"; "y"]).
  destruct (main ok_engine "2021-03-27" argv []) as [r t] eqn:Hrun.
  assert (Hin : In (E_js_std_add_helpers 2 2 ["-x"; "y"]) t).
  { vm_compute in Hrun. injection Hrun as <- <-. cbn. tauto. }
  split; [exact Hin|].
  destruct (C4_argv_passthrough ok_engine "2021-03-27" argv r t 2 2
              ["-x"; "y"] Hrun Hin) as (st & t1 & Hscan & Hargs & _).
  vm_compute in Hscan. injection Hscan as <- <-. exact Hargs.
Defined.

(** ** Option errors *)



Section OptionErrors.

Variable ver : string.
Variable argv : list string.




End OptionErrors.


(** The errors of C5 seen from [main]: an unknown option, a missing
    expression, and the 33rd include file. *)
Example main_option_errors :
  main ok_engine "2021-03-27" ["qjs"; "--bogus"] []
  = (Exit 1, [E_stderr ("qjs: unknown option '--bogus'" +:+ LF);
              E_stdout (usage "2021-03-27")]) /\
  main ok_engine "2021-03-27" ["qjs"; "-m"; "-e"] []
  = (Exit 2, [E_stderr ("qjs: missing expression for -e" +:+ LF)]) /\
  main ok_engine "2021-03-27" ["qjs"; "--stack-size"] []
  = (Exit 1, [E_stderr "expecting stack size"]) /\
  main ok_engine "2021-03-27"
    ("qjs" :: concat (repeat ["-I"; "f.js"] 33)) []
  = (Exit 1, [E_stderr "too many included files"]).
Proof. repeat split; vm_compute; reflexivity. Qed.

(** ** Mode resolution in file eval *)








(** * Further properties *)

(** ** The allocator's accounting agrees with the heap *)

Section AllocConservation.

Variable apple : bool.

Opaque js_trace_malloc_printf.

Lemma accounted_empty : accounted apple ∅ = 0.
Proof. unfold accounted. now rewrite map_fold_empty. Qed.

Lemma accounted_insert (h : gmap Z Z) p u :
  h !! p = None ->
  accounted apple (<[p := u]> h)
  = accounted apple h + (u + MALLOC_OVERHEAD apple).
Proof.
  intros Hp. unfold accounted.
  rewrite map_fold_insert_L; [reflexivity | intros; lia | exact Hp].
Qed.

Lemma accounted_delete (h : gmap Z Z) p u :
  h !! p = Some u ->
  accounted apple (delete p h)
  = accounted apple h - (u + MALLOC_OVERHEAD apple).
Proof.
  intros Hp. unfold accounted.
  rewrite (map_fold_delete_L _ _ p u h); [lia | intros; lia | exact Hp].
Qed.

Lemma size_delete_live (h : gmap Z Z) p :
  is_Some (h !! p) -> Z.of_nat (size (delete p h)) = Z.of_nat (size h) - 1.
Proof.
  intros Hp. rewrite map_size_delete_Some by exact Hp.
  destruct (size h) eqn:E; [|cbn; lia].
  apply map_size_empty_inv in E. subst h.
  rewrite lookup_empty in Hp. destruct Hp as [x Hx]. discriminate.
Qed.

Lemma js_trace_free_conserved w ptr :
  conserved apple w -> ptr = NULL \/ is_Some (heap w !! ptr) ->
  conserved apple (js_trace_free apple w ptr).
Proof.
  intros (Hc & Hs & Hn) Hlive. unfold js_trace_free.
  destruct (Z.eqb_spec ptr NULL) as [->|Hptr]; [repeat split; assumption|].
  destruct Hlive as [|[u Hu]]; [contradiction|].
  unfold conserved. cbn.
  rewrite !js_trace_malloc_printf_ms, !js_trace_malloc_printf_heap,
    js_trace_malloc_printf_usable.
  unfold js_trace_malloc_usable_size. rewrite Hu. cbn.
  rewrite (size_delete_live _ _ (ex_intro _ u Hu)),
    (accounted_delete _ _ _ Hu), Hc, Hs.
  rewrite wrap_sub_l, wrap_sub_r, wrap_sub_l.
  repeat split. now rewrite lookup_delete_ne by congruence.
Qed.

Lemma js_trace_malloc_conserved w size a r w' :
  conserved apple w -> answer_ok w NULL size a ->
  js_trace_malloc apple w size a = Some (r, w') ->
  conserved apple w'.
Proof.
  intros (Hc & Hs & Hn) Ha Hm.
  destruct (js_trace_malloc_cases apple _ _ _ _ _
              (answer_ok_nonnull _ _ _ _ Ha) Hm)
    as (_ & [(_ & _ & ->)|(_ & _ & [(_ & _ & Hms & Hheap)|
              (u & -> & Hr & Hheap & _ & Hcount & Hsize)])]).
  - repeat split; assumption.
  - unfold conserved. rewrite Hms, Hheap. repeat split; assumption.
  - cbn in Ha. destruct Ha as (_ & [|Hfresh] & _); [contradiction|].
    unfold conserved. rewrite Hcount, Hsize, Hheap.
    rewrite (map_size_insert_None _ _ _ Hfresh),
      (accounted_insert _ _ _ Hfresh), Hc, Hs.
    rewrite !wrap_add_l, Nat2Z.inj_succ.
    repeat split. now rewrite lookup_insert_ne by congruence.
Qed.

Lemma step_conserved w o r w' :
  conserved apple w -> op_ok w o -> step apple w o = Some (r, w') -> conserved apple w'.
Proof.
  intros Hw Hok Hstep. destruct o as [size a|ptr|ptr size a]; cbn in Hok, Hstep.
  - destruct Hok as [_ Ha]. exact (js_trace_malloc_conserved _ _ _ _ _ Hw Ha Hstep).
  - inversion Hstep; subst. now apply js_trace_free_conserved.
  - destruct Hok as (_ & Hlive & Ha).
    destruct (Z.eq_dec ptr NULL) as [->|Hptr].
    + unfold js_trace_realloc in Hstep. cbn in Hstep.
      destruct (Z.eqb_spec size 0); [inversion Hstep; now subst|].
      exact (js_trace_malloc_conserved _ _ _ _ _ Hw Ha Hstep).
    + destruct Hlive as [|[old Hold]]; [contradiction|].
      destruct (Z.eq_dec size 0) as [->|Hsz].
      * assert (Hfree : w' = js_trace_free apple w ptr \/
                        (ms w' = ms (js_trace_free apple w ptr) /\
                         heap w' = heap (js_trace_free apple w ptr))).
        { right. unfold js_trace_realloc, js_trace_free in *.
          destruct (Z.eqb_spec ptr NULL); [contradiction|]. cbn in Hstep.
          inversion Hstep; subst. cbn.
          now rewrite !js_trace_malloc_printf_ms, !js_trace_malloc_printf_heap,
            !js_trace_malloc_printf_usable. }
        pose proof (js_trace_free_conserved w ptr Hw
                      (or_intror (ex_intro _ old Hold))) as Hf.
        destruct Hfree as [->|[Hms Hheap]]; [exact Hf|].
        unfold conserved in *. now rewrite Hms, Hheap.
      * destruct Hw as (Hc & Hs & Hn).
        destruct (js_trace_realloc_cases apple _ _ _ _ _ _
                    (answer_ok_nonnull _ _ _ _ Ha) Hptr Hsz Hstep)
          as [(_ & _ & ->)|(_ & _ & [(_ & _ & Hms & Hheap)|
                (u & -> & Hr & Hheap & _ & Hcount & Hsize)])].
        -- repeat split; assumption.
        -- unfold conserved. rewrite Hms, Hheap. repeat split; assumption.
        -- assert (Hfresh : delete ptr (heap w) !! r = None).
           { cbn in Ha. destruct Ha as (_ & [->|Hfresh] & _).
             - apply lookup_delete_eq.
             - destruct (Z.eq_dec ptr r) as [->|Hne];
                 [apply lookup_delete_eq | now rewrite lookup_delete_ne]. }
           unfold conserved. rewrite Hcount, Hsize, Hheap.
           rewrite (map_size_insert_None _ _ _ Hfresh),
             (accounted_insert _ _ _ Hfresh), (accounted_delete _ _ _ Hold),
             Nat2Z.inj_succ, (size_delete_live _ _ (ex_intro _ old Hold)),
             Hc, Hs.
           unfold js_trace_malloc_usable_size. rewrite Hold. cbn.
           rewrite wrap_add_l. repeat split.
           ++ f_equal. lia.
           ++ f_equal. lia.
           ++ rewrite lookup_insert_ne by congruence.
              now rewrite lookup_delete_ne by congruence.
Qed.

Lemma reachable_conserved (limit b : Z) (w : world) :
  reachable apple limit b w -> conserved apple w.
Proof.
  induction 1 as [|w o r w' _ IH Hok Hstep].
  - unfold conserved. cbn. rewrite map_size_empty, accounted_empty. auto.
  - exact (step_conserved _ _ _ _ IH Hok Hstep).
Qed.

(** X1. Allocator conservation. In every state reached from the initial one
    by well-formed operations, the live count is the number of live blocks
    and the live bytes are the sum over the live blocks of usable size plus
    overhead, both as [size_t] values; NULL is never a live block. *)
Theorem X1_alloc_conservation (limit b : Z) (w : world) :
  reachable apple limit b w ->
  malloc_count (ms w) = wrap (Z.of_nat (size (heap w))) /\
  malloc_size (ms w) = wrap (accounted apple (heap w)) /\
  heap w !! NULL = None.
Proof. exact (reachable_conserved limit b w). Qed.

Transparent js_trace_malloc_printf.

End AllocConservation.

Lemma X1_alloc_conservation_witness :
  match step false (init_world 200 4096) (Malloc 100 (Some (8192, 104))) with
  | Some (_, w') =>
      malloc_count (ms w') = wrap (Z.of_nat (size (heap w'))) /\
      malloc_size (ms w') = wrap (accounted false (heap w')) /\
      heap w' !! NULL = None
  | None => False
  end.
Proof.
  destruct (step false (init_world 200 4096) (Malloc 100 (Some (8192, 104))))
    as [[r w']|] eqn:Hstep; [|vm_compute in Hstep; discriminate].
  apply (X1_alloc_conservation false 200 4096).
  eapply reach_step; [apply reach_init | | exact Hstep].
  cbn. unfold SIZE_MAX, NULL. repeat split; auto; lia.
Defined.

(** ** The text of the trace *)

Lemma append_assoc (s1 s2 s3 : string) :
  (s1 +:+ s2) +:+ s3 = s1 +:+ (s2 +:+ s3).
Proof.
  induction s1 as [|c s1 IH]; [reflexivity|].
  change (String c ((s1 +:+ s2) +:+ s3) = String c (s1 +:+ (s2 +:+ s3))).
  now rewrite IH.
Qed.

Lemma append_cons c (s1 s2 : string) : String c s1 +:+ s2 = String c (s1 +:+ s2).
Proof. reflexivity. Qed.

Lemma append_nil (s : string) : "" +:+ s = s.
Proof. reflexivity. Qed.

Lemma fmt_ptr_block w p :
  fmt_ptr w p
  = trace_block (base (opaque (ms w))) p (js_trace_malloc_usable_size w p).
Proof. reflexivity. Qed.

Lemma trace_text_frame w w' :
  ms w' = ms w -> heap w' = heap w ->
  forall fmt ap, trace_text w' fmt ap = trace_text w fmt ap.
Proof.
  intros Hms Hheap.
  assert (Hp : forall p, fmt_ptr w' p = fmt_ptr w p).
  { intros p. unfold fmt_ptr, js_trace_malloc_usable_size.
    now rewrite Hms, Hheap. }
  assert (H : forall n fmt ap, (String.length fmt <= n)%nat ->
            trace_text w' fmt ap = trace_text w fmt ap).
  { induction n as [|n IH]; intros fmt ap Hlen.
    - destruct fmt; simpl in *; [reflexivity | lia].
    - destruct fmt as [|c fmt1]; [reflexivity|]. simpl in Hlen.
      cbn [trace_text].
      rewrite (IH fmt1 ap) by lia.
      destruct (c =? "%")%char; [|reflexivity].
      destruct fmt1 as [|c1 fmt2]; [reflexivity|]. simpl in Hlen.
      destruct (c1 =? "p")%char.
      + destruct ap as [|[ptr|sz] ap']; try reflexivity.
        now rewrite Hp, (IH fmt2 ap') by lia.
      + destruct fmt2 as [|c2 fmt3]; [reflexivity|]. simpl in Hlen.
        destruct ((c1 =? "z")%char && (c2 =? "d")%char); [|reflexivity].
        destruct ap as [|[ptr|sz] ap']; try reflexivity.
        now rewrite (IH fmt3 ap') by lia. }
  intros fmt ap. now apply (H (String.length fmt)).
Qed.

(** [js_trace_malloc_printf] appends the text of the line. *)
Lemma js_trace_malloc_printf_out w fmt ap :
  out (js_trace_malloc_printf w fmt ap) = out w +:+ trace_text w fmt ap.
Proof.
  assert (H : forall n fmt w ap, (String.length fmt <= n)%nat ->
            out (js_trace_malloc_printf w fmt ap)
            = out w +:+ trace_text w fmt ap).
  { clear. induction n as [|n IH]; intros fmt w ap Hlen.
    - destruct fmt; simpl in *; [now rewrite append_empty_r | lia].
    - destruct fmt as [|c fmt1]; [simpl; now rewrite append_empty_r|].
      simpl in Hlen.
      assert (Hputc :
        out (js_trace_malloc_printf (printf w (String c "")) fmt1 ap)
        = out w +:+ String c (trace_text w fmt1 ap)).
      { rewrite IH by lia. cbn [out printf].
        rewrite (trace_text_frame w (printf w (String c "")) eq_refl eq_refl).
        now rewrite append_assoc. }
      cbn [js_trace_malloc_printf trace_text].
      destruct (c =? "%")%char; [|exact Hputc].
      destruct fmt1 as [|c1 fmt2]; [exact Hputc|]. simpl in Hlen.
      destruct (c1 =? "p")%char.
      + destruct ap as [|[ptr|sz] ap'];
          [now rewrite append_empty_r | | now rewrite append_empty_r].
        destruct (ptr =? NULL); rewrite IH by lia; cbn [out printf];
          match goal with
          | |- context [trace_text (printf w ?s) fmt2 ap'] =>
              rewrite (trace_text_frame w (printf w s) eq_refl eq_refl)
          end; now rewrite append_assoc.
      + destruct fmt2 as [|c2 fmt3]; [exact Hputc|]. simpl in Hlen.
        destruct ((c1 =? "z")%char && (c2 =? "d")%char); [|exact Hputc].
        destruct ap as [|[ptr|sz] ap'];
          [now rewrite append_empty_r | now rewrite append_empty_r |].
        rewrite IH by lia. cbn [out printf].
        rewrite (trace_text_frame w (printf w (fmt_zd sz)) eq_refl eq_refl).
        now rewrite append_assoc. }
  now apply (H (String.length fmt)).
Qed.

Ltac literal_formats :=
  repeat match goal with
  | |- context [trace_text _ (?f +:+ LF) _] =>
      let s := eval vm_compute in (f +:+ LF) in
      change (f +:+ LF) with s
  end.

Ltac string_norm :=
  unfold id;
  repeat (progress (rewrite ?append_assoc, ?append_cons, ?append_nil)).

Section TraceFormat.

Variable apple : bool.

Opaque js_trace_malloc_printf.

(** X2. The format of the trace. A call that passes the cap test prints one
    line: [A size -> block] for an allocation, [F block] for a release, [R
    size block -> block] for a reallocation and [R 0 block] for a
    reallocation to size zero, where a block reads [H], its signed offset
    from the base pointer padded to six characters, a point and its usable
    size, and the block after a refusal of the platform reads [NULL]. *)
Theorem X2_trace_line_format (w : world) (ptr size : Z) (a : answer) :
  let b := base (opaque (ms w)) in
  let old := trace_block b ptr (js_trace_malloc_usable_size w ptr) in
  answer_nonnull a ->
  (size <> 0 ->
   wrap (malloc_size (ms w) + size) <= malloc_limit (ms w) ->
   exists r w',
     js_trace_malloc apple w size a = Some (r, w') /\
     out w' = out w +:+ "A " +:+ fmt_zd size +:+ " -> "
                    +:+ trace_answer b a +:+ LF) /\
  (ptr <> NULL ->
   out (js_trace_free apple w ptr) = out w +:+ "F " +:+ old +:+ LF) /\
  (ptr <> NULL ->
   exists w',
     js_trace_realloc apple w ptr 0 a = Some (NULL, w') /\
     out w' = out w +:+ "R 0 " +:+ old +:+ LF) /\
  (ptr <> NULL -> size <> 0 ->
   wrap (wrap (malloc_size (ms w) + size) - js_trace_malloc_usable_size w ptr)
     <= malloc_limit (ms w) ->
   exists r w',
     js_trace_realloc apple w ptr size a = Some (r, w') /\
     out w' = out w +:+ "R " +:+ fmt_zd size +:+ " " +:+ old +:+ " -> "
                    +:+ trace_answer b a +:+ LF).
Proof.
  intros b old Ha. split; [|split; [|split]].
  - intros Hsz Hcap. unfold js_trace_malloc.
    destruct (Z.eqb_spec size 0) as [|_]; [contradiction|].
    destruct (Z.gtb_spec (wrap (malloc_size (ms w) + size)) (malloc_limit (ms w)))
      as [|_]; [lia|].
    destruct a as [[p u]|]; cbn [sys_malloc].
    + cbn in Ha. destruct (Z.eqb_spec p NULL) as [|_]; [contradiction|].
      eexists _, _. split; [reflexivity|].
      cbn [set_ms out]. rewrite js_trace_malloc_printf_out.
      literal_formats. cbn [trace_text Ascii.eqb Bool.eqb andb out].
      destruct (Z.eqb_spec p NULL) as [|_]; [contradiction|].
      rewrite fmt_ptr_block. unfold js_trace_malloc_usable_size.
      cbn [ms heap opaque trace_answer]. rewrite lookup_insert_eq.
      cbn [default from_option].
      string_norm. reflexivity.
    + eexists _, _. split; [reflexivity|].
      rewrite js_trace_malloc_printf_out.
      literal_formats. cbn [trace_text Ascii.eqb Bool.eqb andb out].
      change (NULL =? NULL) with true. cbn iota.
      string_norm. reflexivity.
  - intros Hptr. unfold js_trace_free.
    destruct (Z.eqb_spec ptr NULL) as [|_]; [contradiction|].
    cbn [sys_free set_ms out]. rewrite js_trace_malloc_printf_out.
    literal_formats. cbn [trace_text Ascii.eqb Bool.eqb andb].
    destruct (Z.eqb_spec ptr NULL) as [|_]; [contradiction|].
    rewrite fmt_ptr_block.
    string_norm. reflexivity.
  - intros Hptr. unfold js_trace_realloc.
    destruct (Z.eqb_spec ptr NULL) as [|_]; [contradiction|].
    change (0 =? 0) with true. cbn iota zeta.
    eexists. split; [reflexivity|].
    cbn [sys_free set_ms out]. rewrite js_trace_malloc_printf_out.
    literal_formats. cbn [trace_text Ascii.eqb Bool.eqb andb].
    destruct (Z.eqb_spec ptr NULL) as [|_]; [contradiction|].
    rewrite fmt_ptr_block.
    string_norm. reflexivity.
  - intros Hptr Hsz Hcap. unfold js_trace_realloc.
    destruct (Z.eqb_spec ptr NULL) as [|_]; [contradiction|].
    destruct (Z.eqb_spec size 0) as [|_]; [contradiction|].
    cbn zeta.
    destruct (Z.gtb_spec
                (wrap (wrap (malloc_size (ms w) + size)
                       - js_trace_malloc_usable_size w ptr))
                (malloc_limit (ms w))) as [|_]; [lia|].
    set (w1 := js_trace_malloc_printf w "R %zd %p" [VSize size; VPtr ptr]).
    assert (Hw1 : out w1 = out w +:+ "R " +:+ fmt_zd size +:+ " " +:+ old).
    { unfold w1. rewrite js_trace_malloc_printf_out.
      cbn [trace_text Ascii.eqb Bool.eqb andb].
      destruct (Z.eqb_spec ptr NULL) as [|_]; [contradiction|].
      rewrite fmt_ptr_block.
      string_norm.
      now rewrite append_empty_r. }
    assert (Hms1 : ms w1 = ms w) by apply js_trace_malloc_printf_ms.
    destruct a as [[p u]|]; cbn [sys_realloc].
    + cbn in Ha. destruct (Z.eqb_spec p NULL) as [|_]; [contradiction|].
      eexists _, _. split; [reflexivity|].
      cbn [set_ms out]. rewrite js_trace_malloc_printf_out.
      literal_formats. cbn [trace_text Ascii.eqb Bool.eqb andb out].
      destruct (Z.eqb_spec p NULL) as [|_]; [contradiction|].
      rewrite fmt_ptr_block. unfold js_trace_malloc_usable_size.
      cbn [ms heap opaque trace_answer]. rewrite lookup_insert_eq, Hms1, Hw1.
      cbn [default from_option].
      string_norm. reflexivity.
    + eexists _, _. split; [reflexivity|].
      rewrite js_trace_malloc_printf_out.
      literal_formats. cbn [trace_text Ascii.eqb Bool.eqb andb out].
      change (NULL =? NULL) with true. cbn iota. rewrite Hw1.
      string_norm. reflexivity.
Qed.

Transparent js_trace_malloc_printf.

End TraceFormat.

Lemma X2_trace_line_format_witness :
  let w := init_world 200 4096 in
  exists r w',
    js_trace_malloc false w 100 (Some (8192, 104)) = Some (r, w') /\
    out w' = out w +:+ "A " +:+ fmt_zd 100 +:+ " -> "
                   +:+ trace_answer 4096 (Some (8192, 104)) +:+ LF.
Proof.
  intros w.
  assert (Hnn : answer_nonnull (Some (8192, 104))) by (cbn; unfold NULL; lia).
  assert (Hsz : 100 <> 0) by lia.
  assert (Hcap : wrap (malloc_size (ms w) + 100) <= malloc_limit (ms w))
    by (vm_compute; discriminate).
  exact (proj1 (X2_trace_line_format false w 8192 100 (Some (8192, 104)) Hnn)
           Hsz Hcap).
Defined.

(** ** Allocation followed by release *)

Section AllocRoundTrip.

Variable apple : bool.

Opaque js_trace_malloc_printf.

Lemma wrap_small x : 0 <= x < 2 ^ 64 -> wrap x = x.
Proof. intros H. unfold wrap. now apply Z.mod_small. Qed.

(** X3. Allocating a block and freeing it again restores the accounting
    record and the heap. *)
Theorem X3_malloc_free_round_trip (limit b : Z) (w : world) (size : Z)
    (a : answer) (p : Z) (w1 : world) :
  reachable apple limit b w ->
  op_ok w (Malloc size a) ->
  js_trace_malloc apple w size a = Some (p, w1) ->
  p <> NULL ->
  ms (js_trace_free apple w1 p) = ms w /\
  heap (js_trace_free apple w1 p) = heap w /\
  calls (js_trace_free apple w1 p)
    = (calls w ++ [SysMalloc size; SysFree p])%list.
Proof.
  intros Hreach [_ Ha] Hm Hp.
  destruct (reachable_conserved apple _ _ _ Hreach) as (Hc & Hs & _).
  unfold js_trace_malloc in Hm.
  destruct (size =? 0); [discriminate|].
  destruct (wrap (malloc_size (ms w) + size) >? malloc_limit (ms w));
    [inversion Hm; subst; contradiction|].
  destruct a as [[q u]|]; cbn [sys_malloc] in Hm.
  - destruct (Z.eqb_spec q NULL) as [->|_];
      [inversion Hm; subst; contradiction|].
    inversion Hm; subst q w1; clear Hm.
    cbn in Ha. destruct Ha as (_ & [|Hfresh] & _); [contradiction|].
    unfold js_trace_free.
    destruct (Z.eqb_spec p NULL) as [|_]; [contradiction|].
    cbn.
    rewrite ?js_trace_malloc_printf_ms, ?js_trace_malloc_printf_heap,
      ?js_trace_malloc_printf_calls, ?js_trace_malloc_printf_usable.
    cbn.
    rewrite ?js_trace_malloc_printf_ms, ?js_trace_malloc_printf_heap,
      ?js_trace_malloc_printf_calls, ?js_trace_malloc_printf_usable.
    unfold js_trace_malloc_usable_size. cbn.
    rewrite ?js_trace_malloc_printf_heap. cbn.
    rewrite ?lookup_insert_eq. cbn.
    split; [|split].
    + rewrite wrap_add_r, wrap_sub_r, !wrap_sub_l.
      replace (malloc_count (ms w) + 1 - 1) with (malloc_count (ms w)) by lia.
      replace (malloc_size (ms w) + (u + MALLOC_OVERHEAD apple)
               - (u + MALLOC_OVERHEAD apple))
        with (malloc_size (ms w)) by lia.
      rewrite (wrap_small (malloc_count (ms w)))
        by (rewrite Hc; apply wrap_range).
      rewrite (wrap_small (malloc_size (ms w)))
        by (rewrite Hs; apply wrap_range).
      now destruct (ms w).
    + now apply delete_insert_id.
    + now rewrite <- app_assoc.
  - inversion Hm; subst. contradiction.
Qed.

Transparent js_trace_malloc_printf.

(** X4. [js_trace_malloc_init] keeps nothing allocated: the block whose
    address becomes the base pointer is released at once. It prints nothing
    and leaves the counters as they are. *)
Theorem X4_js_trace_malloc_init_releases (w : world) (a : answer) :
  answer_ok w NULL 8 a ->
  heap w !! NULL = None ->
  let w' := js_trace_malloc_init w a in
  let p := match a with Some (p, _) => p | None => NULL end in
  base (opaque (ms w')) = p /\
  heap w' = heap w /\
  heap w' !! p = None /\
  calls w' = (calls w ++ [SysMalloc 8; SysFree p])%list /\
  out w' = out w /\
  malloc_count (ms w') = malloc_count (ms w) /\
  malloc_size (ms w') = malloc_size (ms w) /\
  malloc_limit (ms w') = malloc_limit (ms w).
Proof.
  intros Ha Hn. unfold js_trace_malloc_init.
  destruct a as [[p u]|]; cbn.
  - destruct Ha as (Hp & [|Hfresh] & _); [contradiction|].
    rewrite delete_insert_id by exact Hfresh.
    rewrite <- app_assoc. auto 10.
  - rewrite delete_id by exact Hn. rewrite <- app_assoc. auto 10.
Qed.

End AllocRoundTrip.

Lemma X3_malloc_free_round_trip_witness :
  exists w1,
    js_trace_malloc false (init_world 200 4096) 100 (Some (8192, 104))
      = Some (8192, w1) /\
    ms (js_trace_free false w1 8192) = ms (init_world 200 4096) /\
    heap (js_trace_free false w1 8192) = heap (init_world 200 4096) /\
    calls (js_trace_free false w1 8192) = [SysMalloc 100; SysFree 8192].
Proof.
  eexists. split; [vm_compute; reflexivity|].
  apply (X3_malloc_free_round_trip false 200 4096 (init_world 200 4096) 100
           (Some (8192, 104)) 8192).
  - apply reach_init.
  - cbn. unfold SIZE_MAX, NULL. repeat split; auto; lia.
  - vm_compute; reflexivity.
  - unfold NULL. lia.
Defined.

Lemma X4_js_trace_malloc_init_releases_witness :
  let w' := js_trace_malloc_init (init_world 200 0) (Some (8192, 8)) in
  base (opaque (ms w')) = 8192 /\
  heap w' = ∅ /\
  calls w' = [SysMalloc 8; SysFree 8192] /\
  out w' = "".
Proof.
  intros w'.
  assert (Hok : answer_ok (init_world 200 0) NULL 8 (Some (8192, 8))).
  { cbn. unfold SIZE_MAX, NULL. repeat split; auto; lia. }
  destruct (X4_js_trace_malloc_init_releases (init_world 200 0)
              (Some (8192, 8)) Hok eq_refl)
    as (Hbase & Hheap & _ & Hcalls & Hout & _).
  repeat split; assumption.
Defined.

(** ** The trace under a move of all addresses *)

Section Translation.

Variable apple : bool.
Variable d : Z.

#[local] Instance add_inj : Inj (=) (=) (fun p : Z => p + d).
Proof. intros x y H. lia. Qed.

Lemma move_nonnull p : p <> NULL -> move d p = p + d.
Proof. intros H. unfold move. now destruct (Z.eqb_spec p NULL). Qed.

Lemma move_null_iff p : movable_ptr d p -> (move d p =? NULL) = (p =? NULL).
Proof.
  intros H. unfold move. destruct (Z.eqb_spec p NULL) as [->|Hp]; [reflexivity|].
  specialize (H Hp). now destruct (Z.eqb_spec (p + d) NULL).
Qed.

Lemma usable_move w p :
  p <> NULL ->
  js_trace_malloc_usable_size (move_world d w) (move d p)
  = js_trace_malloc_usable_size w p.
Proof.
  intros Hp. rewrite (move_nonnull _ Hp).
  unfold js_trace_malloc_usable_size, move_world. cbn.
  now rewrite (lookup_kmap (fun p => p + d)).
Qed.

Lemma fmt_ptr_move w p :
  p <> NULL -> fmt_ptr (move_world d w) (move d p) = fmt_ptr w p.
Proof.
  intros Hp. unfold fmt_ptr. rewrite (usable_move _ _ Hp).
  rewrite (move_nonnull _ Hp).
  unfold js_trace_malloc_ptr_offset. cbn.
  do 4 f_equal. lia.
Qed.

Lemma printf_move w s : printf (move_world d w) s = move_world d (printf w s).
Proof. reflexivity. Qed.

Lemma js_trace_malloc_printf_move_len (n : nat) :
  forall fmt w ap, (String.length fmt <= n)%nat ->
    Forall (movable_arg d) ap ->
    js_trace_malloc_printf (move_world d w) fmt (move_arg d <$> ap)
    = move_world d (js_trace_malloc_printf w fmt ap).
Proof.
  induction n as [|n IH]; intros fmt w ap Hlen Hap.
  - destruct fmt; simpl in *; [reflexivity | lia].
  - destruct fmt as [|c fmt1]; [reflexivity|].
    simpl in Hlen.
    assert (Hputc :
      js_trace_malloc_printf (printf (move_world d w) (String c "")) fmt1
        (move_arg d <$> ap)
      = move_world d (js_trace_malloc_printf (printf w (String c "")) fmt1 ap)).
    { rewrite printf_move. apply IH; [lia | exact Hap]. }
    cbn [js_trace_malloc_printf].
    destruct (c =? "%")%char; [|exact Hputc].
    destruct fmt1 as [|c1 fmt2]; [exact Hputc|].
    simpl in Hlen.
    destruct (c1 =? "p")%char.
    + destruct ap as [|[ptr|sz] ap']; [reflexivity| |reflexivity].
      inversion Hap as [|? ? Hptr Hap']; subst. cbn in Hptr.
      cbn [fmap list_fmap move_arg].
      rewrite (move_null_iff _ Hptr).
      destruct (Z.eqb_spec ptr NULL) as [->|Hnz].
      * rewrite printf_move. apply IH; [lia | exact Hap'].
      * rewrite (fmt_ptr_move _ _ Hnz), printf_move.
        apply IH; [lia | exact Hap'].
    + destruct fmt2 as [|c2 fmt3]; [exact Hputc|].
      simpl in Hlen.
      destruct ((c1 =? "z")%char && (c2 =? "d")%char); [|exact Hputc].
      destruct ap as [|[ptr|sz] ap']; [reflexivity|reflexivity|].
      inversion Hap as [|? ? _ Hap']; subst.
      cbn [fmap list_fmap move_arg].
      rewrite printf_move. apply IH; [lia | exact Hap'].
Qed.

Lemma js_trace_malloc_printf_move w fmt ap :
  Forall (movable_arg d) ap ->
  js_trace_malloc_printf (move_world d w) fmt (move_arg d <$> ap)
  = move_world d (js_trace_malloc_printf w fmt ap).
Proof. now apply (js_trace_malloc_printf_move_len (String.length fmt)). Qed.

Lemma move_world_eq (w1 w2 : world) :
  ms w1 = ms w2 -> heap w1 = heap w2 -> out w1 = out w2 ->
  calls w1 = calls w2 -> w1 = w2.
Proof. destruct w1, w2; cbn; intros; now subst. Qed.

Lemma sys_malloc_move w size p u :
  p <> NULL ->
  sys_malloc (move_world d w) size (Some (p + d, u))
  = (p + d, move_world d (snd (sys_malloc w size (Some (p, u))))).
Proof.
  intros Hp. cbn. f_equal. apply move_world_eq; cbn; try reflexivity.
  - now rewrite (kmap_insert (fun p => p + d)).
  - now rewrite fmap_app.
Qed.

Lemma sys_malloc_move_none w size :
  sys_malloc (move_world d w) size None
  = (NULL, move_world d (snd (sys_malloc w size None))).
Proof.
  cbn. f_equal. apply move_world_eq; cbn; try reflexivity.
  now rewrite fmap_app.
Qed.

Lemma sys_free_move w p :
  p <> NULL ->
  sys_free (move_world d w) (p + d) = move_world d (sys_free w p).
Proof.
  intros Hp. apply move_world_eq; cbn; try reflexivity.
  - now rewrite (kmap_delete (fun p => p + d)).
  - rewrite fmap_app. cbn. now rewrite (move_nonnull _ Hp).
Qed.

Lemma sys_realloc_move w ptr size p u :
  ptr <> NULL -> p <> NULL ->
  sys_realloc (move_world d w) (ptr + d) size (Some (p + d, u))
  = (p + d, move_world d (snd (sys_realloc w ptr size (Some (p, u))))).
Proof.
  intros Hptr Hp. cbn. f_equal. apply move_world_eq; cbn; try reflexivity.
  - now rewrite (kmap_insert (fun p => p + d)), (kmap_delete (fun p => p + d)).
  - rewrite fmap_app. cbn. now rewrite (move_nonnull _ Hptr).
Qed.

Lemma sys_realloc_move_none w ptr size :
  ptr <> NULL ->
  sys_realloc (move_world d w) (ptr + d) size None
  = (NULL, move_world d (snd (sys_realloc w ptr size None))).
Proof.
  intros Hptr. cbn. f_equal. apply move_world_eq; cbn; try reflexivity.
  rewrite fmap_app. cbn. now rewrite (move_nonnull _ Hptr).
Qed.

Opaque js_trace_malloc_printf.

Lemma usable_move' w p :
  p <> NULL ->
  js_trace_malloc_usable_size (move_world d w) (p + d)
  = js_trace_malloc_usable_size w p.
Proof. intros Hp. rewrite <- (move_nonnull _ Hp). now apply usable_move. Qed.

Lemma js_trace_malloc_move w size a :
  movable_answer d a ->
  js_trace_malloc apple (move_world d w) size (move_answer d a)
  = move_result d (js_trace_malloc apple w size a).
Proof.
  intros Ha. unfold js_trace_malloc.
  destruct (size =? 0); [reflexivity|].
  change (ms (move_world d w)) with
    {| malloc_count := malloc_count (ms w); malloc_size := malloc_size (ms w);
       malloc_limit := malloc_limit (ms w);
       opaque := {| base := base (opaque (ms w)) + d |} |}.
  cbn [malloc_size malloc_limit].
  destruct (wrap (malloc_size (ms w) + size) >? malloc_limit (ms w));
    [reflexivity|].
  destruct a as [[p u]|].
  - destruct Ha as [Hp Hpd]. cbn [move_answer].
    rewrite (sys_malloc_move _ _ _ _ Hp).
    cbn [sys_malloc snd].
    destruct (Z.eqb_spec (p + d) NULL) as [|_]; [contradiction|].
    destruct (Z.eqb_spec p NULL) as [|_]; [contradiction|].
    change [VSize size; VPtr (p + d)] with
      [VSize size; VPtr (p + d)].
    replace [VSize size; VPtr (p + d)]
      with (move_arg d <$> [VSize size; VPtr p])
      by (cbn; now rewrite (move_nonnull _ Hp)).
    rewrite js_trace_malloc_printf_move
      by (repeat constructor; intros _; exact Hpd).
    cbn [move_result]. rewrite (move_nonnull _ Hp). f_equal. f_equal.
    apply move_world_eq; cbn; try reflexivity.
    rewrite (usable_move' _ _ Hp). reflexivity.
  - cbn [move_answer]. rewrite sys_malloc_move_none. cbn [sys_malloc snd].
    change (NULL =? NULL) with true. cbn iota.
    replace [VSize size; VPtr NULL]
      with (move_arg d <$> [VSize size; VPtr NULL]) by reflexivity.
    rewrite js_trace_malloc_printf_move
      by (repeat constructor; intros H; now contradiction H).
    reflexivity.
Qed.

Lemma js_trace_free_move w ptr :
  movable_ptr d ptr ->
  js_trace_free apple (move_world d w) (move d ptr)
  = move_world d (js_trace_free apple w ptr).
Proof.
  intros Hm. unfold js_trace_free. rewrite (move_null_iff _ Hm).
  destruct (Z.eqb_spec ptr NULL) as [|Hp]; [reflexivity|].
  replace [VPtr (move d ptr)] with (move_arg d <$> [VPtr ptr]) by reflexivity.
  rewrite js_trace_malloc_printf_move by (repeat constructor; exact Hm).
  rewrite (move_nonnull _ Hp).
  rewrite <- (sys_free_move _ _ Hp). f_equal.
  apply move_world_eq; cbn; try reflexivity.
  rewrite (usable_move' _ _ Hp). reflexivity.
Qed.

Lemma js_trace_realloc_move w ptr size a :
  movable_ptr d ptr -> movable_answer d a ->
  js_trace_realloc apple (move_world d w) (move d ptr) size (move_answer d a)
  = move_result d (js_trace_realloc apple w ptr size a).
Proof.
  intros Hm Ha. unfold js_trace_realloc. rewrite (move_null_iff _ Hm).
  destruct (Z.eqb_spec ptr NULL) as [|Hp].
  { destruct (size =? 0); [reflexivity|]. now apply js_trace_malloc_move. }
  rewrite (move_nonnull _ Hp), (usable_move' _ _ Hp).
  destruct (size =? 0).
  { cbn zeta.
    replace [VSize size; VPtr (ptr + d)]
      with (move_arg d <$> [VSize size; VPtr ptr])
      by (cbn; now rewrite (move_nonnull _ Hp)).
    rewrite js_trace_malloc_printf_move by (repeat constructor; exact Hm).
    cbn [move_result]. change (move d NULL) with NULL. do 2 f_equal.
    rewrite <- (sys_free_move _ _ Hp). f_equal. }
  cbn zeta.
  change (ms (move_world d w)) with
    {| malloc_count := malloc_count (ms w); malloc_size := malloc_size (ms w);
       malloc_limit := malloc_limit (ms w);
       opaque := {| base := base (opaque (ms w)) + d |} |}.
  cbn [malloc_size malloc_limit].
  destruct (wrap (wrap (malloc_size (ms w) + size)
                  - js_trace_malloc_usable_size w ptr)
            >? malloc_limit (ms w)); [reflexivity|].
  replace [VSize size; VPtr (ptr + d)]
    with (move_arg d <$> [VSize size; VPtr ptr])
    by (cbn; now rewrite (move_nonnull _ Hp)).
  rewrite js_trace_malloc_printf_move by (repeat constructor; exact Hm).
  destruct a as [[p u]|].
  - destruct Ha as [Hq Hqd]. cbn [move_answer].
    rewrite (sys_realloc_move _ _ _ _ _ Hp Hq).
    cbn [sys_realloc snd].
    destruct (Z.eqb_spec (p + d) NULL) as [|_]; [contradiction|].
    destruct (Z.eqb_spec p NULL) as [|_]; [contradiction|].
    replace [VPtr (p + d)] with (move_arg d <$> [VPtr p])
      by (cbn; now rewrite (move_nonnull _ Hq)).
    rewrite js_trace_malloc_printf_move
      by (repeat constructor; intros _; exact Hqd).
    cbn [move_result]. rewrite (move_nonnull _ Hq). f_equal. f_equal.
    apply move_world_eq; cbn; try reflexivity.
    rewrite (usable_move' _ _ Hq). reflexivity.
  - cbn [move_answer]. rewrite (sys_realloc_move_none _ _ _ Hp).
    cbn [sys_realloc snd].
    change (NULL =? NULL) with true. cbn iota.
    replace [VPtr NULL] with (move_arg d <$> [VPtr NULL]) by reflexivity.
    rewrite js_trace_malloc_printf_move
      by (repeat constructor; intros H; now contradiction H).
    reflexivity.
Qed.

Lemma step_move w o :
  movable d o ->
  step apple (move_world d w) (move_op d o) = move_result d (step apple w o).
Proof.
  intros Hm. destruct o as [size a|ptr|ptr size a]; cbn [step move_op].
  - now apply js_trace_malloc_move.
  - cbn [move_result]. change (move d NULL) with NULL.
    now rewrite js_trace_free_move.
  - destruct Hm. now apply js_trace_realloc_move.
Qed.

(** X5. The trace does not depend on where the platform puts the blocks,
    only on where they are relative to the base pointer: an execution and
    the same execution with every address moved by [d] print the same text,
    keep the same counters, and stop at the same assertion if at one. *)
Theorem X5_trace_translation_invariant (ops : list op) : forall (w : world),
  Forall (movable d) ops ->
  run apple (move_world d w) (move_op d <$> ops)
  = move_world d <$> run apple w ops.
Proof.
  induction ops as [|o ops IH]; intros w Hops; [reflexivity|].
  inversion Hops as [|? ? Ho Hops']; subst.
  cbn [run fmap list_fmap]. rewrite (step_move _ _ Ho).
  destruct (step apple w o) as [[r w']|]; [|reflexivity].
  cbn [move_result]. now apply IH.
Qed.

Transparent js_trace_malloc_printf.

End Translation.

Lemma X5_trace_translation_invariant_witness :
  let ops := [Malloc 100 (Some (8192, 104)); Free 8192] in
  run false (move_world 4096 (init_world 200 4096)) (move_op 4096 <$> ops)
  = move_world 4096 <$> run false (init_world 200 4096) ops.
Proof.
  intros ops.
  apply (X5_trace_translation_invariant false 4096 ops (init_world 200 4096)).
  unfold ops.
  constructor; [cbn; unfold NULL; lia|].
  constructor; [cbn; unfold movable_ptr, NULL; lia|].
  constructor.
Defined.

(** ** The size parser on other inputs *)

Lemma get_suffixed_size_strtod str d p v t :
  strtod str = (d, p) -> double_to_size_t d = Some v ->
  get_suffixed_size str t =
  match p with
  | String c _ =>
      if (c =? "G")%char then (Ret (wrap (Z.shiftl v 30)), t)
      else if (c =? "M")%char then (Ret (wrap (Z.shiftl v 20)), t)
      else if (c =? "k")%char || (c =? "K")%char
      then (Ret (wrap (Z.shiftl v 10)), t)
      else (Exit 1,
            (t ++ [E_stderr ("qjs: invalid suffix: " +:+ p +:+ LF)])%list)
  | "" => (Ret v, t)
  end.
Proof.
  intros Hs Hd. unfold get_suffixed_size. rewrite Hs, Hd.
  destruct p as [|c rest]; [reflexivity|].
  destruct (c =? "G")%char; [reflexivity|].
  destruct (c =? "M")%char; [reflexivity|].
  destruct ((c =? "k")%char || (c =? "K")%char); reflexivity.
Qed.


Lemma wrap_shiftl_mul v sh :
  0 <= sh -> wrap (Z.shiftl v sh) = (v * 2 ^ sh) mod 2 ^ 64.
Proof. intros H. unfold wrap. now rewrite Z.shiftl_mul_pow2. Qed.

(** X6. Sizes written in decimal are exact up to [2^53], the precision of a
    [double]; the suffix shifts the [size_t], so the product is reduced
    modulo [2^64]: what does not fit is lost without a diagnostic. *)
Theorem X6_get_suffixed_size_wraps (n : Z) (rest : string) (t : list event) :
  0 <= n < 2 ^ 53 ->
  get_suffixed_size (dec n) t = (Ret n, t) /\
  get_suffixed_size (dec n +:+ String "K" rest) t
    = (Ret (n * 2 ^ 10), t) /\
  get_suffixed_size (dec n +:+ String "k" rest) t
    = (Ret (n * 2 ^ 10), t) /\
  get_suffixed_size (dec n +:+ String "M" rest) t
    = (Ret ((n * 2 ^ 20) mod 2 ^ 64), t) /\
  get_suffixed_size (dec n +:+ String "G" rest) t
    = (Ret ((n * 2 ^ 30) mod 2 ^ 64), t).
Proof.
  intros Hn.
  assert (H : forall s, ends_number s = true ->
    exists d, strtod (dec n +:+ s) = (d, s) /\ double_to_size_t d = Some n)
    by (intros s; now apply strtod_dec).
  split; [|split; [|split; [|split]]].
  - destruct (H "" eq_refl) as (d & Hs & Hd). rewrite append_empty_r in Hs.
    now rewrite (get_suffixed_size_strtod _ _ _ _ t Hs Hd).
  - destruct (H (String "K" rest) eq_refl) as (d & Hs & Hd).
    rewrite (get_suffixed_size_strtod _ _ _ _ t Hs Hd). cbn [Ascii.eqb Bool.eqb orb].
    cbn match. rewrite wrap_shiftl_mul by lia.
    rewrite Z.mod_small; [reflexivity|]. lia.
  - destruct (H (String "k" rest) eq_refl) as (d & Hs & Hd).
    rewrite (get_suffixed_size_strtod _ _ _ _ t Hs Hd). cbn [Ascii.eqb Bool.eqb orb].
    cbn match. rewrite wrap_shiftl_mul by lia.
    rewrite Z.mod_small; [reflexivity|]. lia.
  - destruct (H (String "M" rest) eq_refl) as (d & Hs & Hd).
    rewrite (get_suffixed_size_strtod _ _ _ _ t Hs Hd). cbn [Ascii.eqb Bool.eqb orb].
    cbn match. now rewrite wrap_shiftl_mul by lia.
  - destruct (H (String "G" rest) eq_refl) as (d & Hs & Hd).
    rewrite (get_suffixed_size_strtod _ _ _ _ t Hs Hd). cbn [Ascii.eqb Bool.eqb orb].
    cbn match. now rewrite wrap_shiftl_mul by lia.
Qed.

Lemma X6_get_suffixed_size_wraps_witness :
  get_suffixed_size "17179869184G" [] = (Ret 0, []) /\
  get_suffixed_size "9007199254740991" [] = (Ret 9007199254740991, []).
Proof.
  assert (Hn : 0 <= 17179869184 < 2 ^ 53) by lia.
  assert (Hm : 0 <= 9007199254740991 < 2 ^ 53) by lia.
  split.
  - exact (proj2 (proj2 (proj2 (proj2
             (X6_get_suffixed_size_wraps 17179869184 "" [] Hn))))).
  - exact (proj1 (X6_get_suffixed_size_wraps 9007199254740991 "" [] Hm)).
Defined.

(** ** Texts without a number, and values that are no [size_t] *)

Lemma strtod_no_number c rest :
  starts_number c = false ->
  strtod (String c rest) = (DNum false 0 0, String c rest).
Proof.
  unfold starts_number. rewrite !orb_false_iff.
  intros ((((((Hsp & Hdig) & Hplus) & Hminus) & Hpoint) & Hi) & Hn).
  unfold strtod. cbn [skip_space]. rewrite Hsp.
  cbn [scan_sign]. rewrite Hplus, Hminus.
  unfold scan_number, scan_special. cbn [prefix_ci]. rewrite Hi, Hn.
  assert (Hzero : (c =? "0")%char = false).
  { destruct (Ascii.eqb_spec c "0") as [->|]; [discriminate Hdig | reflexivity]. }
  assert (Hhex : match rest with
                 | String x s' =>
                     if (c =? "0")%char && ((x =? "x")%char || (x =? "X")%char)
                     then scan_hex s' else None
                 | "" => None
                 end = None).
  { destruct rest; [reflexivity|]. now rewrite Hzero. }
  rewrite Hhex. unfold scan_decimal. cbn [scan_digits]. rewrite Hdig, Hpoint.
  reflexivity.
Qed.

(** X7. A size with no digits is zero: the empty text and every text that
    begins with a suffix letter give 0, without a diagnostic. Any other text
    that cannot begin a number is refused whole. *)
Theorem X7_get_suffixed_size_no_number (t : list event) :
  get_suffixed_size "" t = (Ret 0, t) /\
  forall c rest,
    starts_number c = false ->
    get_suffixed_size (String c rest) t
    = if (c =? "G")%char || (c =? "M")%char || (c =? "k")%char
         || (c =? "K")%char
      then (Ret 0, t)
      else (Exit 1,
            (t ++ [E_stderr ("qjs: invalid suffix: " +:+ String c rest +:+ LF)])
              %list).
Proof.
  split; [reflexivity|]. intros c rest Hc.
  rewrite (get_suffixed_size_strtod _ _ _ 0 t (strtod_no_number c rest Hc) eq_refl).
  destruct (c =? "G")%char; [reflexivity|].
  destruct (c =? "M")%char; [reflexivity|].
  destruct ((c =? "k")%char || (c =? "K")%char) eqn:E.
  - cbn [orb]. rewrite E. reflexivity.
  - cbn [orb]. rewrite E. reflexivity.
Qed.

Lemma X7_get_suffixed_size_no_number_witness :
  get_suffixed_size "Kilo" [] = (Ret 0, []) /\
  get_suffixed_size "big" []
  = (Exit 1, ([] ++ [E_stderr ("qjs: invalid suffix: " +:+ "big" +:+ LF)])%list).
Proof.
  split.
  - exact (proj2 (X7_get_suffixed_size_no_number []) "K"%char "ilo" eq_refl).
  - exact (proj2 (X7_get_suffixed_size_no_number []) "b"%char "ig" eq_refl).
Defined.



Lemma isdigit_not_space c : isdigit c = true -> isspace c = false.
Proof.
  intros Hc. apply isdigit_code in Hc. unfold isspace.
  destruct (Z.eqb_spec (code c) 32); [lia|].
  destruct (Z.leb_spec (code c) 13); [lia|].
  now rewrite andb_false_r.
Qed.

Lemma skip_space_app ws s :
  all_space ws -> skip_space (ws +:+ s) = skip_space s.
Proof.
  induction ws as [|c ws IH]; [reflexivity|]. intros [Hc Hws].
  change (String c ws +:+ s) with (String c (ws +:+ s)).
  cbn [skip_space]. rewrite Hc. now apply IH.
Qed.

Lemma skip_space_dec n s : skip_space (dec n +:+ s) = dec n +:+ s.
Proof.
  destruct (dec_shape n) as (c & tl & -> & Hc & _).
  change (String c tl +:+ s) with (String c (tl +:+ s)).
  cbn [skip_space]. now rewrite (isdigit_not_space c Hc).
Qed.

Lemma scan_sign_dec n s : scan_sign (dec n +:+ s) = (false, dec n +:+ s).
Proof.
  destruct (dec_shape n) as (c & tl & -> & Hc & _).
  change (String c tl +:+ s) with (String c (tl +:+ s)).
  cbn [scan_sign].
  now rewrite (digit_neq c "+" Hc), (digit_neq c "-" Hc) by (vm_compute; auto).
Qed.

(** [strtod] on white space, an optional sign and a decimal integer. *)
Lemma strtod_signed ws (sg : string) (neg : bool) n s :
  all_space ws ->
  (sg = "" /\ neg = false) \/ (sg = "+" /\ neg = false)
    \/ (sg = "-" /\ neg = true) ->
  0 <= n -> ends_number s = true ->
  strtod (ws +:+ sg +:+ dec n +:+ s) = (round_double neg n 1, s).
Proof.
  intros Hws Hsg Hn Hs. unfold strtod. rewrite (skip_space_app _ _ Hws).
  assert (Hsign : scan_sign (skip_space (sg +:+ dec n +:+ s))
                  = (neg, dec n +:+ s)).
  { destruct Hsg as [[-> ->]|[[-> ->]|[-> ->]]].
    - change ("" +:+ dec n +:+ s) with (dec n +:+ s).
      now rewrite skip_space_dec, scan_sign_dec.
    - reflexivity.
    - reflexivity. }
  rewrite Hsign, (scan_number_dec n s Hn Hs). reflexivity.
Qed.



(** ** White space, sign and exponent *)

(** X9. Leading white space and a plus sign are read over by [strtod]. *)
Theorem X9_get_suffixed_size_space_sign (ws : string) (n : Z) (s : string)
    (t : list event) :
  all_space ws -> 0 <= n -> ends_number s = true ->
  get_suffixed_size (ws +:+ dec n +:+ s) t
    = get_suffixed_size (dec n +:+ s) t /\
  get_suffixed_size (ws +:+ "+" +:+ dec n +:+ s) t
    = get_suffixed_size (dec n +:+ s) t.
Proof.
  intros Hws Hn Hs.
  pose proof (strtod_signed "" "" false n s I ltac:(auto) Hn Hs) as H0.
  pose proof (strtod_signed ws "" false n s Hws ltac:(auto) Hn Hs) as H1.
  pose proof (strtod_signed ws "+" false n s Hws ltac:(auto) Hn Hs) as H2.
  change ("" +:+ "" +:+ dec n +:+ s) with (dec n +:+ s) in H0.
  change (ws +:+ "" +:+ dec n +:+ s) with (ws +:+ dec n +:+ s) in H1.
  unfold get_suffixed_size. now rewrite H0, H1, H2.
Qed.

Lemma X9_get_suffixed_size_space_sign_witness :
  get_suffixed_size " 64K" [] = (Ret 65536, []) /\
  get_suffixed_size " +64K" [] = (Ret 65536, []).
Proof.
  destruct (X9_get_suffixed_size_space_sign " " 64 "K" [] (conj eq_refl I)
              ltac:(lia) eq_refl) as [H1 H2].
  split.
  - etransitivity; [exact H1 | vm_compute; reflexivity].
  - etransitivity; [exact H2 | vm_compute; reflexivity].
Defined.

Lemma scan_number_exp (m : ascii) n k s :
  m = "e"%char \/ m = "E"%char ->
  0 <= n -> 0 <= k -> ends_number s = true ->
  scan_number (dec n +:+ String m (dec k +:+ s))
  = Some (PRat (n * 10 ^ k) 1, s).
Proof.
  intros Hm Hn Hk Hs.
  assert (Hmd : isdigit m = false) by (destruct Hm as [->| ->]; reflexivity).
  assert (Hmp : (m =? ".")%char = false)
    by (destruct Hm as [->| ->]; reflexivity).
  assert (Hmx : (m =? "x")%char || (m =? "X")%char = false)
    by (destruct Hm as [->| ->]; reflexivity).
  assert (Hme : (m =? "e")%char || (m =? "E")%char = true)
    by (destruct Hm as [->| ->]; reflexivity).
  assert (Hdec : scan_decimal (dec n +:+ String m (dec k +:+ s))
                 = Some (PRat (n * 10 ^ k) 1, s)).
  { unfold scan_decimal.
    destruct (scan_digits_dec n (String m (dec k +:+ s)) Hn) as (kk & Hkk & ->).
    cbn [scan_digits]. rewrite Hmd, Hmp.
    destruct (Z.eqb_spec (kk + 0) 0) as [|_]; [lia|].
    unfold scan_exponent. rewrite Hme.
    unfold scan_exponent_tail. rewrite scan_sign_dec.
    destruct (scan_digits_dec k s Hk) as (kk' & Hkk' & ->).
    rewrite (ends_number_scan _ _ _ Hs).
    destruct (Z.eqb_spec kk' 0) as [|_]; [lia|].
    unfold scale. rewrite Z.sub_0_r.
    destruct (Z.leb_spec 0 k) as [_|]; [reflexivity | lia]. }
  unfold scan_number. rewrite Hdec.
  destruct (dec_shape n) as (c & tl & -> & Hc & Htl).
  change (String c tl +:+ String m (dec k +:+ s))
    with (String c (tl +:+ String m (dec k +:+ s))).
  rewrite (scan_special_digit c _ Hc).
  destruct tl as [|c2 tl'].
  - change ("" +:+ String m (dec k +:+ s)) with (String m (dec k +:+ s)).
    cbn match. rewrite Hmx, andb_false_r. reflexivity.
  - change (String c2 tl' +:+ String m (dec k +:+ s))
      with (String c2 (tl' +:+ String m (dec k +:+ s))).
    destruct Htl as [Hc2 _].
    rewrite (digit_neq c2 "x" Hc2), (digit_neq c2 "X" Hc2) by (vm_compute; auto).
    rewrite andb_false_r. reflexivity.
Qed.

(** X10. Scientific notation is accepted: a decimal integer with an exponent
    [e] or [E] is read as the integer times the power of ten, before the
    suffix is looked at. *)
Theorem X10_get_suffixed_size_exponent (n k : Z) (s : string) (t : list event) :
  0 <= n -> 0 <= k -> ends_number s = true ->
  get_suffixed_size (dec n +:+ String "e" (dec k +:+ s)) t
    = get_suffixed_size (dec (n * 10 ^ k) +:+ s) t /\
  get_suffixed_size (dec n +:+ String "E" (dec k +:+ s)) t
    = get_suffixed_size (dec (n * 10 ^ k) +:+ s) t.
Proof.
  intros Hn Hk Hs.
  assert (Hpow : 0 <= n * 10 ^ k).
  { apply Z.mul_nonneg_nonneg; [lia|]. apply Z.pow_nonneg. lia. }
  assert (Hrhs : strtod (dec (n * 10 ^ k) +:+ s)
                 = (round_double false (n * 10 ^ k) 1, s)).
  { pose proof (strtod_signed "" "" false _ s I ltac:(auto) Hpow Hs) as H.
    exact H. }
  assert (Hlhs : forall m, m = "e"%char \/ m = "E"%char ->
            strtod (dec n +:+ String m (dec k +:+ s))
            = (round_double false (n * 10 ^ k) 1, s)).
  { intros m Hm. unfold strtod.
    rewrite skip_space_dec, scan_sign_dec, (scan_number_exp m n k s Hm Hn Hk Hs).
    reflexivity. }
  unfold get_suffixed_size.
  rewrite Hrhs, (Hlhs "e"%char), (Hlhs "E"%char) by auto. auto.
Qed.

Lemma X10_get_suffixed_size_exponent_witness :
  get_suffixed_size "2e3K" [] = (Ret 2048000, []).
Proof.
  destruct (X10_get_suffixed_size_exponent 2 3 "K" [] ltac:(lia) ltac:(lia) eq_refl)
    as [H _].
  etransitivity; [exact H | vm_compute; reflexivity].
Defined.

(** ** Bounds kept by the option loop *)

Ltac body_step :=
  match goal with
  | |- context [if ?b then _ else _] =>
      lazymatch b with
      | (?x <? ?y)%nat => destruct (Nat.ltb_spec0 x y)
      | (?x <=? ?y)%nat => destruct (Nat.leb_spec0 x y)
      | _ => destruct b
      end
  end.

Section ScanInv.

Variable ver : string.
Variable argv : list string.

Lemma scan_inv_refl st :
  (optind st <= length argv)%nat ->
  (length (include_list st) <= include_capacity)%nat ->
  scan_inv argv st st.
Proof. intros. unfold scan_inv. repeat split; lia. Qed.

Lemma scan_inv_trans st0 st1 st2 :
  scan_inv argv st0 st1 -> scan_inv argv st1 st2 -> scan_inv argv st0 st2.
Proof. unfold scan_inv. intros. repeat split; lia. Qed.

Lemma option_body_inv opt longopt arg st t c st' t' :
  (optind st <= length argv)%nat ->
  (length (include_list st) <= include_capacity)%nat ->
  option_body ver argv opt longopt arg st t = (Ret (c, st'), t') ->
  scan_inv argv st st'.
Proof.
  intros Hopt Hinc. unfold option_body, help, bind, emit, exit, ret.
  cbv beta zeta.
  repeat (body_step; cbv beta iota;
          try discriminate;
          try (intros [= <- <- <-]; unfold scan_inv; cbn;
               rewrite ?length_app; cbn; repeat split; lia)).
  all: match goal with
       | |- context [get_suffixed_size ?a ?b] =>
           destruct (get_suffixed_size a b) as [[v|x| |] t1]
       end; cbn; try discriminate;
       intros [= <- <- <-]; unfold scan_inv; cbn; repeat split; lia.
Qed.

Lemma option_loop_inv : forall arg longopt st t st' t',
  (optind st <= length argv)%nat ->
  (length (include_list st) <= include_capacity)%nat ->
  option_loop ver argv arg longopt st t = (Ret st', t') ->
  scan_inv argv st st'.
Proof.
  induction arg as [|c rest IH]; intros longopt st t st' t' Hopt Hinc;
    cbn [option_loop].
  - destruct (longopt =? "")%string.
    + intros [= <- <-]. now apply scan_inv_refl.
    + unfold bind.
      destruct (option_body ver argv NUL longopt "" st t)
        as [[[k st1]|x| |] t1] eqn:Hb; cbn; try discriminate.
      intros [= <- <-]. exact (option_body_inv _ _ _ _ _ _ _ _ Hopt Hinc Hb).
  - unfold bind.
    destruct (option_body ver argv c longopt rest st t)
      as [[[k st1]|x| |] t1] eqn:Hb; cbn; try discriminate.
    pose proof (option_body_inv _ _ _ _ _ _ _ _ Hopt Hinc Hb) as H1.
    destruct k.
    + intros Hl. eapply scan_inv_trans; [exact H1|].
      eapply IH; [| |exact Hl]; unfold scan_inv in H1; lia.
    + intros [= <- <-]. exact H1.
Qed.

Lemma scan_options_inv : forall fuel st t st' t',
  (optind st <= length argv)%nat ->
  (length (include_list st) <= include_capacity)%nat ->
  scan_options ver fuel argv st t = (Ret st', t') ->
  scan_inv argv st st'.
Proof.
  induction fuel as [|fuel IH]; intros st t st' t' Hopt Hinc;
    cbn [scan_options]; [discriminate|].
  assert (Hstay : (Ret st, t) = (Ret st', t') -> scan_inv argv st st').
  { intros [= <- <-]. now apply scan_inv_refl. }
  destruct (Nat.ltb_spec (optind st) (length argv)) as [Hlt|]; [|exact Hstay].
  destruct (arg_at argv (optind st)) as [|c arg]; [exact Hstay|].
  destruct (negb (c =? "-")%char); [exact Hstay|].
  destruct arg as [|c1 longopt]; [exact Hstay|].
  set (st1 := set_optind st (S (optind st))).
  assert (H1 : scan_inv argv st st1).
  { unfold scan_inv, st1; cbn. repeat split; lia. }
  assert (Hcont : forall a l,
    (let* st2 := option_loop ver argv a l st1 in
     scan_options ver fuel argv st2) t = (Ret st', t') ->
    scan_inv argv st st').
  { intros a l. unfold bind.
    destruct (option_loop ver argv a l st1 t) as [[st2|x| |] t2] eqn:Hl;
      try discriminate.
    intros Hs.
    assert (H2 : scan_inv argv st1 st2).
    { eapply option_loop_inv; [| |exact Hl]; unfold scan_inv in H1; lia. }
    eapply scan_inv_trans; [exact H1|].
    eapply scan_inv_trans; [exact H2|].
    eapply IH; [| |exact Hs]; unfold scan_inv in H2; lia. }
  destruct (c1 =? "-")%char.
  - destruct (longopt =? "")%string; [|apply Hcont].
    intros [= <- <-]. exact H1.
  - apply Hcont.
Qed.

End ScanInv.

(** X11. The option loop stays within its arrays: when it returns, [optind]
    is at least 1 and at most [argc], so that [argv + optind] is a token or
    the end of the command line, and at most 32 include files were stored. *)
Theorem X11_scan_options_bounds (ver : string) (argv : list string)
    (st : locals) (t : list event) :
  argv <> [] ->
  scan_options ver (S (length argv)) argv init_locals [] = (Ret st, t) ->
  (1 <= optind st <= length argv)%nat /\
  (length (include_list st) <= 32)%nat.
Proof.
  intros Hne Hs.
  assert (Hlen : (1 <= length argv)%nat) by (destruct argv; cbn; [congruence|lia]).
  destruct (scan_options_inv ver argv (S (length argv)) init_locals [] st t
              Hlen ltac:(cbn; lia) Hs) as (Hopt & Hinc & _).
  cbn in Hopt. unfold include_capacity in Hinc. lia.
Qed.

Lemma X11_scan_options_bounds_witness :
  exists st t,
    scan_options "2021-03-27" 5 ["qjs"; "-I"; "a.js"; "x"] init_locals []
      = (Ret st, t) /\
    (1 <= optind st <= 4)%nat /\
    (length (include_list st) <= 32)%nat.
Proof.
  eexists _, _. split; [vm_compute; reflexivity|].
  refine (X11_scan_options_bounds "2021-03-27" ["qjs"; "-I"; "a.js"; "x"] _ _ _ _);
    [discriminate | vm_compute; reflexivity].
Defined.

(** ** The option loop on command lines with the same tokens left *)

Lemma arg_at_drop (argv : list string) i : arg_at argv i = hd "" (drop i argv).
Proof.
  unfold arg_at. revert i. induction argv as [|a argv IH]; intros [|i]; cbn; auto.
Qed.

Section SameRest.

Variables (argv1 argv2 : list string) (i k : nat).
Hypothesis Hsame : same_rest argv1 i argv2 k.

Lemma same_rest_ltb : (i <? length argv1)%nat = (k <? length argv2)%nat.
Proof.
  destruct Hsame as (Hd & H1 & H2).
  apply (f_equal length) in Hd. rewrite !length_drop in Hd.
  destruct (Nat.ltb_spec i (length argv1)), (Nat.ltb_spec k (length argv2));
    auto; lia.
Qed.

Lemma same_rest_leb : (length argv1 <=? i)%nat = (length argv2 <=? k)%nat.
Proof.
  destruct Hsame as (Hd & H1 & H2).
  apply (f_equal length) in Hd. rewrite !length_drop in Hd.
  destruct (Nat.leb_spec (length argv1) i), (Nat.leb_spec (length argv2) k);
    auto; lia.
Qed.

Lemma same_rest_arg : arg_at argv1 i = arg_at argv2 k.
Proof. rewrite !arg_at_drop. now destruct Hsame as (-> & _). Qed.

Lemma same_rest_S :
  (i < length argv1)%nat -> same_rest argv1 (S i) argv2 (S k).
Proof.
  intros Hlt. pose proof same_rest_ltb as Hb.
  destruct Hsame as (Hd & H1 & H2).
  assert ((k < length argv2)%nat).
  { apply Nat.ltb_lt. rewrite <- Hb. now apply Nat.ltb_lt. }
  split; [|lia].
  replace (S i) with (i + 1)%nat by lia. replace (S k) with (k + 1)%nat by lia.
  now rewrite <- !drop_drop, Hd.
Qed.

End SameRest.

Ltac locals_simpl :=
  cbn [optind expr interactive dump_memory trace_memory empty_run module
       load_std dump_unhandled_promise_rejection memory_limit include_list
       strip_flags stack_size
       set_optind set_expr set_interactive set_dump_memory set_trace_memory
       set_empty_run set_module set_load_std
       set_dump_unhandled_promise_rejection set_memory_limit
       set_include_list set_strip_flags set_stack_size fst snd].

Section SameScan.

Variable ver : string.
Variables argv1 argv2 : list string.

Ltac same_leaf H :=
  split; [reflexivity|]; locals_simpl;
  first
    [ reflexivity
    | exact I
    | split; [reflexivity|]; split; [reflexivity|];
      first [exact H | apply same_rest_S; [exact H | lia]] ].

Lemma option_body_same opt longopt arg st k t :
  same_rest argv1 (optind st) argv2 k ->
  same_scan argv1 argv2 snd (fun a b => fst a = fst b)
    (option_body ver argv1 opt longopt arg st t)
    (option_body ver argv2 opt longopt arg (set_optind st k) t).
Proof.
  intros H.
  pose proof (same_rest_ltb _ _ _ _ H) as Hltb.
  pose proof (same_rest_leb _ _ _ _ H) as Hleb.
  pose proof (same_rest_arg _ _ _ _ H) as Harg.
  unfold option_body, help, bind, emit, exit, ret, same_scan.
  cbv beta zeta. locals_simpl. rewrite <- Hltb, <- Hleb, <- Harg.
  repeat (body_step; cbv beta iota; try (same_leaf H)).
  all: match goal with
       | |- context [get_suffixed_size ?a ?b] =>
           destruct (get_suffixed_size a b) as [[v|x| |] t1]
       end; same_leaf H.
Qed.

Lemma option_loop_same : forall arg longopt st k t,
  same_rest argv1 (optind st) argv2 k ->
  same_scan argv1 argv2 id (fun _ _ => True)
    (option_loop ver argv1 arg longopt st t)
    (option_loop ver argv2 arg longopt (set_optind st k) t).
Proof.
  induction arg as [|c rest IH]; intros longopt st k t H; cbn [option_loop].
  - destruct (longopt =? "")%string.
    + split; [reflexivity|]. cbn. auto.
    + pose proof (option_body_same NUL longopt "" st k t H) as Hb.
      unfold bind, same_scan in *.
      destruct (option_body ver argv1 NUL longopt "" st t)
        as [[[c1 s1]|x1| |] t1],
        (option_body ver argv2 NUL longopt "" (set_optind st k) t)
        as [[[c2 s2]|x2| |] t2]; cbn in *; tauto.
  - pose proof (option_body_same c longopt rest st k t H) as Hb.
    unfold bind, same_scan in *.
    destruct (option_body ver argv1 c longopt rest st t)
      as [[[c1 s1]|x1| |] t1],
      (option_body ver argv2 c longopt rest (set_optind st k) t)
      as [[[c2 s2]|x2| |] t2]; cbn in Hb; try tauto.
    destruct Hb as (-> & <- & Hs & Hr). destruct c1.
    + rewrite Hs. now apply IH.
    + cbn. auto.
Qed.

Lemma scan_options_same : forall fuel st k t,
  same_rest argv1 (optind st) argv2 k ->
  same_scan argv1 argv2 id (fun _ _ => True)
    (scan_options ver fuel argv1 st t)
    (scan_options ver fuel argv2 (set_optind st k) t).
Proof.
  induction fuel as [|fuel IH]; intros st k t H; cbn [scan_options].
  { split; [reflexivity|]. exact I. }
  locals_simpl.
  rewrite <- (same_rest_ltb _ _ _ _ H), <- (same_rest_arg _ _ _ _ H).
  assert (Hstay : same_scan argv1 argv2 id (fun _ _ => True)
                    (ret st t) (ret (set_optind st k) t)).
  { split; [reflexivity|]. cbn. auto. }
  destruct (Nat.ltb_spec (optind st) (length argv1)) as [Hlt|]; [|exact Hstay].
  destruct (arg_at argv1 (optind st)) as [|c arg]; [exact Hstay|].
  destruct (negb (c =? "-")%char); [exact Hstay|].
  destruct arg as [|c1 longopt]; [exact Hstay|].
  pose proof (same_rest_S _ _ _ _ H Hlt) as H1.
  assert (Hcont : forall a l,
    same_scan argv1 argv2 id (fun _ _ => True)
      ((let* st2 := option_loop ver argv1 a l (set_optind st (S (optind st))) in
        scan_options ver fuel argv1 st2) t)
      ((let* st2 := option_loop ver argv2 a l (set_optind st (S k)) in
        scan_options ver fuel argv2 st2) t)).
  { intros a l.
    pose proof (option_loop_same a l (set_optind st (S (optind st))) (S k) t H1)
      as Hl.
    unfold bind, same_scan in *. cbn [set_optind] in Hl.
    destruct (option_loop ver argv1 a l (set_optind st (S (optind st))) t)
      as [[s1|x1| |] t1],
      (option_loop ver argv2 a l _ t) as [[s2|x2| |] t2];
      cbn in Hl; try tauto.
    destruct Hl as (<- & _ & Hs & Hr). unfold id in Hs. rewrite Hs.
    now apply IH. }
  destruct (c1 =? "-")%char.
  - destruct (longopt =? "")%string; [|apply Hcont].
    split; [reflexivity|]. cbn. auto.
  - apply Hcont.
Qed.

End SameScan.

(** ** [main] on command lines with the same tokens left *)

Section Fuel.

Variable ver : string.
Variable argv : list string.

(** More fuel than tokens left is as good as any. *)
Lemma scan_options_fuel : forall f1 f2 st t,
  (optind st <= length argv)%nat ->
  (length (include_list st) <= include_capacity)%nat ->
  (length argv - optind st < f1)%nat ->
  (length argv - optind st < f2)%nat ->
  scan_options ver f1 argv st t = scan_options ver f2 argv st t.
Proof.
  induction f1 as [|f1 IH]; intros f2 st t Hopt Hinc H1 H2; [lia|].
  destruct f2 as [|f2]; [lia|]. cbn [scan_options].
  destruct (Nat.ltb_spec (optind st) (length argv)) as [Hlt|]; [|reflexivity].
  destruct (arg_at argv (optind st)) as [|c arg]; [reflexivity|].
  destruct (negb (c =? "-")%char); [reflexivity|].
  destruct arg as [|c1 longopt]; [reflexivity|].
  assert (Hcont : forall a l,
    (let* st2 := option_loop ver argv a l (set_optind st (S (optind st))) in
     scan_options ver f1 argv st2) t
    = (let* st2 := option_loop ver argv a l (set_optind st (S (optind st))) in
       scan_options ver f2 argv st2) t).
  { intros a l. unfold bind.
    destruct (option_loop ver argv a l (set_optind st (S (optind st))) t)
      as [[st2|x| |] t2] eqn:Hl; try reflexivity.
    apply option_loop_inv in Hl; [|cbn; lia|exact Hinc].
    destruct Hl as (Ho & Hi & _). cbn in Ho.
    apply IH; lia. }
  destruct (c1 =? "-")%char.
  - destruct (longopt =? "")%string; [reflexivity | apply Hcont].
  - apply Hcont.
Qed.

End Fuel.

Lemma bind_ext {A B} (m : M A) (k1 k2 : A -> M B) t :
  (forall a t', k1 a t' = k2 a t') -> bind m k1 t = bind m k2 t.
Proof.
  intros H. unfold bind. destruct (m t) as [[a|c| |] t']; auto.
Qed.

Lemma bind_ext_l {A B} (m1 m2 : M A) (k : A -> M B) t :
  m1 t = m2 t -> bind m1 k t = bind m2 k t.
Proof. intros H. unfold bind. now rewrite H. Qed.

Section MainSame.

Variable eng : Engine.
Variable ver : string.
Variables argv1 argv2 : list string.

Lemma run_user_code_same st k rt ctx t :
  same_rest argv1 (optind st) argv2 k ->
  run_user_code eng argv1 st rt ctx t
  = run_user_code eng argv2 (set_optind st k) rt ctx t.
Proof.
  intros H.
  pose proof (same_rest_leb _ _ _ _ H) as Hleb.
  pose proof (same_rest_arg _ _ _ _ H) as Harg.
  assert (Hlen : Z.of_nat (length argv1) - Z.of_nat (optind st)
                 = Z.of_nat (length argv2) - Z.of_nat k).
  { destruct H as (Hd & H1 & H2).
    apply (f_equal length) in Hd. rewrite !length_drop in Hd. lia. }
  destruct H as (Hd & _).
  unfold run_user_code. cbv zeta. locals_simpl.
  now rewrite Hlen, Hd, Hleb, Harg.
Qed.

Lemma main_after_options_same st k t :
  same_rest argv1 (optind st) argv2 k ->
  main_after_options eng argv1 st t
  = main_after_options eng argv2 (set_optind st k) t.
Proof.
  intros H. unfold main_after_options. locals_simpl.
  apply bind_ext. intros rt t1.
  destruct (rt =? NULL); [reflexivity|].
  do 5 (apply bind_ext; intros ? ?).
  apply bind_ext. intros ctx t2.
  destruct (ctx =? NULL); [reflexivity|].
  do 2 (apply bind_ext; intros ? ?).
  apply bind_ext_l.
  destruct (empty_run st =? 0); [|reflexivity].
  now apply run_user_code_same.
Qed.

(** [main] from a state of the option loop on: it depends on the command
    line through the tokens left only. *)
Lemma main_same f1 f2 st k t :
  same_rest argv1 (optind st) argv2 k ->
  (length (include_list st) <= include_capacity)%nat ->
  (length argv1 - optind st < f1)%nat ->
  (length argv2 - k < f2)%nat ->
  (let* st' := scan_options ver f1 argv1 st in
   main_after_options eng argv1 st') t
  = (let* st' := scan_options ver f2 argv2 (set_optind st k) in
     main_after_options eng argv2 st') t.
Proof.
  intros H Hinc Hf1 Hf2.
  assert (Hlen : (length argv1 - optind st = length argv2 - k)%nat).
  { destruct H as (Hd & H1 & H2).
    apply (f_equal length) in Hd. now rewrite !length_drop in Hd. }
  rewrite (bind_ext_l _ _ _ t
             (scan_options_fuel ver argv2 f2 f1 (set_optind st k) t
                (proj2 (proj2 H)) Hinc Hf2 ltac:(cbn; lia))).
  pose proof (scan_options_same ver argv1 argv2 f1 st k t H) as Hs.
  unfold bind, same_scan in *.
  destruct (scan_options ver f1 argv1 st t) as [[s1|x1| |] t1],
    (scan_options ver f1 argv2 (set_optind st k) t) as [[s2|x2| |] t2];
    cbn in Hs; try tauto.
  - destruct Hs as (<- & _ & Hs & Hr). unfold id in *. rewrite Hs.
    now apply main_after_options_same.
  - destruct Hs as [<- <-]. reflexivity.
  - destruct Hs as [<- _]. reflexivity.
  - destruct Hs as [<- _]. reflexivity.
Qed.

End MainSame.

(** ** Spellings of the options *)

Section FirstToken.

Variable eng : Engine.
Variable ver : string.

Lemma main_first_short argv c1 l t st2 t2 :
  (1 < length argv)%nat ->
  arg_at argv 1 = String "-" (String c1 l) ->
  (c1 =? "-")%char = false ->
  option_loop ver argv (String c1 l) "" (set_optind init_locals 2) t
    = (Ret st2, t2) ->
  main eng ver argv t
  = (let* st' := scan_options ver (length argv) argv st2 in
     main_after_options eng argv st') t2.
Proof.
  intros Hlen Harg Hc Hl. unfold main. unfold bind at 1.
  cbn [scan_options]. change (optind init_locals) with 1%nat.
  destruct (Nat.ltb_spec 1 (length argv)) as [_|]; [|lia].
  rewrite Harg. cbn [Ascii.eqb Bool.eqb negb]. rewrite Hc.
  unfold bind at 1.
  change (set_optind init_locals 2) with (set_optind init_locals 2) in Hl.
  rewrite Hl. reflexivity.
Qed.

Lemma main_first_long argv name t st2 t2 :
  (1 < length argv)%nat ->
  arg_at argv 1 = String "-" (String "-" name) ->
  name <> "" ->
  option_loop ver argv "" name (set_optind init_locals 2) t = (Ret st2, t2) ->
  main eng ver argv t
  = (let* st' := scan_options ver (length argv) argv st2 in
     main_after_options eng argv st') t2.
Proof.
  intros Hlen Harg Hname Hl. unfold main. unfold bind at 1.
  cbn [scan_options]. change (optind init_locals) with 1%nat.
  destruct (Nat.ltb_spec 1 (length argv)) as [_|]; [|lia].
  rewrite Harg. cbn [Ascii.eqb Bool.eqb negb].
  destruct (String.eqb_spec name "") as [|_]; [contradiction|].
  unfold bind at 1. rewrite Hl. reflexivity.
Qed.

(** X12. The spellings of [-e]: the expression attached to the letter, given
    as the next token, or given after [--eval], with the same effect. *)
Theorem X12_eval_option_forms (prog x : string) (rest : list string)
    (t : list event) :
  (x <> "" ->
   main eng ver (prog :: String "-" (String "e" x) :: rest) t
   = main eng ver (prog :: "-e" :: x :: rest) t) /\
  main eng ver (prog :: "--eval" :: x :: rest) t
  = main eng ver (prog :: "-e" :: x :: rest) t.
Proof.
  set (stB := set_expr (set_optind init_locals 3) (Some x)).
  assert (Hsep : main eng ver (prog :: "-e" :: x :: rest) t
    = (let* st' := scan_options ver (S (S (S (length rest))))
                     (prog :: "-e" :: x :: rest) stB in
       main_after_options eng (prog :: "-e" :: x :: rest) st') t).
  { apply (main_first_short (prog :: "-e" :: x :: rest) "e"%char "" t stB t);
      [cbn; lia | reflexivity | reflexivity | reflexivity]. }
  split.
  - intros Hx. rewrite Hsep.
    rewrite (main_first_short (prog :: String "-" (String "e" x) :: rest)
               "e"%char x t (set_expr (set_optind init_locals 2) (Some x)) t).
    + apply (main_same eng ver _ _ _ _
               (set_expr (set_optind init_locals 2) (Some x)) 3%nat t).
      * split; [reflexivity|]. cbn. lia.
      * cbn. lia.
      * cbn. lia.
      * cbn. lia.
    + cbn. lia.
    + reflexivity.
    + reflexivity.
    + cbn [option_loop]. unfold bind, option_body.
      cbn [Ascii.eqb Bool.eqb orb].
      destruct (String.eqb_spec x "") as [|_]; [contradiction|].
      reflexivity.
  - rewrite Hsep.
    rewrite (main_first_long (prog :: "--eval" :: x :: rest) "eval" t stB t).
    + apply (main_same eng ver _ _ _ _ stB 3%nat t).
      * split; [reflexivity|]. cbn. lia.
      * cbn. lia.
      * cbn. lia.
      * cbn. lia.
    + cbn. lia.
    + reflexivity.
    + discriminate.
    + reflexivity.
Qed.

(** X13. The long spellings of the options that have a letter, with the same
    effect as the letter. *)
Theorem X13_long_option_forms (prog f : string) (rest : list string)
    (t : list event) :
  main eng ver (prog :: "--include" :: f :: rest) t
    = main eng ver (prog :: "-I" :: f :: rest) t /\
  main eng ver (prog :: "--interactive" :: rest) t
    = main eng ver (prog :: "-i" :: rest) t /\
  main eng ver (prog :: "--module" :: rest) t
    = main eng ver (prog :: "-m" :: rest) t /\
  main eng ver (prog :: "--dump" :: rest) t
    = main eng ver (prog :: "-d" :: rest) t /\
  main eng ver (prog :: "--trace" :: rest) t
    = main eng ver (prog :: "-T" :: rest) t /\
  main eng ver (prog :: "--quit" :: rest) t
    = main eng ver (prog :: "-q" :: rest) t.
Proof.
  assert (H : forall name c tail st2,
    name <> "" -> (c =? "-")%char = false ->
    (length (include_list st2) <= include_capacity)%nat ->
    (2 <= optind st2 <= 2 + length tail)%nat ->
    option_loop ver (prog :: String "-" (String "-" name) :: tail) "" name
      (set_optind init_locals 2) t = (Ret st2, t) ->
    option_loop ver (prog :: String "-" (String c "") :: tail) (String c "") ""
      (set_optind init_locals 2) t = (Ret st2, t) ->
    main eng ver (prog :: String "-" (String "-" name) :: tail) t
    = main eng ver (prog :: String "-" (String c "") :: tail) t).
  { intros name c tail st2 Hname Hc Hinc Hopt Hlong Hshort.
    rewrite (main_first_long (prog :: String "-" (String "-" name) :: tail)
               name t st2 t ltac:(cbn; lia) eq_refl Hname Hlong).
    rewrite (main_first_short (prog :: String "-" (String c "") :: tail)
               c "" t st2 t ltac:(cbn; lia) eq_refl Hc Hshort).
    pose proof (main_same eng ver
                  (prog :: String "-" (String "-" name) :: tail)
                  (prog :: String "-" (String c "") :: tail)
                  (length (prog :: String "-" (String "-" name) :: tail))
                  (length (prog :: String "-" (String c "") :: tail))
                  st2 (optind st2) t) as Hm.
    replace (set_optind st2 (optind st2)) with st2 in Hm by now destruct st2.
    apply Hm; [|exact Hinc|cbn in *; lia|cbn in *; lia].
    split; [|cbn; lia].
    destruct (optind st2) as [|[|n]]; [lia|lia|reflexivity]. }
  split; [|split; [|split; [|split; [|split]]]].
  - apply (H "include" "I"%char (f :: rest)
             (set_include_list (set_optind init_locals 3) [f]));
      try reflexivity; try discriminate; unfold include_capacity; cbn; lia.
  - apply (H "interactive" "i"%char rest
             (set_interactive (set_optind init_locals 2) 1));
      try reflexivity; try discriminate; unfold include_capacity; cbn; lia.
  - apply (H "module" "m"%char rest (set_module (set_optind init_locals 2) 1));
      try reflexivity; try discriminate; unfold include_capacity; cbn; lia.
  - apply (H "dump" "d"%char rest
             (set_dump_memory (set_optind init_locals 2) 1));
      try reflexivity; try discriminate; unfold include_capacity; cbn; lia.
  - apply (H "trace" "T"%char rest
             (set_trace_memory (set_optind init_locals 2) 1));
      try reflexivity; try discriminate; unfold include_capacity; cbn; lia.
  - apply (H "quit" "q"%char rest
             (set_empty_run (set_optind init_locals 2) 1));
      try reflexivity; try discriminate; unfold include_capacity; cbn; lia.
Qed.

End FirstToken.

Lemma X12_eval_option_forms_witness :
  main ok_engine "2021-03-27" ["qjs"; "-e1"] []
  = main ok_engine "2021-03-27" ["qjs"; "-e"; "1"] [].
Proof.
  assert (Hx : "1" <> "") by discriminate.
  exact (proj1 (X12_eval_option_forms ok_engine "2021-03-27" "qjs" "1" [] []) Hx).
Defined.

(** ** Flag letters in one token *)

Section Flags.

Variable eng : Engine.
Variable ver : string.

Lemma is_flag_cases c :
  is_flag c = true ->
  c = "i"%char \/ c = "m"%char \/ c = "d"%char \/ c = "T"%char \/
  c = "q"%char \/ c = "s"%char.
Proof.
  unfold is_flag. cbn [existsb]. rewrite !orb_true_iff.
  rewrite !Ascii.eqb_eq. intuition discriminate.
Qed.

Lemma option_body_flag argv c arg st t :
  is_flag c = true ->
  option_body ver argv c "" arg st t = (Ret (Continue, flag_state c st), t).
Proof.
  intros Hc.
  destruct (is_flag_cases c Hc) as [->|[->|[->|[->|[->| ->]]]]]; reflexivity.
Qed.

Lemma flag_not_dash c : is_flag c = true -> (c =? "-")%char = false.
Proof.
  intros Hc.
  destruct (is_flag_cases c Hc) as [->|[->|[->|[->|[->| ->]]]]]; reflexivity.
Qed.

(** A run of flag letters changes the flags only, and then the letters
    that follow in the token are looked at. *)
Lemma option_loop_flags argv : forall l s st t,
  all_flags l ->
  option_loop ver argv (l +:+ s) "" st t
  = option_loop ver argv s "" (flags_state l st) t.
Proof.
  induction l as [|c l IH]; intros s st t Hl; [reflexivity|].
  destruct Hl as [Hc Hl].
  change (String c l +:+ s) with (String c (l +:+ s)).
  cbn [option_loop flags_state]. unfold bind.
  rewrite (option_body_flag _ _ _ _ _ Hc). now apply IH.
Qed.

Lemma flag_state_optind c st k :
  flag_state c (set_optind st k) = set_optind (flag_state c st) k.
Proof. unfold flag_state. repeat (destruct (_ =? _)%char; [reflexivity|]). reflexivity. Qed.

Lemma flags_state_optind : forall l st k,
  flags_state l (set_optind st k) = set_optind (flags_state l st) k.
Proof.
  induction l as [|c l IH]; intros st k; [reflexivity|].
  cbn [flags_state]. now rewrite flag_state_optind, IH.
Qed.

Lemma flag_state_keeps c st :
  optind (flag_state c st) = optind st /\
  include_list (flag_state c st) = include_list st.
Proof.
  unfold flag_state. repeat (destruct (_ =? _)%char; [split; reflexivity|]).
  split; reflexivity.
Qed.

Lemma flags_state_keeps : forall l st,
  optind (flags_state l st) = optind st /\
  include_list (flags_state l st) = include_list st.
Proof.
  induction l as [|c l IH]; intros st; [split; reflexivity|].
  cbn [flags_state]. destruct (IH (flag_state c st)) as [-> ->].
  apply flag_state_keeps.
Qed.

Lemma flags_state_app : forall l1 l2 st,
  flags_state (l1 +:+ l2) st = flags_state l2 (flags_state l1 st).
Proof.
  induction l1 as [|c l1 IH]; intros l2 st; [reflexivity|].
  change (String c l1 +:+ l2) with (String c (l1 +:+ l2)).
  cbn [flags_state]. apply IH.
Qed.

Lemma scan_short_step argv f st c1 l t st2 t2 :
  (optind st < length argv)%nat ->
  arg_at argv (optind st) = String "-" (String c1 l) ->
  (c1 =? "-")%char = false ->
  option_loop ver argv (String c1 l) "" (set_optind st (S (optind st))) t
    = (Ret st2, t2) ->
  scan_options ver (S f) argv st t = scan_options ver f argv st2 t2.
Proof.
  intros Hlt Harg Hc Hl. cbn [scan_options].
  destruct (Nat.ltb_spec (optind st) (length argv)) as [_|]; [|lia].
  rewrite Harg. cbn [Ascii.eqb Bool.eqb negb]. rewrite Hc.
  unfold bind at 1. now rewrite Hl.
Qed.

(** X14. Flag letters packed in one token have the effect they have in two
    tokens. *)
Theorem X14_flag_cluster_split (prog l1 l2 : string) (rest : list string)
    (t : list event) :
  all_flags l1 -> all_flags l2 -> l1 <> "" -> l2 <> "" ->
  main eng ver (prog :: ("-" +:+ l1 +:+ l2) :: rest) t
  = main eng ver (prog :: ("-" +:+ l1) :: ("-" +:+ l2) :: rest) t.
Proof.
  intros H1 H2 Hn1 Hn2.
  destruct l1 as [|a l1]; [contradiction|].
  destruct l2 as [|b l2]; [contradiction|].
  pose proof (flag_not_dash a (proj1 H1)) as Ha.
  pose proof (flag_not_dash b (proj1 H2)) as Hb.
  set (st0 := set_optind init_locals 2).
  set (argv1 := prog :: ("-" +:+ String a l1 +:+ String b l2) :: rest).
  set (argv2 := prog :: ("-" +:+ String a l1) :: ("-" +:+ String b l2) :: rest).
  set (stA := flags_state (String a l1 +:+ String b l2) st0).
  assert (HA : option_loop ver argv1 (String a (l1 +:+ String b l2)) "" st0 t
               = (Ret stA, t)).
  { change (String a (l1 +:+ String b l2)) with (String a l1 +:+ String b l2).
    rewrite <- (append_empty_r (String a l1 +:+ String b l2)) at 1.
    rewrite option_loop_flags; [reflexivity|].
    clear -H1 H2. revert H1. generalize (String a l1) as l.
    induction l as [|c l IH]; intros Hl; [exact H2|].
    destruct Hl. split; auto. }
  assert (HB1 : option_loop ver argv2 (String a l1) "" st0 t
                = (Ret (flags_state (String a l1) st0), t)).
  { rewrite <- (append_empty_r (String a l1)) at 1.
    now rewrite option_loop_flags. }
  assert (HB2 : option_loop ver argv2 (String b l2) ""
                  (set_optind (flags_state (String a l1) st0) 3) t
                = (Ret (set_optind stA 3), t)).
  { rewrite <- (append_empty_r (String b l2)) at 1.
    rewrite option_loop_flags by exact H2. cbn [option_loop String.eqb].
    unfold ret, stA.
    now rewrite flags_state_app, flags_state_optind. }
  rewrite (main_first_short eng ver argv1 a (l1 +:+ String b l2) t stA t
             ltac:(cbn; lia) eq_refl Ha HA).
  rewrite (main_first_short eng ver argv2 a l1 t _ t
             ltac:(cbn; lia) eq_refl Ha HB1).
  destruct (flags_state_keeps (String a l1) st0) as [Ho1 Hi1].
  destruct (flags_state_keeps (String a l1 +:+ String b l2) st0) as [HoA HiA].
  fold stA in HoA, HiA. cbn [optind st0 set_optind] in Ho1, HoA.
  unfold bind at 2.
  change (length argv2) with (S (S (S (length rest)))).
  rewrite (scan_short_step argv2 (S (S (length rest))) _ b l2 t
             (set_optind stA 3) t).
  - fold (bind (scan_options ver (S (S (length rest))) argv2 (set_optind stA 3))
               (main_after_options eng argv2) t).
    apply (main_same eng ver argv1 argv2 _ _ stA 3%nat t).
    + rewrite HoA. split; [reflexivity|]. cbn. lia.
    + rewrite HiA. cbn. lia.
    + rewrite HoA. cbn. lia.
    + cbn. lia.
  - rewrite Ho1. cbn. lia.
  - rewrite Ho1. reflexivity.
  - exact Hb.
  - rewrite Ho1. exact HB2.
Qed.

End Flags.

Lemma X14_flag_cluster_split_witness :
  main ok_engine "2021-03-27" ["qjs"; "-dq"] []
  = main ok_engine "2021-03-27" ["qjs"; "-d"; "-q"] [].
Proof.
  refine (X14_flag_cluster_split ok_engine "2021-03-27" "qjs" "d" "q" [] [] _ _ _ _);
    [cbn; auto | cbn; auto | discriminate | discriminate].
Defined.

(** ** The help options *)

Section Help.

Variable eng : Engine.
Variable ver : string.

Lemma main_first_short_exit argv c1 l t c t2 :
  (1 < length argv)%nat ->
  arg_at argv 1 = String "-" (String c1 l) ->
  (c1 =? "-")%char = false ->
  option_loop ver argv (String c1 l) "" (set_optind init_locals 2) t
    = (Exit c, t2) ->
  main eng ver argv t = (Exit c, t2).
Proof.
  intros Hlen Harg Hc Hl. unfold main. unfold bind at 1.
  cbn [scan_options]. change (optind init_locals) with 1%nat.
  destruct (Nat.ltb_spec 1 (length argv)) as [_|]; [|lia].
  rewrite Harg. cbn [Ascii.eqb Bool.eqb negb]. rewrite Hc.
  unfold bind at 1. rewrite Hl. reflexivity.
Qed.

(** X15. [-h], [-?] and [--help] print the usage on standard output and exit
    with status 1, before anything else is done; flag letters in front of
    the letter change nothing, and what follows it is not looked at. *)
Theorem X15_help_option (prog l x : string) (rest : list string)
    (t : list event) :
  all_flags l ->
  main eng ver (prog :: ("-" +:+ l +:+ String "h" x) :: rest) t
    = (Exit 1, (t ++ [E_stdout (usage ver)])%list) /\
  main eng ver (prog :: ("-" +:+ l +:+ String "?" x) :: rest) t
    = (Exit 1, (t ++ [E_stdout (usage ver)])%list) /\
  main eng ver (prog :: "--help" :: rest) t
    = (Exit 1, (t ++ [E_stdout (usage ver)])%list).
Proof.
  intros Hl.
  assert (H : forall c, c = "h"%char \/ c = "?"%char ->
    main eng ver (prog :: ("-" +:+ l +:+ String c x) :: rest) t
    = (Exit 1, (t ++ [E_stdout (usage ver)])%list)).
  { intros c Hc.
    assert (Hloop : forall argv,
      option_loop ver argv (l +:+ String c x) "" (set_optind init_locals 2) t
      = (Exit 1, (t ++ [E_stdout (usage ver)])%list)).
    { intros argv. rewrite (option_loop_flags ver argv l _ _ _ Hl).
      cbn [option_loop]. unfold bind, option_body.
      destruct Hc as [-> | ->]; reflexivity. }
    destruct l as [|a l'].
    - apply (main_first_short_exit
               (prog :: ("-" +:+ "" +:+ String c x) :: rest) c x t 1);
        [cbn; lia | reflexivity
        | destruct Hc as [-> | ->]; reflexivity | apply Hloop].
    - apply (main_first_short_exit
               (prog :: ("-" +:+ String a l' +:+ String c x) :: rest)
               a (l' +:+ String c x) t 1);
        [cbn; lia | reflexivity
        | exact (flag_not_dash a (proj1 Hl)) | apply Hloop]. }
  split; [apply H; auto|]. split; [apply H; auto|]. reflexivity.
Qed.

End Help.

Lemma X15_help_option_witness :
  main ok_engine "2021-03-27" ["qjs"; "-dh"; "main.js"] []
  = (Exit 1, [E_stdout (usage "2021-03-27")]).
Proof.
  assert (Hl : all_flags "d") by (cbn; auto).
  exact (proj1 (X15_help_option ok_engine "2021-03-27" "qjs" "d" "" ["main.js"] []
                  Hl)).
Defined.

(** ** The quit option *)

Section Quit.

Variable eng : Engine.
Variable ver : string.

Lemma benchmark_emits (P : event -> Prop) :
  P E_clock ->
  (forall rt, P (E_JS_NewRuntime rt)) ->
  (forall rt ctx, P (E_JS_NewContext rt ctx)) ->
  (forall ctx, P (E_JS_FreeContext ctx)) ->
  (forall rt, P (E_JS_FreeRuntime rt)) ->
  forall n, emits P (benchmark eng n).
Proof.
  intros H1 H2 H3 H4 H5. induction n as [|n IH]; cbn [benchmark].
  - apply emits_ret.
  - repeat first [exact IH | emits_step].
Qed.

Lemma main_after_options_quit argv st :
  empty_run st <> 0 ->
  emits no_user_code (main_after_options eng argv st).
Proof.
  intros Hq. unfold main_after_options, JS_NewCustomContext.
  rewrite (proj2 (Z.eqb_neq _ _) Hq).
  repeat emits_step.
  all: apply benchmark_emits; cbn; auto.
Qed.

Lemma is_output_no_user_code e : is_output e -> no_user_code e.
Proof. destruct e; cbn; tauto. Qed.

Lemma scan_long_step argv f st name t st2 t2 :
  (optind st < length argv)%nat ->
  arg_at argv (optind st) = String "-" (String "-" name) ->
  name <> "" ->
  option_loop ver argv "" name (set_optind st (S (optind st))) t
    = (Ret st2, t2) ->
  scan_options ver (S f) argv st t = scan_options ver f argv st2 t2.
Proof.
  intros Hlt Harg Hname Hl. cbn [scan_options].
  destruct (Nat.ltb_spec (optind st) (length argv)) as [_|]; [|lia].
  rewrite Harg. cbn [Ascii.eqb Bool.eqb negb].
  destruct (String.eqb_spec name "") as [|_]; [contradiction|].
  unfold bind at 1. now rewrite Hl.
Qed.

(** X16. With [-q] nothing of the user's is run: once the option loop has
    returned with [empty_run] set, [main] hands no arguments to a script,
    reads and evaluates nothing, starts neither the interactive shell nor
    the event loop, and ends with status 0, or with [exit (2)] when the
    runtime or the context cannot be created. [empty_run] is set when [-q]
    or [--quit] is the first option, whatever follows. *)
Theorem X16_quit_runs_no_user_code (argv : list string) (st : locals)
    (t1 : list event) (r : result Z) (t : list event) :
  scan_options ver (S (length argv)) argv init_locals [] = (Ret st, t1) ->
  main eng ver argv [] = (r, t) ->
  (empty_run st <> 0 ->
   Forall no_user_code t /\ (r = Ret 0 \/ r = Exit 2)) /\
  ((exists prog rest,
      argv = prog :: "-q" :: rest \/ argv = prog :: "--quit" :: rest) ->
   empty_run st <> 0).
Proof.
  intros Hscan Hmain. split.
  - intros Hq. unfold main, bind in Hmain. rewrite Hscan in Hmain.
    destruct (scan_options_ensures ver argv (S (length argv)) init_locals
                ltac:(cbn; lia) ltac:(constructor) [])
      as (d1 & Hd1 & Hout & _).
    rewrite Hscan in Hd1. cbn in Hd1. subst t1.
    destruct (main_after_options_quit argv st Hq d1) as (d & Hd & Hno & _).
    destruct (main_after_options_ensures eng argv st d1) as (d' & Hd' & Hpost).
    rewrite Hmain in Hd, Hd', Hpost. cbn in Hd, Hd', Hpost.
    split.
    + rewrite Hd. apply Forall_app. split; [|exact Hno].
      eapply Forall_impl; [exact Hout | exact is_output_no_user_code].
    + destruct Hpost as [[-> _]|
        (rt & ctx & d0 & d2 & _ & _ & _ &
         setup & ucode & rest & ru & _ & _ & Hu & Hr)]; [now right|].
      rewrite (proj2 (Z.eqb_neq _ _) Hq) in Hu. destruct Hu as [-> _].
      destruct Hr as [-> _]. now left.
  - intros (prog & rest & Hargv).
    assert (H1 : exists f st2,
      scan_options ver (S (length argv)) argv init_locals []
      = scan_options ver f argv st2 [] /\
      empty_run st2 = 1 /\ (optind st2 <= length argv)%nat /\
      include_list st2 = []).
    { exists (length argv), (set_empty_run (set_optind init_locals 2) 1).
      split; [|cbn; destruct Hargv as [-> | ->]; cbn; repeat split; lia].
      destruct Hargv as [-> | ->].
      - apply (scan_short_step ver _ _ _ "q"%char "");
          [cbn; lia | reflexivity | reflexivity | reflexivity].
      - apply (scan_long_step _ _ _ "quit");
          [cbn; lia | reflexivity | discriminate | reflexivity]. }
    destruct H1 as (f & st2 & Heq & Hq & Hopt & Hinc).
    rewrite Heq in Hscan.
    apply scan_options_inv in Hscan; [|exact Hopt|rewrite Hinc; cbn; lia].
    destruct Hscan as (_ & _ & _ & _ & _ & Hmono). lia.
Qed.

End Quit.

Lemma X16_quit_runs_no_user_code_witness :
  let argv := ["qjs"; "-q"; "-e"; "1"] in
  Forall no_user_code (snd (main ok_engine "2021-03-27" argv [])) /\
  (fst (main ok_engine "2021-03-27" argv []) = Ret 0 \/
   fst (main ok_engine "2021-03-27" argv []) = Exit 2).
Proof.
  intros argv.
  destruct (scan_options "2021-03-27" (S (length argv)) argv init_locals [])
    as [rs t1] eqn:Hscan.
  assert (Hrun : main ok_engine "2021-03-27" argv []
                 = (fst (main ok_engine "2021-03-27" argv []),
                    snd (main ok_engine "2021-03-27" argv [])))
    by apply surjective_pairing.
  vm_compute in Hscan. injection Hscan as <- <-.
  refine (proj1 (X16_quit_runs_no_user_code ok_engine "2021-03-27" argv _ _ _ _
                   ltac:(vm_compute; reflexivity) Hrun) _).
  vm_compute. discriminate.
Defined.

(** ** Exits and their diagnostics *)

Section Explained.

Variable eng : Engine.
Variable ver : string.

Lemma explained_prefix {A} (r : result A) d d' :
  explained ver r d' -> explained ver r (d ++ d')%list.
Proof.
  destruct r as [a|c| |]; cbn; auto.
  intros (d0 & e & -> & H). exists (d ++ d0)%list, e.
  now rewrite app_assoc.
Qed.

Lemma explained_bind {A B} (m : M A) (k : A -> M B) :
  ensures m (explained ver) ->
  (forall a, ensures (k a) (explained ver)) ->
  ensures (bind m k) (explained ver).
Proof.
  intros Hm Hk. apply ensures_bind with (Qm := explained ver); auto.
  intros a d _. eapply ensures_weaken; [apply Hk|].
  intros r d'. apply explained_prefix.
Qed.

Lemma explained_emit_exit {A} (e : event) (c : Z) :
  (c = 1 /\ explains_1 ver e) \/ (c = 2 /\ explains_2 e) ->
  ensures (emit e >> @exit A c) (explained ver).
Proof.
  intros H t. exists [e]. split; [reflexivity|]. cbn. exists [], e. auto.
Qed.

Lemma explained_ret {A} (a : A) : ensures (ret a) (explained ver).
Proof. now apply ensures_ret. Qed.

Lemma explained_emit (e : event) : ensures (emit e) (explained ver).
Proof. now apply ensures_emit. Qed.

Lemma explained_ask {A} (f : list event -> A) (e : A -> event) :
  ensures (ask f e) (explained ver).
Proof. now apply ensures_ask. Qed.

Lemma explained_undefined {A} : ensures (@undefined A) (explained ver).
Proof. now apply ensures_undefined. Qed.

Lemma explained_out_of_fuel {A} : ensures (@out_of_fuel A) (explained ver).
Proof. intros t. exists []. cbn. now rewrite app_nil_r. Qed.

Lemma explained_when (b : bool) (m : M unit) :
  ensures m (explained ver) -> ensures (when b m) (explained ver).
Proof. intros H. destruct b; [exact H | apply explained_ret]. Qed.

Ltac explained_step :=
  match goal with
  | |- ensures (bind (emit _) (fun _ => exit _)) _ =>
      apply explained_emit_exit; cbn; unfold explains_2; auto 6
  | |- ensures (bind _ _) _ => apply explained_bind; [|intros]
  | |- ensures (ret _) _ => apply explained_ret
  | |- ensures undefined _ => apply explained_undefined
  | |- ensures out_of_fuel _ => apply explained_out_of_fuel
  | |- ensures (emit _) _ => apply explained_emit
  | |- ensures (ask _ _) _ => apply explained_ask
  | |- ensures (when _ _) _ => apply explained_when
  | |- ensures (help _) _ => unfold help
  | |- ensures (if ?b then _ else _) _ => destruct b
  | |- ensures (match ?x with _ => _ end) _ => destruct x
  | |- ensures (let '(_, _) := ?x in _) _ => destruct x
  end.

Lemma get_suffixed_size_explained str :
  ensures (get_suffixed_size str) (explained ver).
Proof. unfold get_suffixed_size. repeat explained_step. Qed.

Lemma option_body_explained argv opt longopt arg st :
  ensures (option_body ver argv opt longopt arg st) (explained ver).
Proof.
  unfold option_body.
  repeat explained_step.
  all: apply get_suffixed_size_explained.
Qed.

Lemma option_loop_explained argv : forall arg longopt st,
  ensures (option_loop ver argv arg longopt st) (explained ver).
Proof.
  induction arg as [|c rest IH]; intros longopt st; cbn [option_loop].
  - destruct (longopt =? "")%string; [apply explained_ret|].
    apply explained_bind; [apply option_body_explained|].
    intros r. apply explained_ret.
  - apply explained_bind; [apply option_body_explained|].
    intros [[] st']; [apply IH | apply explained_ret].
Qed.

Lemma scan_options_explained argv : forall fuel st,
  ensures (scan_options ver fuel argv st) (explained ver).
Proof.
  induction fuel as [|fuel IH]; intros st; cbn [scan_options].
  - apply explained_out_of_fuel.
  - repeat explained_step.
    all: lazymatch goal with
         | |- ensures (option_loop _ _ _ _ _) _ => apply option_loop_explained
         | |- ensures (scan_options _ _ _ _) _ => apply IH
         end.
Qed.

Lemma eval_buf_explained ctx buf filename flags :
  ensures (eval_buf eng ctx buf filename flags) (explained ver).
Proof. unfold eval_buf. repeat explained_step. Qed.

Lemma eval_file_explained ctx filename module :
  ensures (eval_file eng ctx filename module) (explained ver).
Proof.
  unfold eval_file.
  repeat explained_step.
  all: apply eval_buf_explained.
Qed.

Lemma eval_includes_explained ctx module : forall files,
  ensures (eval_includes eng ctx files module) (explained ver).
Proof.
  induction files as [|f files IH]; cbn [eval_includes].
  - apply explained_ret.
  - apply explained_bind; [apply eval_file_explained|].
    intros r. destruct (negb (r =? 0)); [apply explained_ret | apply IH].
Qed.

Lemma benchmark_explained : forall n,
  ensures (benchmark eng n) (explained ver).
Proof.
  induction n as [|n IH]; cbn [benchmark].
  - apply explained_ret.
  - repeat explained_step. exact IH.
Qed.

Lemma run_user_code_explained argv st rt ctx :
  ensures (run_user_code eng argv st rt ctx) (explained ver).
Proof.
  unfold run_user_code.
  repeat explained_step.
  all: lazymatch goal with
       | |- ensures (eval_buf _ _ _ _ _) _ => apply eval_buf_explained
       | |- ensures (eval_file _ _ _ _) _ => apply eval_file_explained
       | |- ensures (eval_includes _ _ _ _) _ => apply eval_includes_explained
       end.
Qed.

Lemma main_after_options_explained argv st :
  ensures (main_after_options eng argv st) (explained ver).
Proof.
  unfold main_after_options, JS_NewCustomContext.
  repeat explained_step.
  all: lazymatch goal with
       | |- ensures (run_user_code _ _ _ _ _) _ => apply run_user_code_explained
       | |- ensures (benchmark _ _) _ => apply benchmark_explained
       end.
Qed.

(** X17. Every exit is explained. When [main] leaves through [exit], the
    last thing it did was to print: with status 1 a diagnostic on standard
    error, the line of [perror], or the usage text; with status 2 one of
    three diagnostics, for a missing [-e] expression and for a runtime or a
    context that cannot be created. There is no other exit status. *)
Theorem X17_exit_is_explained (argv : list string) (c : Z) (t : list event) :
  main eng ver argv [] = (Exit c, t) ->
  exists t0 e, t = (t0 ++ [e])%list /\
    ((c = 1 /\ explains_1 ver e) \/ (c = 2 /\ explains_2 e)).
Proof.
  intros Hmain.
  assert (H : ensures (main eng ver argv) (explained ver)).
  { unfold main. apply explained_bind;
      [apply scan_options_explained | intros; apply main_after_options_explained]. }
  destruct (H []) as (d & Hd & He). rewrite Hmain in Hd, He.
  cbn in Hd, He. subst t. exact He.
Qed.

End Explained.

Lemma X17_exit_is_explained_witness :
  exists t0 e,
    snd (main no_file_engine "2021-03-27" ["qjs"; "missing.js"] [])
    = (t0 ++ [e])%list /\
    ((1 = 1 /\ explains_1 "2021-03-27" e) \/ (1 = 2 /\ explains_2 e)).
Proof.
  assert (Hrun : main no_file_engine "2021-03-27" ["qjs"; "missing.js"] []
                 = (Exit 1,
                    snd (main no_file_engine "2021-03-27"
                           ["qjs"; "missing.js"] [])))
    by (vm_compute; reflexivity).
  exact (X17_exit_is_explained no_file_engine "2021-03-27" ["qjs"; "missing.js"]
           1 _ Hrun).
Defined.

(** ** The event loop *)

Lemma ensures_conj {A} (m : M A) (Q1 Q2 : result A -> list event -> Prop) :
  ensures m Q1 -> ensures m Q2 -> ensures m (fun r d => Q1 r d /\ Q2 r d).
Proof.
  intros H1 H2 t. destruct (H1 t) as (d & Hd & Hq1).
  destruct (H2 t) as (d' & Hd' & Hq2). exists d.
  rewrite Hd in Hd'. apply app_inv_head in Hd'. subst d'. auto.
Qed.

Lemma ensures_bind_emits {A B} (P : event -> Prop) (m : M A) (k : A -> M B)
    (Q : result B -> list event -> Prop) :
  emits P m ->
  (forall r d d', Forall P d -> Q r d' -> Q r (d ++ d')%list) ->
  (forall a, ensures (k a) Q) ->
  (forall c d, Forall P d -> Q (Exit c) d) ->
  (forall d, Forall P d -> Q Undefined d) ->
  ensures (bind m k) Q.
Proof.
  intros Hm Hpre Hk Hexit Hundef.
  apply ensures_bind with (Qm := fun r d => Forall P d /\ r <> OutOfFuel).
  - exact Hm.
  - intros a d [Hd _]. eapply ensures_weaken; [apply Hk|].
    intros r d' Hq. now apply Hpre.
  - intros c d [Hd _]. now apply Hexit.
  - intros d [Hd _]. now apply Hundef.
  - intros d [_ Hr]. contradiction.
Qed.

Section EventLoop.

Variable eng : Engine.
Variable ver : string.

Lemma eval_buf_calm ctx buf filename flags :
  emits calm (eval_buf eng ctx buf filename flags).
Proof. unfold eval_buf. emits_auto. Qed.

Lemma eval_file_calm ctx filename module :
  emits calm (eval_file eng ctx filename module).
Proof.
  unfold eval_file. emits_auto. all: apply eval_buf_calm.
Qed.

Lemma eval_includes_calm ctx module : forall files,
  emits calm (eval_includes eng ctx files module).
Proof.
  induction files as [|f files IH]; cbn [eval_includes].
  - apply emits_ret.
  - apply emits_bind; [apply eval_file_calm|].
    intros r. destruct (negb (r =? 0)); [apply emits_ret | apply IH].
Qed.

Lemma user_loop_post_prefix rt ctx r d d' :
  Forall calm d -> user_loop_post rt ctx r d' ->
  user_loop_post rt ctx r (d ++ d')%list.
Proof.
  intros Hd (body & tail & -> & Hb & Ht).
  exists (d ++ body)%list, tail. rewrite app_assoc.
  split; [reflexivity|]. split; [apply Forall_app; auto | exact Ht].
Qed.

Lemma user_loop_post_calm rt ctx (r : result bool) d :
  Forall calm d ->
  match r with Ret false => False | _ => True end ->
  user_loop_post rt ctx r d.
Proof.
  intros Hd Hr. exists d, []. rewrite app_nil_r.
  split; [reflexivity|]. split; [exact Hd|].
  destruct r as [[]|c| |]; tauto.
Qed.

Lemma run_user_code_loop argv st rt ctx :
  ensures (run_user_code eng argv st rt ctx) (user_loop_post rt ctx).
Proof.
  unfold run_user_code.
  assert (Hcalm : forall (r : result bool) d, Forall calm d ->
            match r with Ret false => False | _ => True end ->
            user_loop_post rt ctx r d)
    by apply user_loop_post_calm.
  apply ensures_bind_emits with (P := calm);
    [emits_auto | apply user_loop_post_prefix | intros _
    | intros; now apply Hcalm | intros; now apply Hcalm].
  apply ensures_bind_emits with (P := calm);
    [emits_auto; apply eval_buf_calm | apply user_loop_post_prefix | intros _
    | intros; now apply Hcalm | intros; now apply Hcalm].
  apply ensures_bind_emits with (P := calm);
    [apply eval_includes_calm | apply user_loop_post_prefix | intros failed
    | intros; now apply Hcalm | intros; now apply Hcalm].
  destruct failed.
  { apply ensures_ret. now apply Hcalm. }
  apply ensures_bind_emits with (P := calm);
    [| apply user_loop_post_prefix | intros [failed i]
     | intros; now apply Hcalm | intros; now apply Hcalm].
  { emits_auto; first [apply eval_buf_calm | apply eval_file_calm]. }
  destruct failed.
  { apply ensures_ret. now apply Hcalm. }
  intros t. unfold bind, emit, ret.
  destruct (negb (i =? 0)); eexists;
    (split; [cbn; rewrite <- ?app_assoc; reflexivity|]).
  - exists [], [E_JS_SetHostPromiseRejectionTracker rt false;
                E_js_std_eval_binary_repl ctx; E_js_std_loop ctx].
    split; [reflexivity|]. split; [constructor|]. now right.
  - exists [], [E_js_std_loop ctx].
    split; [reflexivity|]. split; [constructor|]. now left.
Qed.

Lemma loop_post_prefix run r d d' :
  Forall calm d -> loop_post run r d' -> loop_post run r (d ++ d')%list.
Proof.
  intros Hd (before & tail & after & -> & Hb & Ha & Ht & Hrun).
  exists (d ++ before)%list, tail, after. rewrite <- app_assoc.
  split; [reflexivity|]. split; [apply Forall_app; auto|]. auto.
Qed.

Lemma loop_post_calm run (r : result Z) d :
  Forall calm d -> (r = Ret 0 -> ~ run) -> loop_post run r d.
Proof.
  intros Hd Hr. exists d, [], []. rewrite app_nil_r.
  split; [reflexivity|]. split; [exact Hd|]. split; [constructor|].
  split; [now left|]. intros H0 Hrun. now destruct (Hr H0).
Qed.

Lemma teardown_calm st rt ctx (failed : bool) :
  ensures
    (if failed then
       emit (E_js_std_free_handlers rt) >> emit (E_JS_FreeContext ctx) >>
       emit (E_JS_FreeRuntime rt) >> ret 1
     else
       when (negb (dump_memory st =? 0))
         (emit (E_JS_ComputeMemoryUsage rt) >> emit (E_JS_DumpMemoryUsage rt)) >>
       emit (E_js_std_free_handlers rt) >> emit (E_JS_FreeContext ctx) >>
       emit (E_JS_FreeRuntime rt) >>
       when (negb (empty_run st =? 0) && negb (dump_memory st =? 0))
         (benchmark eng 100 >> emit E_print_instantiation_times) >>
       ret 0)
    (fun r d => Forall calm d /\ r = Ret (if failed then 1 else 0)).
Proof.
  eapply ensures_weaken.
  - apply ensures_conj.
    + assert (H : emits calm
        (if failed then
           emit (E_js_std_free_handlers rt) >> emit (E_JS_FreeContext ctx) >>
           emit (E_JS_FreeRuntime rt) >> ret 1
         else
           when (negb (dump_memory st =? 0))
             (emit (E_JS_ComputeMemoryUsage rt) >>
              emit (E_JS_DumpMemoryUsage rt)) >>
           emit (E_js_std_free_handlers rt) >> emit (E_JS_FreeContext ctx) >>
           emit (E_JS_FreeRuntime rt) >>
           when (negb (empty_run st =? 0) && negb (dump_memory st =? 0))
             (benchmark eng 100 >> emit E_print_instantiation_times) >>
           ret 0)).
      { emits_auto. all: apply benchmark_emits; cbn; auto. }
      exact H.
    + apply (teardown_ensures eng st rt ctx failed).
  - cbn beta. intros r d [[Hd _] [Hr _]]. auto.
Qed.

Lemma main_after_options_loop argv st :
  ensures (main_after_options eng argv st) (loop_post (empty_run st = 0)).
Proof.
  unfold main_after_options.
  assert (Hcalm : forall c d, Forall calm d ->
            loop_post (empty_run st = 0) (Exit c) d).
  { intros c d Hd. apply loop_post_calm; [exact Hd | discriminate]. }
  assert (Hundef : forall d, Forall calm d ->
            loop_post (empty_run st = 0) Undefined d).
  { intros d Hd. apply loop_post_calm; [exact Hd | discriminate]. }
  apply ensures_bind_emits with (P := calm);
    [emits_auto | apply loop_post_prefix | intros rt | exact Hcalm
    | exact Hundef].
  destruct (rt =? NULL).
  { intros t. eexists. split; [reflexivity|]. apply Hcalm. repeat constructor. }
  do 5 (apply ensures_bind_emits with (P := calm);
          [emits_auto | apply loop_post_prefix | intros _ | exact Hcalm
          | exact Hundef]).
  apply ensures_bind_emits with (P := calm);
    [unfold JS_NewCustomContext; emits_auto | apply loop_post_prefix
    | intros ctx | exact Hcalm | exact Hundef].
  destruct (ctx =? NULL).
  { intros t. eexists. split; [reflexivity|]. apply Hcalm. repeat constructor. }
  do 2 (apply ensures_bind_emits with (P := calm);
          [emits_auto | apply loop_post_prefix | intros _ | exact Hcalm
          | exact Hundef]).
  destruct (Z.eq_dec (empty_run st) 0) as [Hrun|Hrun].
  - rewrite (proj2 (Z.eqb_eq _ _) Hrun) at 1.
    eapply ensures_bind; [apply (run_user_code_loop argv st rt ctx)| | | |].
    + intros failed d (body & tail & -> & Hb & Ht).
      eapply ensures_weaken; [apply (teardown_calm st rt ctx failed)|].
      cbn beta. intros r d' [Hd' ->].
      exists body, tail, d'. rewrite <- app_assoc.
      split; [reflexivity|]. split; [exact Hb|]. split; [exact Hd'|].
      destruct failed.
      * subst tail. split; [now left | discriminate].
      * split; [right; split; [reflexivity | eauto]|].
        intros _ _ ->. destruct Ht as [|]; discriminate.
    + intros c d (body & tail & -> & Hb & ->). rewrite app_nil_r.
      now apply Hcalm.
    + intros d (body & tail & -> & Hb & ->). rewrite app_nil_r.
      now apply Hundef.
    + intros d (body & tail & -> & Hb & ->). rewrite app_nil_r.
      apply loop_post_calm; [exact Hb | discriminate].
  - rewrite (proj2 (Z.eqb_neq _ _) Hrun) at 1.
    apply ensures_bind_emits with (P := calm);
      [emits_auto | apply loop_post_prefix | intros failed | exact Hcalm
      | exact Hundef].
    eapply ensures_weaken; [apply (teardown_calm st rt ctx failed)|].
    cbn beta. intros r d [Hd _]. apply loop_post_calm; [exact Hd | tauto].
Qed.

Lemma is_output_calm e : is_output e -> calm e.
Proof. destruct e; cbn; tauto. Qed.

(** X18. The event loop runs at most once, at the end of the user code and
    only when no input failed. The events of [main] are calm events, then
    nothing or the end of the user-code block, then calm events, where a
    calm event is neither the start of the interactive shell nor the event
    loop. The end of the user-code block is the event loop, preceded when
    the shell runs by the removal of the promise rejection tracker and the
    start of the shell. It is there only when [main] returns 0, and it is
    there when [main] returns 0 and [-q] was not given. *)
Theorem X18_event_loop_runs_once (argv : list string) (r : result Z)
    (t : list event) :
  main eng ver argv [] = (r, t) ->
  exists before tail after,
    t = (before ++ tail ++ after)%list /\
    Forall calm before /\ Forall calm after /\
    (tail = [] \/ (r = Ret 0 /\ exists rt ctx, loop_tail rt ctx tail)) /\
    (forall st t1,
       scan_options ver (S (length argv)) argv init_locals [] = (Ret st, t1) ->
       r = Ret 0 -> empty_run st = 0 -> tail <> []).
Proof.
  intros Hmain. unfold main, bind in Hmain.
  destruct (scan_options_ensures ver argv (S (length argv)) init_locals
              ltac:(cbn; lia) ltac:(constructor) [])
    as (d1 & Hd1 & Hout & Hfuel & _).
  assert (Hc1 : Forall calm d1)
    by (eapply Forall_impl; [exact Hout | exact is_output_calm]).
  destruct (scan_options ver (S (length argv)) argv init_locals [])
    as [[st|c| |] t1] eqn:Hscan; cbn in Hd1, Hfuel; subst d1.
  - destruct (main_after_options_loop argv st t1) as (d & Hd & Hpost).
    rewrite Hmain in Hd, Hpost. cbn in Hd, Hpost. subst t.
    destruct (loop_post_prefix _ _ t1 d Hc1 Hpost)
      as (before & tail & after & Ht & Hb & Ha & Htail & Hrun).
    exists before, tail, after. repeat (split; [assumption|]).
    intros st' t1' [= <- <-]. exact Hrun.
  - inversion Hmain; subst. exists t, [], []. rewrite app_nil_r.
    repeat split; auto; discriminate.
  - inversion Hmain; subst. exists t, [], []. rewrite app_nil_r.
    repeat split; auto; discriminate.
  - contradiction.
Qed.

End EventLoop.

Lemma X18_event_loop_runs_once_witness :
  let argv := ["qjs"; "-e"; "1"] in
  exists before tail after,
    snd (main ok_engine "2021-03-27" argv [])
    = (before ++ tail ++ after)%list /\
    Forall calm before /\ Forall calm after /\
    tail <> [].
Proof.
  intros argv.
  assert (Hrun : main ok_engine "2021-03-27" argv []
                 = (Ret 0, snd (main ok_engine "2021-03-27" argv [])))
    by (vm_compute; reflexivity).
  destruct (X18_event_loop_runs_once ok_engine "2021-03-27" argv _ _ Hrun)
    as (before & tail & after & Heq & Hb & Ha & _ & Hrunloop).
  exists before, tail, after. repeat split; try assumption.
  eapply Hrunloop; [vm_compute; reflexivity | reflexivity | reflexivity].
Defined.

(** ** [eval_file] and its buffer *)

Section EvalFile.

Variable eng : Engine.

Lemma eval_buf_uses ctx buf filename flags :
  emits (uses_buffer ctx buf filename) (eval_buf eng ctx buf filename flags).
Proof. unfold eval_buf. emits_auto. Qed.

(** X19. [eval_file] releases what it read, once and last. When the file
    cannot be read it prints the reason and exits with status 1; nothing is
    evaluated and nothing released. Otherwise it evaluates the buffer it
    read, once, under the file's name, releases the buffer as its last
    action, whether the evaluation raised or not, and returns 0 or -1. *)
Theorem X19_eval_file_buffer (ctx : Z) (filename : string) (module : Z)
    (t : list event) :
  match eng_js_load_file eng t ctx filename with
  | None =>
      eval_file eng ctx filename module t
      = (Exit 1, (t ++ [E_js_load_file ctx filename None;
                        E_perror filename])%list)
  | Some buf =>
      exists r d,
        eval_file eng ctx filename module t
        = (Ret r, (t ++ E_js_load_file ctx filename (Some buf) :: d
                     ++ [E_js_free ctx buf])%list) /\
        (r = 0 \/ r = -1) /\
        Forall (uses_buffer ctx buf filename) d /\
        sources d = [Src_eval filename]
  end.
Proof.
  destruct (eng_js_load_file eng t ctx filename) as [buf|] eqn:Hload.
  - unfold eval_file. unfold bind at 1. unfold ask at 1. cbv beta zeta.
    rewrite Hload.
    set (t1 := (t ++ [E_js_load_file ctx filename (Some buf)])%list).
    set (P := fun e => uses_buffer ctx buf filename e /\ quiet e).
    lazymatch goal with
    | |- context [bind (if module <? 0 then ?a else ?b) ?k] =>
        set (mode := if module <? 0 then a else b)
    end.
    assert (Hmode : runs P mode).
    { unfold mode. runs_auto; split; exact I || reflexivity. }
    destruct (Hmode t1) as (d0 & Hd0 & HP0 & m & Hm).
    unfold bind at 1.
    destruct (mode t1) as [r0 t2].
    cbn in Hd0, Hm. subst r0 t2.
    set (flags := if m =? 0 then JS_EVAL_TYPE_GLOBAL else JS_EVAL_TYPE_MODULE).
    destruct (ensures_conj _ _ _
                (eval_buf_uses ctx buf filename flags)
                (eval_buf_ensures eng [] init_locals ctx buf filename flags)
                (t1 ++ d0)%list)
      as (d1 & Hd1 & [Hu1 _] & _ & Hs1 & v & Hv & Hv01).
    unfold bind at 1.
    destruct (eval_buf eng ctx buf filename flags (t1 ++ d0)%list) as [r1 t3].
    cbn in Hd1, Hv. subst r1 t3.
    exists v, (d0 ++ d1)%list. unfold bind, emit, ret. cbn.
    split; [|split; [exact Hv01|split]].
    + unfold t1. now rewrite <- !app_assoc.
    + apply Forall_app. split; [|exact Hu1].
      eapply Forall_impl; [exact HP0|]. now intros e [He _].
    + rewrite sources_app, Hs1, sources_quiet; [reflexivity|].
      eapply Forall_impl; [exact HP0|]. now intros e [_ He].
  - unfold eval_file, bind, ask, emit, exit. cbv beta zeta. rewrite Hload.
    now rewrite <- ?app_assoc.
Qed.

End EvalFile.

(** ** The include list *)

Section Includes.

Variable eng : Engine.
Variable ver : string.

Lemma length_include_tokens fs :
  length (include_tokens fs) = (2 * length fs)%nat.
Proof. induction fs as [|f fs IH]; cbn; lia. Qed.

Lemma arg_at_app pre (l : list string) i :
  arg_at (pre ++ l) (length pre + i) = arg_at l i.
Proof.
  unfold arg_at. induction pre as [|a pre IH]; cbn; auto.
Qed.

Lemma scan_options_stops argv f st t rest :
  drop (optind st) argv = rest -> (optind st <= length argv)%nat ->
  stops_scan rest ->
  scan_options ver (S f) argv st t = (Ret st, t).
Proof.
  intros Hd Hle Hstop. cbn [scan_options].
  destruct (Nat.ltb_spec (optind st) (length argv)) as [Hlt|]; [|reflexivity].
  rewrite arg_at_drop, Hd.
  destruct rest as [|tok rest'].
  { apply (f_equal length) in Hd. rewrite length_drop in Hd. cbn in Hd. lia. }
  cbn [hd]. cbn in Hstop.
  destruct tok as [|c tok']; [reflexivity|].
  destruct Hstop as [|[Hs|Hs]]; [discriminate| |].
  - inversion Hs; subst. reflexivity.
  - cbn in Hs. now rewrite Hs.
Qed.

(** The option loop over a run of [-I file] pairs, from a position where
    the array has room for them. *)
Lemma scan_includes : forall fs pre rest st f t,
  optind st = length pre ->
  (length (include_list st) + length fs <= include_capacity)%nat ->
  scan_options ver (length fs + f) (pre ++ include_tokens fs ++ rest) st t
  = scan_options ver f (pre ++ include_tokens fs ++ rest)
      (set_include_list (set_optind st (length pre + 2 * length fs))
         (include_list st ++ fs)) t.
Proof.
  induction fs as [|x fs IH]; intros pre rest st f t Hopt Hcap.
  - cbn [length include_tokens Nat.add Nat.mul]. cbn [app].
    rewrite Nat.add_0_r, app_nil_r, <- Hopt. now destruct st.
  - cbn [length include_tokens Nat.add].
    set (argv := (pre ++ ("-I" :: x :: include_tokens fs) ++ rest)%list).
    assert (Hlen : length argv
                   = (length pre + 2 + 2 * length fs + length rest)%nat).
    { unfold argv. rewrite !length_app. cbn [length].
      rewrite ?length_app, length_include_tokens. lia. }
    assert (Ha0 : arg_at argv (length pre) = "-I").
    { unfold argv. rewrite <- (Nat.add_0_r (length pre)) at 1.
      now rewrite arg_at_app. }
    assert (Ha1 : arg_at argv (S (length pre)) = x).
    { unfold argv. replace (S (length pre)) with (length pre + 1)%nat by lia.
      now rewrite arg_at_app. }
    rewrite (scan_short_step ver argv (length fs + f) st "I"%char "" t
               (set_include_list (set_optind st (S (S (length pre))))
                  (include_list st ++ [x])) t).
    + replace argv with ((pre ++ ["-I"; x]) ++ include_tokens fs ++ rest)%list
        by (unfold argv; now rewrite <- !app_assoc).
      rewrite (IH (pre ++ ["-I"; x])%list rest).
      * f_equal. cbn [include_list set_include_list set_optind].
        rewrite length_app, <- app_assoc. cbn [length app].
        replace (length pre + 2 + 2 * length fs)%nat
          with (length pre + 2 * S (length fs))%nat by lia.
        reflexivity.
      * cbn. rewrite length_app. cbn. lia.
      * cbn [include_list set_include_list]. rewrite length_app. cbn in *. lia.
    + rewrite Hopt, Hlen. lia.
    + rewrite Hopt. exact Ha0.
    + reflexivity.
    + cbn [option_loop]. unfold bind, option_body.
      cbn [Ascii.eqb Bool.eqb orb String.eqb].
      cbn [optind include_list set_optind].
      destruct (Nat.leb_spec (length argv) (S (optind st))) as [Hbad|_];
        [rewrite Hopt, Hlen in Hbad; lia|].
      destruct (Nat.leb_spec include_capacity (length (include_list st)))
        as [Hbad|_]; [cbn in Hcap; lia|].
      rewrite Hopt, Ha1. reflexivity.
Qed.

(** X20. Include files are taken in the order of the command line, up to the
    capacity of the array: after up to 32 [-I file] pairs the option loop
    has stored the files in order and stands behind the pairs; a 33rd pair
    ends the process with a diagnostic and status 1. *)
Theorem X20_include_capacity_boundary (prog : string) (fs rest : list string) :
  ((length fs <= 32)%nat -> stops_scan rest ->
   let argv := prog :: include_tokens fs ++ rest in
   scan_options ver (S (length argv)) argv init_locals []
   = (Ret (set_include_list (set_optind init_locals (1 + 2 * length fs)) fs),
      [])) /\
  ((32 < length fs)%nat ->
   main eng ver (prog :: include_tokens fs ++ rest) []
   = (Exit 1, [E_stderr "too many included files"])).
Proof.
  split.
  - intros Hlen Hstop argv.
    assert (Hargv : length argv = (1 + 2 * length fs + length rest)%nat).
    { unfold argv. cbn. rewrite length_app, length_include_tokens. lia. }
    replace (S (length argv))
      with (length fs + S (length argv - length fs))%nat by lia.
    change argv with ([prog] ++ include_tokens fs ++ rest)%list.
    rewrite (scan_includes fs [prog] rest init_locals _ []
               eq_refl ltac:(unfold include_capacity; cbn; lia)).
    cbn [include_list init_locals app length].
    apply (scan_options_stops _ _ _ _ rest); [| |exact Hstop].
    + cbn [optind set_include_list set_optind].
      change (prog :: include_tokens fs ++ rest)
        with ([prog] ++ include_tokens fs ++ rest)%list.
      rewrite app_assoc.
      rewrite drop_app_length'; [reflexivity|].
      rewrite length_app, length_include_tokens. cbn. lia.
    + cbn [optind set_include_list set_optind].
      fold argv. rewrite Hargv. lia.
  - intros Hlen.
    assert (Hsplit : exists fs1 x fs2,
      fs = (fs1 ++ x :: fs2)%list /\ length fs1 = 32%nat).
    { exists (take 32 fs).
      destruct (drop 32 fs) as [|x fs2] eqn:Hd.
      - apply (f_equal length) in Hd. rewrite length_drop in Hd. cbn in Hd. lia.
      - exists x, fs2. split; [|rewrite length_take; lia].
        rewrite <- Hd. now rewrite take_drop. }
    destruct Hsplit as (fs1 & x & fs2 & -> & H32).
    assert (Htok : forall l1 l2,
      include_tokens (l1 ++ l2) = (include_tokens l1 ++ include_tokens l2)%list).
    { induction l1 as [|a l1 IH]; intros l2; cbn; [reflexivity|].
      now rewrite IH. }
    rewrite Htok. cbn [include_tokens].
    set (tail := ("-I" :: x :: include_tokens fs2 ++ rest)%list).
    set (argv := (prog :: (include_tokens fs1 ++ "-I" :: x :: include_tokens fs2)
                    ++ rest)%list).
    assert (Hargv : argv = ([prog] ++ include_tokens fs1 ++ tail)%list).
    { unfold argv, tail. cbn. now rewrite <- app_assoc. }
    assert (Hlen' : length argv = (1 + 64 + length tail)%nat).
    { rewrite Hargv, !length_app, length_include_tokens. cbn [length]. lia. }
    assert (Htail : (2 <= length tail)%nat) by (unfold tail; cbn [length]; lia).
    unfold main, bind.
    replace (S (length argv)) with (length fs1 + (S (length tail) + 33))%nat
      by lia.
    rewrite Hargv.
    rewrite (scan_includes fs1 [prog] tail init_locals _ []
               eq_refl ltac:(unfold include_capacity; cbn; lia)).
    rewrite <- Hargv.
    cbn [include_list init_locals app length]. rewrite H32.
    cbn [scan_options Nat.add]. cbn [optind set_include_list set_optind].
    change (S (2 * 32)) with 65%nat.
    destruct (Nat.ltb_spec 65 (length argv)) as [_|Hbad]; [|lia].
    assert (Ha : arg_at argv 65 = "-I").
    { rewrite Hargv, app_assoc.
      replace 65%nat with (length ([prog] ++ include_tokens fs1) + 0)%nat
        by (rewrite length_app, length_include_tokens; cbn [length]; lia).
      now rewrite arg_at_app. }
    rewrite Ha. cbn [Ascii.eqb Bool.eqb negb].
    cbn [option_loop]. unfold bind, option_body.
    cbn [Ascii.eqb Bool.eqb orb String.eqb].
    cbn [optind include_list set_optind set_include_list].
    destruct (Nat.leb_spec (length argv) 66) as [Hbad|_]; [lia|].
    destruct (Nat.leb_spec include_capacity (length fs1)) as [_|Hbad];
      [|unfold include_capacity in Hbad; lia].
    reflexivity.
Qed.

End Includes.

Lemma X20_include_capacity_boundary_witness :
  scan_options "2021-03-27" 5 ["qjs"; "-I"; "a.js"; "main.js"] init_locals []
  = (Ret (set_include_list (set_optind init_locals 3) ["a.js"]), []).
Proof.
  refine (proj1 (X20_include_capacity_boundary ok_engine "2021-03-27" "qjs"
                   ["a.js"] ["main.js"]) _ _).
  - cbn. lia.
  - right; right; reflexivity.
Defined.

(** ** Options given twice *)

Section Replaces.

Variable eng : Engine.
Variable ver : string.

(** X21. Of two settings of the same variable the later one counts: a second
    [-e] replaces the expression of the first, which is never evaluated, and
    of [-m] and [--script] the one given last decides. *)
Theorem X21_later_option_replaces (prog a b : string) (rest : list string)
    (t : list event) :
  main eng ver (prog :: "-e" :: a :: "-e" :: b :: rest) t
    = main eng ver (prog :: "-e" :: b :: rest) t /\
  main eng ver (prog :: "--script" :: "-m" :: rest) t
    = main eng ver (prog :: "-m" :: rest) t /\
  main eng ver (prog :: "-m" :: "--script" :: rest) t
    = main eng ver (prog :: "--script" :: rest) t.
Proof.
  split; [|split].
  - set (argv1 := prog :: "-e" :: a :: "-e" :: b :: rest).
    set (argv2 := prog :: "-e" :: b :: rest).
    set (st1 := set_expr (set_optind init_locals 3) (Some a)).
    set (st2 := set_expr (set_optind init_locals 5) (Some b)).
    rewrite (main_first_short eng ver argv1 "e"%char "" t st1 t
               ltac:(cbn; lia) eq_refl eq_refl eq_refl).
    rewrite (main_first_short eng ver argv2 "e"%char "" t
               (set_optind st2 3) t ltac:(cbn; lia) eq_refl eq_refl eq_refl).
    unfold bind at 1. change (length argv1) with (S (S (S (S (S (length rest)))))).
    rewrite (scan_short_step ver argv1 (S (S (S (S (length rest))))) st1
               "e"%char "" t st2 t ltac:(cbn; lia) eq_refl eq_refl eq_refl).
    apply (main_same eng ver argv1 argv2 _ _ st2 3%nat t).
    + split; [reflexivity|]. cbn. lia.
    + cbn. lia.
    + cbn. lia.
    + cbn. lia.
  - set (argv1 := prog :: "--script" :: "-m" :: rest).
    set (argv2 := prog :: "-m" :: rest).
    set (st1 := set_module (set_optind init_locals 2) 0).
    set (st2 := set_module (set_optind init_locals 3) 1).
    rewrite (main_first_long eng ver argv1 "script" t st1 t
               ltac:(cbn; lia) eq_refl ltac:(discriminate) eq_refl).
    rewrite (main_first_short eng ver argv2 "m"%char "" t
               (set_optind st2 2) t ltac:(cbn; lia) eq_refl eq_refl eq_refl).
    unfold bind at 1. change (length argv1) with (S (S (S (length rest)))).
    rewrite (scan_short_step ver argv1 (S (S (length rest))) st1
               "m"%char "" t st2 t ltac:(cbn; lia) eq_refl eq_refl eq_refl).
    apply (main_same eng ver argv1 argv2 _ _ st2 2%nat t).
    + split; [reflexivity|]. cbn. lia.
    + cbn. lia.
    + cbn. lia.
    + cbn. lia.
  - set (argv1 := prog :: "-m" :: "--script" :: rest).
    set (argv2 := prog :: "--script" :: rest).
    set (st1 := set_module (set_optind init_locals 2) 1).
    set (st2 := set_module (set_optind init_locals 3) 0).
    rewrite (main_first_short eng ver argv1 "m"%char "" t st1 t
               ltac:(cbn; lia) eq_refl eq_refl eq_refl).
    rewrite (main_first_long eng ver argv2 "script" t
               (set_optind st2 2) t
               ltac:(cbn; lia) eq_refl ltac:(discriminate) eq_refl).
    unfold bind at 1. change (length argv1) with (S (S (S (length rest)))).
    rewrite (scan_long_step ver argv1 (S (S (length rest))) st1
               "script" t st2 t ltac:(cbn; lia) eq_refl
               ltac:(discriminate) eq_refl).
    apply (main_same eng ver argv1 argv2 _ _ st2 2%nat t).
    + split; [reflexivity|]. cbn. lia.
    + cbn. lia.
    + cbn. lia.
    + cbn. lia.
Qed.

End Replaces.

(** ** The limit options *)

Lemma bind_assoc {A B C} (m : M A) (f : A -> M B) (g : B -> M C) t :
  bind (bind m f) g t = bind m (fun x => bind (f x) g) t.
Proof. unfold bind. destruct (m t) as [[a|c| |] t1]; reflexivity. Qed.

Section LimitOptions.

Variable eng : Engine.
Variable ver : string.

Lemma main_first_long_any argv name t :
  (1 < length argv)%nat ->
  arg_at argv 1 = String "-" (String "-" name) ->
  name <> "" ->
  main eng ver argv t
  = (let* st2 := option_loop ver argv "" name (set_optind init_locals 2) in
     let* st' := scan_options ver (length argv) argv st2 in
     main_after_options eng argv st') t.
Proof.
  intros Hlen Harg Hname. unfold main. rewrite <- bind_assoc.
  unfold bind at 1 3. f_equal.
  cbn [scan_options]. change (optind init_locals) with 1%nat.
  destruct (Nat.ltb_spec 1 (length argv)) as [_|]; [|lia].
  rewrite Harg. cbn [Ascii.eqb Bool.eqb negb].
  destruct (String.eqb_spec name "") as [|_]; [contradiction|].
  reflexivity.
Qed.

Lemma option_loop_memory_limit argv st t :
  (optind st < length argv)%nat ->
  option_loop ver argv "" "memory-limit" st t
  = (let* v := get_suffixed_size (arg_at argv (optind st)) in
     ret (set_memory_limit (set_optind st (S (optind st))) v)) t.
Proof.
  intros Hlt. cbn [option_loop String.eqb Ascii.eqb Bool.eqb].
  unfold option_body, NUL.
  change (ascii_of_N 0)
    with (Ascii false false false false false false false false).
  cbn [String.eqb Ascii.eqb Bool.eqb orb].
  destruct (Nat.leb_spec (length argv) (optind st)) as [|_]; [lia|].
  unfold bind. destruct (get_suffixed_size _ t) as [[v|c| |] t1]; reflexivity.
Qed.

Lemma option_loop_stack_size argv st t :
  (optind st < length argv)%nat ->
  option_loop ver argv "" "stack-size" st t
  = (let* v := get_suffixed_size (arg_at argv (optind st)) in
     ret (set_stack_size (set_optind st (S (optind st))) v)) t.
Proof.
  intros Hlt. cbn [option_loop String.eqb Ascii.eqb Bool.eqb].
  unfold option_body, NUL.
  change (ascii_of_N 0)
    with (Ascii false false false false false false false false).
  cbn [String.eqb Ascii.eqb Bool.eqb orb].
  destruct (Nat.leb_spec (length argv) (optind st)) as [|_]; [lia|].
  unfold bind. destruct (get_suffixed_size _ t) as [[v|c| |] t1]; reflexivity.
Qed.

Lemma memory_limit_first prog s rest t :
  main eng ver (prog :: "--memory-limit" :: s :: rest) t
  = (let* v := get_suffixed_size s in
     let* st' := scan_options ver (S (S (S (length rest))))
                   (prog :: "--memory-limit" :: s :: rest)
                   (set_memory_limit (set_optind init_locals 3) v) in
     main_after_options eng (prog :: "--memory-limit" :: s :: rest) st') t.
Proof.
  rewrite (main_first_long_any (prog :: "--memory-limit" :: s :: rest)
             "memory-limit" t ltac:(cbn; lia) eq_refl ltac:(discriminate)).
  unfold bind at 1. rewrite option_loop_memory_limit by (cbn; lia).
  unfold bind. change (arg_at _ (optind (set_optind init_locals 2))) with s.
  destruct (get_suffixed_size s t) as [[v|c| |] t1]; reflexivity.
Qed.

Lemma stack_size_first prog s rest t :
  main eng ver (prog :: "--stack-size" :: s :: rest) t
  = (let* v := get_suffixed_size s in
     let* st' := scan_options ver (S (S (S (length rest))))
                   (prog :: "--stack-size" :: s :: rest)
                   (set_stack_size (set_optind init_locals 3) v) in
     main_after_options eng (prog :: "--stack-size" :: s :: rest) st') t.
Proof.
  rewrite (main_first_long_any (prog :: "--stack-size" :: s :: rest)
             "stack-size" t ltac:(cbn; lia) eq_refl ltac:(discriminate)).
  unfold bind at 1. rewrite option_loop_stack_size by (cbn; lia).
  unfold bind. change (arg_at _ (optind (set_optind init_locals 2))) with s.
  destruct (get_suffixed_size s t) as [[v|c| |] t1]; reflexivity.
Qed.

(** X22. A limit of zero is no limit, and a size that is refused ends the
    process. When the size given to [--memory-limit] or [--stack-size] is
    read as 0, the option has no effect at all; when [get_suffixed_size]
    exits, or its conversion is undefined, that is the outcome of [main]. *)
Theorem X22_limit_option_zero_or_refused (prog s : string) (rest : list string)
    (t : list event) :
  (get_suffixed_size s t = (Ret 0, t) ->
   main eng ver (prog :: "--memory-limit" :: s :: rest) t
     = main eng ver (prog :: rest) t /\
   main eng ver (prog :: "--stack-size" :: s :: rest) t
     = main eng ver (prog :: rest) t) /\
  (forall c t', get_suffixed_size s t = (Exit c, t') ->
   main eng ver (prog :: "--memory-limit" :: s :: rest) t = (Exit c, t') /\
   main eng ver (prog :: "--stack-size" :: s :: rest) t = (Exit c, t')) /\
  (forall t', get_suffixed_size s t = (Undefined, t') ->
   main eng ver (prog :: "--memory-limit" :: s :: rest) t = (Undefined, t') /\
   main eng ver (prog :: "--stack-size" :: s :: rest) t = (Undefined, t')).
Proof.
  split; [|split].
  - intros Hs. split.
    + rewrite memory_limit_first. unfold bind at 1. rewrite Hs.
      change (set_memory_limit (set_optind init_locals 3) 0)
        with (set_optind init_locals 3).
      symmetry. unfold main.
      apply (main_same eng ver (prog :: rest)
               (prog :: "--memory-limit" :: s :: rest) _ _ init_locals
               3%nat t).
      * split; [reflexivity|]. cbn. lia.
      * cbn. lia.
      * cbn. lia.
      * cbn. lia.
    + rewrite stack_size_first. unfold bind at 1. rewrite Hs.
      change (set_stack_size (set_optind init_locals 3) 0)
        with (set_optind init_locals 3).
      symmetry. unfold main.
      apply (main_same eng ver (prog :: rest)
               (prog :: "--stack-size" :: s :: rest) _ _ init_locals
               3%nat t).
      * split; [reflexivity|]. cbn. lia.
      * cbn. lia.
      * cbn. lia.
      * cbn. lia.
  - intros c t' Hs. split.
    + rewrite memory_limit_first. unfold bind at 1. now rewrite Hs.
    + rewrite stack_size_first. unfold bind at 1. now rewrite Hs.
  - intros t' Hs. split.
    + rewrite memory_limit_first. unfold bind at 1. now rewrite Hs.
    + rewrite stack_size_first. unfold bind at 1. now rewrite Hs.
Qed.

End LimitOptions.

Lemma X22_limit_option_zero_or_refused_witness :
  main ok_engine "2021-03-27" ["qjs"; "--memory-limit"; "17179869184G"; "-e"; "1"] []
  = main ok_engine "2021-03-27" ["qjs"; "-e"; "1"] [] /\
  main ok_engine "2021-03-27" ["qjs"; "--stack-size"; "1x"] []
  = (Exit 1, [E_stderr ("qjs: invalid suffix: x" +:+ LF)]) /\
  main ok_engine "2021-03-27" ["qjs"; "--memory-limit"; "-1"] []
  = (Undefined, []).
Proof.
  split; [|split].
  - refine (proj1 (proj1 (X22_limit_option_zero_or_refused ok_engine "2021-03-27"
                            "qjs" "17179869184G" ["-e"; "1"] []) _)).
    vm_compute. reflexivity.
  - refine (proj2 (proj1 (proj2 (X22_limit_option_zero_or_refused ok_engine
                                   "2021-03-27" "qjs" "1x" [] []))
                     1 _ _)).
    vm_compute. reflexivity.
  - refine (proj1 (proj2 (proj2 (X22_limit_option_zero_or_refused ok_engine
                                   "2021-03-27" "qjs" "-1" [] []))
                     _ _)).
    vm_compute. reflexivity.
Defined.

(** ** The setup of the runtime *)


Section Setup.

Variable eng : Engine.
Variable ver : string.







End Setup.


(** ** Refusals of the platform allocator *)

Section PlatformRefusal.

Variable apple : bool.

Opaque js_trace_malloc_printf.

(** X24. When the platform allocator refuses, so does the tracing allocator,
    and nothing is lost: a request that passes the cap test and gets no
    block from the platform returns NULL with the accounting record and the
    heap as they were, the old block of a reallocation still live; the
    platform call was made, and the trace line is printed, ending in [NULL]. *)
Theorem X24_platform_refusal (w : world) (ptr size : Z) :
  size <> 0 ->
  (wrap (malloc_size (ms w) + size) <= malloc_limit (ms w) ->
   exists w',
     js_trace_malloc apple w size None = Some (NULL, w') /\
     ms w' = ms w /\ heap w' = heap w /\
     calls w' = (calls w ++ [SysMalloc size])%list /\
     out w' = out w +:+ "A " +:+ fmt_zd size +:+ " -> NULL" +:+ LF) /\
  (ptr <> NULL ->
   wrap (wrap (malloc_size (ms w) + size) - js_trace_malloc_usable_size w ptr)
     <= malloc_limit (ms w) ->
   exists w',
     js_trace_realloc apple w ptr size None = Some (NULL, w') /\
     ms w' = ms w /\ heap w' = heap w /\
     calls w' = (calls w ++ [SysRealloc ptr size])%list /\
     out w' = out w +:+ "R " +:+ fmt_zd size +:+ " "
                    +:+ trace_block (base (opaque (ms w))) ptr
                          (js_trace_malloc_usable_size w ptr)
                    +:+ " -> NULL" +:+ LF).
Proof.
  intros Hsz. split.
  - intros Hcap. unfold js_trace_malloc.
    destruct (Z.eqb_spec size 0) as [|_]; [contradiction|].
    destruct (Z.gtb_spec (wrap (malloc_size (ms w) + size))
                (malloc_limit (ms w))) as [|_]; [lia|].
    cbn [sys_malloc]. change (NULL =? NULL) with true. cbn iota.
    eexists. split; [reflexivity|].
    rewrite js_trace_malloc_printf_ms, js_trace_malloc_printf_heap,
      js_trace_malloc_printf_calls, js_trace_malloc_printf_out.
    repeat (split; [reflexivity|]).
    literal_formats. cbn [trace_text Ascii.eqb Bool.eqb andb out].
    change (NULL =? NULL) with true. cbn iota.
    string_norm. reflexivity.
  - intros Hptr Hcap. unfold js_trace_realloc.
    destruct (Z.eqb_spec ptr NULL) as [|_]; [contradiction|].
    destruct (Z.eqb_spec size 0) as [|_]; [contradiction|].
    cbn zeta.
    destruct (Z.gtb_spec
                (wrap (wrap (malloc_size (ms w) + size)
                       - js_trace_malloc_usable_size w ptr))
                (malloc_limit (ms w))) as [|_]; [lia|].
    cbn [sys_realloc]. change (NULL =? NULL) with true. cbn iota.
    eexists. split; [reflexivity|].
    rewrite js_trace_malloc_printf_ms, js_trace_malloc_printf_heap,
      js_trace_malloc_printf_calls, js_trace_malloc_printf_out.
    cbn [ms heap calls out].
    rewrite js_trace_malloc_printf_ms, js_trace_malloc_printf_heap,
      js_trace_malloc_printf_calls, js_trace_malloc_printf_out.
    repeat (split; [reflexivity|]).
    literal_formats. cbn [trace_text Ascii.eqb Bool.eqb andb out].
    change (NULL =? NULL) with true. cbn iota.
    destruct (Z.eqb_spec ptr NULL) as [|_]; [contradiction|].
    rewrite fmt_ptr_block.
    string_norm. reflexivity.
Qed.

Transparent js_trace_malloc_printf.

End PlatformRefusal.

Lemma X24_platform_refusal_witness :
  let w := {| ms := {| malloc_count := 1; malloc_size := 112;
                       malloc_limit := 1000;
                       opaque := {| base := 4096 |} |};
              heap := {[ 8192 := 104 ]}; out := ""; calls := [] |} in
  exists w',
    js_trace_realloc false w 8192 200 None = Some (NULL, w') /\
    ms w' = ms w /\ heap w' = heap w /\
    calls w' = [SysRealloc 8192 200].
Proof.
  intros w.
  assert (Hsz : 200 <> 0) by lia.
  assert (Hptr : 8192 <> NULL) by (unfold NULL; lia).
  assert (Hcap : wrap (wrap (malloc_size (ms w) + 200)
                       - js_trace_malloc_usable_size w 8192)
                 <= malloc_limit (ms w)) by (vm_compute; discriminate).
  destruct (proj2 (X24_platform_refusal false w 8192 200 Hsz) Hptr Hcap)
    as (w' & Heq & Hms & Hheap & Hcalls & _).
  exists w'. auto.
Defined.
